(** * LCP (Language Context Provider): protocol client and session layer

    A shallow embedding of the TypeScript sources of the LCP broker:
    the coordinate converter, the error-handling wrapper, the DAP event
    bus, the breakpoint manager, the DAP client (frame codec, request
    multiplexer, initialize, disconnect), the LSP client, the session
    store and session persistence, the path and URI helpers, and the
    debug tools (launch, step, stop, add breakpoint), followed by the
    properties proved about each.

    Conventions.
    - A JavaScript [number] that holds a line, a sequence number, a
      millisecond count or a length is a [Z]; the sources only use such
      numbers as integers far below 2^53, where double arithmetic is
      exact.
    - A JavaScript [Map] is a [gmap]; a [Set] of ids, whose iteration
      order is insertion order, is a duplicate-free list.
    - A promise is represented by the way it settles; the callbacks of
      the single-threaded event loop are explicit steps on a state. *)

From Stdlib Require Import ZArith Lia DecimalString DecimalNat.
From stdpp Require Import gmap strings list.

Open Scope Z_scope.

(* ===================================================================== *)
(** * JavaScript values *)
(* ===================================================================== *)

Module Js.

(** The JSON-like values that travel as [unknown] through the sources
    (event bodies, response bodies, error details). *)
#[local] Unset Elimination Schemes.
Inductive JsValue : Type :=
| JsUndefined
| JsNull
| JsBool (b : bool)
| JsNum (n : Z)
| JsStr (s : string)
| JsArr (items : list JsValue)
| JsObj (fields : list (string * JsValue)).
#[local] Set Elimination Schemes.

(** [o.k] on a value: [undefined] when [o] is no object or has no [k]. *)
Fixpoint assoc (k : string) (fields : list (string * JsValue)) : JsValue :=
  match fields with
  | [] => JsUndefined
  | (k', v) :: rest => if decide (k = k') then v else assoc k rest
  end.

Definition field (k : string) (v : JsValue) : JsValue :=
  match v with
  | JsObj fields => assoc k fields
  | _ => JsUndefined
  end.

End Js.

(* ===================================================================== *)
(** * src/utils/coordinate-converter.ts *)
(* ===================================================================== *)

Module Coord.

(** [Math.max(0, line - 1)] *)
Definition toZeroBased (line : Z) : Z := Z.max 0 (line - 1).

(** [line + 1] *)
Definition toOneBased (line : Z) : Z := line + 1.

Record Position : Type := mkPosition { line : Z; character : Z }.

Definition positionToZeroBased (position : Position) : Position :=
  {| line := toZeroBased (line position); character := character position |}.

Definition positionToOneBased (position : Position) : Position :=
  {| line := toOneBased (line position); character := character position |}.

Example toZeroBased_10 : toZeroBased 10 = 9.
Proof. reflexivity. Qed.

Example toZeroBased_neg : toZeroBased (-10) = 0.
Proof. reflexivity. Qed.

Example toOneBased_neg : toOneBased (-10) = -9.
Proof. reflexivity. Qed.

(** C9. For every integer [n >= 1], converting to 0-based and back gives
    [n] again, and for every integer [n <= 0] the conversion to 0-based
    clamps to [0]. *)
Theorem coordinate_round_trip_and_clamp (n : Z) :
  (1 <= n -> toOneBased (toZeroBased n) = n) /\
  (n <= 0 -> toZeroBased n = 0).
Proof.
  unfold toOneBased, toZeroBased. split; intros Hn.
  - rewrite Z.max_r by lia. lia.
  - apply Z.max_l. lia.
Qed.

Lemma coordinate_round_trip_and_clamp_witness :
  toOneBased (toZeroBased 53) = 53 /\ toZeroBased (-3) = 0.
Proof.
  split.
  - apply (proj1 (coordinate_round_trip_and_clamp 53)). lia.
  - apply (proj2 (coordinate_round_trip_and_clamp (-3))). lia.
Defined.

(** ** Positions, ranges, and the conversion in both directions *)

Record Range : Type := mkRange { range_start : Position; range_end : Position }.

Definition rangeToZeroBased (range : Range) : Range :=
  {| range_start := positionToZeroBased (range_start range);
     range_end := positionToZeroBased (range_end range) |}.

Definition rangeToOneBased (range : Range) : Range :=
  {| range_start := positionToOneBased (range_start range);
     range_end := positionToOneBased (range_end range) |}.

(** X1. A 1-based range whose two lines are at least 1 survives the
    conversion to 0-based and back, characters included. *)
Theorem range_one_based_round_trip (r : Range) :
  1 <= line (range_start r) -> 1 <= line (range_end r) ->
  rangeToOneBased (rangeToZeroBased r) = r.
Proof.
  intros Hs He. destruct r as [[sl sc] [el ec]]. simpl in *.
  unfold rangeToOneBased, rangeToZeroBased, positionToOneBased, positionToZeroBased,
    toOneBased, toZeroBased. simpl.
  rewrite !Z.max_r by lia. repeat f_equal; lia.
Qed.

Lemma range_one_based_round_trip_witness :
  rangeToOneBased (rangeToZeroBased (mkRange (mkPosition 53 4) (mkPosition 60 0)))
  = mkRange (mkPosition 53 4) (mkPosition 60 0).
Proof. apply range_one_based_round_trip; simpl; lia. Defined.

(** X2. A 0-based range, as a language server sends it (lines at least
    0), survives the conversion to 1-based and back. *)
Theorem range_zero_based_round_trip (r : Range) :
  0 <= line (range_start r) -> 0 <= line (range_end r) ->
  rangeToZeroBased (rangeToOneBased r) = r.
Proof.
  intros Hs He. destruct r as [[sl sc] [el ec]]. simpl in *.
  unfold rangeToOneBased, rangeToZeroBased, positionToOneBased, positionToZeroBased,
    toOneBased, toZeroBased. simpl.
  rewrite !Z.max_r by lia. repeat f_equal; lia.
Qed.

Lemma range_zero_based_round_trip_witness :
  rangeToZeroBased (rangeToOneBased (mkRange (mkPosition 0 4) (mkPosition 7 0)))
  = mkRange (mkPosition 0 4) (mkPosition 7 0).
Proof. apply range_zero_based_round_trip; simpl; lia. Defined.

(** [toZeroBased] never gives a negative line and keeps the order of
    lines; going to 0-based and back gives [max(1, n)] for every [n], so
    line 0 and every negative line come back as line 1. *)
Lemma toZeroBased_clamps_and_keeps_order (n m : Z) :
  0 <= toZeroBased n /\
  (n <= m -> toZeroBased n <= toZeroBased m) /\
  toOneBased (toZeroBased n) = Z.max 1 n.
Proof. unfold toOneBased, toZeroBased. lia. Qed.

Lemma toZeroBased_clamps_and_keeps_order_witness :
  toZeroBased (-4) <= toZeroBased 9.
Proof. apply (proj1 (proj2 (toZeroBased_clamps_and_keeps_order (-4) 9))). lia. Defined.

End Coord.

(* ===================================================================== *)
(** * src/utils/error-handler.ts *)
(* ===================================================================== *)

Module ErrorHandler.
Import Js.

(** [enum ErrorCode] of core/types.ts. *)
Inductive ErrorCode : Type :=
| SESSION_NOT_FOUND
| FILE_NOT_FOUND
| SYMBOL_NOT_FOUND
| LSP_ERROR
| DAP_ERROR
| TIMEOUT
| INVALID_ARGUMENT
| INTERNAL_ERROR.

#[global] Instance ErrorCode_eq_dec : EqDecision ErrorCode.
Proof. solve_decision. Defined.

(** What a [throw] or a rejection can carry: an [LCPError] (or one of its
    subclasses, which only fix the code), another [Error], or any other
    value. *)
Inductive Thrown : Type :=
| ThrownLCP (code : ErrorCode) (message : string) (details : JsValue)
| ThrownError (name message : string) (stack : JsValue)
| ThrownOther (v : JsValue).

Definition SessionError (message : string) (details : JsValue) : Thrown :=
  ThrownLCP SESSION_NOT_FOUND message details.
Definition LSPError (message : string) (details : JsValue) : Thrown :=
  ThrownLCP LSP_ERROR message details.
Definition DAPError (message : string) (details : JsValue) : Thrown :=
  ThrownLCP DAP_ERROR message details.
Definition TimeoutError (message : string) (details : JsValue) : Thrown :=
  ThrownLCP TIMEOUT message details.

Record ErrorInfo : Type := mkErrorInfo {
  code : ErrorCode;
  message : string;
  details : JsValue
}.

(** [interface ToolResult<T>]: [data] and [error] are optional fields. *)
Record ToolResult (T : Type) : Type := mkToolResult {
  success : bool;
  data : option T;
  error : option ErrorInfo
}.
Arguments mkToolResult {T} _ _ _.
Arguments success {T} _.
Arguments data {T} _.
Arguments error {T} _.

Definition toToolResult {T : Type} (err : Thrown) : ToolResult T :=
  match err with
  | ThrownLCP c m d =>
      mkToolResult false None (Some (mkErrorInfo c m d))
  | ThrownError _ m stack =>
      mkToolResult false None
        (Some (mkErrorInfo INTERNAL_ERROR m (JsObj [("stack"%string, stack)])))
  | ThrownOther v =>
      mkToolResult false None
        (Some (mkErrorInfo INTERNAL_ERROR "An unknown error occurred" v))
  end.

(** A promise, by the way it settles; [Pending] is a promise that never
    settles. *)
Inductive Promise (A : Type) : Type :=
| Resolved (a : A)
| Rejected (e : Thrown)
| Pending.
Arguments Resolved {A} _.
Arguments Rejected {A} _.
Arguments Pending {A}.

(** [p.then(f)] for a handler [f] that returns a plain value. *)
Definition promise_then {A B : Type} (p : Promise A) (f : A -> B) : Promise B :=
  match p with
  | Resolved a => Resolved (f a)
  | Rejected e => Rejected e
  | Pending => Pending
  end.

(** [p.catch(g)] for a handler [g] that returns a plain value. *)
Definition promise_catch {A : Type} (p : Promise A) (g : Thrown -> A) : Promise A :=
  match p with
  | Resolved a => Resolved a
  | Rejected e => Resolved (g e)
  | Pending => Pending
  end.

(** Calling a function of type [() => Promise<T>]: it hands back a
    promise, or throws before it does. *)
Inductive Call (A : Type) : Type :=
| Returned (p : Promise A)
| Threw (e : Thrown).
Arguments Returned {A} _.
Arguments Threw {A} _.

(** The body of an [async] arrow function runs to a [return], to a
    [throw], or waits for ever on something that never settles. *)
Inductive Body (A : Type) : Type :=
| BodyReturn (a : A)
| BodyThrow (e : Thrown)
| BodyHang.
Arguments BodyReturn {A} _.
Arguments BodyThrow {A} _.
Arguments BodyHang {A}.

(** [async () => { body }]: always hands back a promise. *)
Definition async {A : Type} (body : unit -> Body A) : unit -> Call A :=
  fun _ =>
    match body tt with
    | BodyReturn a => Returned (Resolved a)
    | BodyThrow e => Returned (Rejected e)
    | BodyHang => Returned Pending
    end.

(** [fn().then((data) => ({ success: true, data })).catch((error) => toToolResult(error))] *)
Definition withErrorHandling {T : Type} (fn : unit -> Call T) : Call (ToolResult T) :=
  match fn tt with
  | Threw e => Threw e
  | Returned p =>
      Returned
        (promise_catch
           (promise_then p (fun d => mkToolResult true (Some d) None))
           toToolResult)
  end.

(** The code a thrown value is reported under. *)
Definition reported_code (err : Thrown) : ErrorCode :=
  match err with
  | ThrownLCP c _ _ => c
  | _ => INTERNAL_ERROR
  end.

Lemma toToolResult_shape {T : Type} (err : Thrown) :
  exists m d,
    @toToolResult T err = mkToolResult false None (Some (mkErrorInfo (reported_code err) m d)).
Proof. destruct err; simpl; eauto. Qed.

Lemma toToolResult_LCP {T : Type} c m d :
  @toToolResult T (ThrownLCP c m d) = mkToolResult false None (Some (mkErrorInfo c m d)).
Proof. reflexivity. Qed.

Example unknown_error_result :
  @toToolResult unit (ThrownOther (JsStr "Unknown error")) =
  mkToolResult false None
    (Some (mkErrorInfo INTERNAL_ERROR "An unknown error occurred" (JsStr "Unknown error"))).
Proof. reflexivity. Qed.

(** C8. A tool operation is [withErrorHandling(async () => ...)]. For
    every body, the call hands back a promise that never rejects: a
    returned value [d] gives [{ success: true, data: d }]; a thrown or
    rejected error gives [{ success: false, error: { code, message,
    details } }], where an [LCPError] keeps its own code, message and
    details and anything else is reported as [INTERNAL_ERROR]. *)
Theorem withErrorHandling_never_rejects {T : Type} (body : unit -> Body T) :
  exists q : Promise (ToolResult T),
    withErrorHandling (async body) = Returned q /\
    (forall e, q <> Rejected e) /\
    (forall d, body tt = BodyReturn d ->
       q = Resolved (mkToolResult true (Some d) None)) /\
    (forall e, body tt = BodyThrow e ->
       q = Resolved (toToolResult e) /\
       exists m det,
         @toToolResult T e =
         mkToolResult false None (Some (mkErrorInfo (reported_code e) m det))) /\
    (forall c m det, body tt = BodyThrow (ThrownLCP c m det) ->
       q = Resolved (mkToolResult false None (Some (mkErrorInfo c m det)))).
Proof.
  unfold withErrorHandling, async.
  destruct (body tt) as [a | e | ] eqn:Hb; simpl.
  - eexists; split; [reflexivity |].
    repeat split; try congruence; intros; try discriminate.
  - eexists; split; [reflexivity |].
    repeat split; try congruence; intros; try discriminate.
    + inversion H; subst. apply toToolResult_shape.
    + inversion H; subst. reflexivity.
  - eexists; split; [reflexivity |].
    repeat split; try congruence; intros; discriminate.
Qed.

Lemma withErrorHandling_never_rejects_witness :
  withErrorHandling (async (fun _ => @BodyThrow Z (SessionError "Session not found" JsUndefined))) =
  Returned (Resolved (mkToolResult false None
    (Some (mkErrorInfo SESSION_NOT_FOUND "Session not found" JsUndefined)))).
Proof.
  destruct (withErrorHandling_never_rejects
              (fun _ => @BodyThrow Z (SessionError "Session not found" JsUndefined)))
    as (q & Hq & _ & _ & _ & Hlcp).
  rewrite Hq. f_equal. eapply Hlcp. reflexivity.
Defined.

(** A function that is not [async] and throws before it hands back a
    promise is outside the wrapper's reach: the throw leaves
    [withErrorHandling] itself. No tool in the sources is written so. *)
Example withErrorHandling_sync_throw :
  withErrorHandling (fun _ => @Threw Z (ThrownOther JsNull)) = Threw (ThrownOther JsNull).
Proof. reflexivity. Qed.

End ErrorHandler.

(* ===================================================================== *)
(** * List facts shared by the developments below *)
(* ===================================================================== *)

Module ListAux.

Lemma filter_all {A : Type} (P : A -> Prop) `{!forall x, Decision (P x)} (l : list A) :
  (forall x, x ∈ l -> P x) -> filter P l = l.
Proof.
  induction l as [| x l IH]; intros Hall; [reflexivity |].
  rewrite filter_cons_True by (apply Hall; left).
  f_equal. apply IH. intros y Hy. apply Hall. by right.
Qed.

Lemma filter_none {A : Type} (P : A -> Prop) `{!forall x, Decision (P x)} (l : list A) :
  (forall x, x ∈ l -> ~ P x) -> filter P l = [].
Proof.
  induction l as [| x l IH]; intros Hall; [reflexivity |].
  rewrite filter_cons_False by (apply Hall; left).
  apply IH. intros y Hy. apply Hall. by right.
Qed.

Lemma filter_ext_in {A : Type} (P Q : A -> Prop)
    `{!forall x, Decision (P x), !forall x, Decision (Q x)} (l : list A) :
  (forall x, x ∈ l -> (P x <-> Q x)) -> filter P l = filter Q l.
Proof.
  induction l as [| x l IH]; intros Hext; [reflexivity |].
  assert (Hl : filter P l = filter Q l).
  { apply IH. intros y Hy. apply Hext. by right. }
  destruct (decide (P x)) as [Hp | Hp].
  - rewrite !filter_cons_True; [by f_equal | | done].
    apply Hext; [left | done].
  - rewrite !filter_cons_False; [done | | done].
    intros Hq. apply Hp. apply Hext; [left | done].
Qed.

Lemma NoDup_fmap_inj {A B : Type} (f : A -> B) (l : list A) (x y : A) :
  NoDup (f <$> l) -> x ∈ l -> y ∈ l -> f x = f y -> x = y.
Proof.
  induction l as [| a l IH]; simpl; intros Hnd Hx Hy Heq.
  - inversion Hx.
  - apply NoDup_cons in Hnd as [Ha Hnd].
    apply elem_of_cons in Hx as [-> | Hx]; apply elem_of_cons in Hy as [-> | Hy].
    + reflexivity.
    + exfalso. apply Ha. rewrite Heq. apply list_elem_of_fmap. eauto.
    + exfalso. apply Ha. rewrite <- Heq. apply list_elem_of_fmap. eauto.
    + auto.
Qed.

Lemma NoDup_fmap_filter {A B : Type} (f : A -> B) (P : A -> Prop)
    `{!forall x, Decision (P x)} (l : list A) :
  NoDup (f <$> l) -> NoDup (f <$> filter P l).
Proof.
  induction l as [| x l IH]; simpl; intros Hnd; [constructor |].
  apply NoDup_cons in Hnd as [Hx Hnd].
  rewrite filter_cons. destruct (decide (P x)); simpl; [| auto].
  apply NoDup_cons. split; [| auto].
  intros Hin. apply Hx. apply list_elem_of_fmap in Hin as (y & -> & Hy).
  apply list_elem_of_fmap. exists y. split; [done |].
  apply list_elem_of_filter in Hy. tauto.
Qed.

(** A log of pairs [(key, entry)] in which no key occurs twice. *)
Lemma filter_fst_fresh {K V : Type} `{EqDecision K} (k : K) (l : list (K * V)) :
  k ∉ fst <$> l -> filter (fun p => fst p = k) l = [].
Proof.
  intros Hnot. apply filter_none. intros p Hp Heq. apply Hnot.
  apply list_elem_of_fmap. eauto.
Qed.

Lemma filter_fst_once {K V : Type} `{EqDecision K} (k : K) (l : list (K * V)) :
  NoDup (fst <$> l) -> k ∈ fst <$> l ->
  exists v, filter (fun p => fst p = k) l = [(k, v)].
Proof.
  induction l as [| [i v] l IH]; simpl; intros Hnd Hin.
  - by apply not_elem_of_nil in Hin.
  - apply NoDup_cons in Hnd as [Hi Hnd]. rewrite filter_cons; simpl.
    destruct (decide (i = k)) as [-> | Hne].
    + exists v. by rewrite filter_fst_fresh.
    + apply elem_of_cons in Hin as [-> | Hin]; [done | auto].
Qed.

End ListAux.

(* ===================================================================== *)
(** * src/dap/event-bus.ts *)
(* ===================================================================== *)

Module EventBus.
Import Js ListAux.

(** [interface EventWaiter]. The identity of the waiter object (what
    [indexOf] compares) is [wid]; [timeout] is the handle that
    [setTimeout] gave back. [resolve] and [reject] are the two functions
    of the waiter's promise: calling one is an entry of the bus's
    [settled] log under the waiter's [wid]. *)
Record EventWaiter : Type := mkWaiter {
  wid : nat;
  eventType : string;
  timeout : nat
}.

#[global] Instance EventWaiter_eq_dec : EqDecision EventWaiter.
Proof. solve_decision. Defined.

(** How a waiter's promise was settled. *)
Inductive Settlement : Type :=
| ResolvedWith (event : JsValue)
| RejectedTimeout (eventType : string) (timeoutMs : Z)
| RejectedCleared.

(** A pending timer of the event loop: the callback that [waitFor]
    passed to [setTimeout] closes over the waiter and [timeoutMs]. *)
Record Timer : Type := mkTimer {
  handle : nat;
  due : Z;
  callback_waiter : EventWaiter;
  callback_timeoutMs : Z
}.

#[global] Instance Timer_eq_dec : EqDecision Timer.
Proof. solve_decision. Defined.

(** The bus together with the part of the event loop it uses: the
    clock, the table of pending timers, and the log of calls to the
    waiters' [resolve] and [reject], most recent first. *)
Record Bus : Type := mkBus {
  waiters : list EventWaiter;
  timers : list Timer;
  nextId : nat;
  now : Z;
  settled : list (nat * Settlement)
}.

Definition empty : Bus := mkBus [] [] 0%nat 0 [].

(** [options: { timeout?: number }]; [None] is an absent or
    [undefined] field. *)
Record WaitOptions : Type := mkWaitOptions { opt_timeout : option Z }.

Definition no_options : WaitOptions := mkWaitOptions None.

(** [options.timeout || 5000]: [undefined] and [0] are falsy. *)
Definition timeoutMs (options : WaitOptions) : Z :=
  match opt_timeout options with
  | Some t => if decide (t = 0) then 5000 else t
  | None => 5000
  end.

(** The delay Node's [setTimeout] really uses: a delay below 1 or above
    2^31-1 is replaced by 1. *)
Definition setTimeout_delay (ms : Z) : Z :=
  if decide (1 <= ms <= 2147483647) then ms else 1.

(** [clearTimeout(h)] *)
Definition clearTimeout (h : nat) (ts : list Timer) : list Timer :=
  filter (fun t => handle t <> h) ts.

(** [this.waiters.indexOf(waiter)]; [None] is [-1]. *)
Fixpoint indexOf (w : EventWaiter) (l : list EventWaiter) : option nat :=
  match l with
  | [] => None
  | x :: rest =>
      if decide (wid x = wid w) then Some 0%nat
      else S <$> indexOf w rest
  end.

Definition removeWaiter (w : EventWaiter) (b : Bus) : Bus :=
  let ts := clearTimeout (timeout w) (timers b) in
  let ws :=
    match indexOf w (waiters b) with
    | Some index => delete index (waiters b)
    | None => waiters b
    end in
  mkBus ws ts (nextId b) (now b) (settled b).

Definition settle (w : EventWaiter) (s : Settlement) (b : Bus) : Bus :=
  mkBus (waiters b) (timers b) (nextId b) (now b) ((wid w, s) :: settled b).

(** [waitFor(eventType, options)]: gives back the new waiter, whose
    promise is the one handed to the caller. *)
Definition waitFor (evType : string) (options : WaitOptions) (b : Bus)
  : EventWaiter * Bus :=
  let ms := timeoutMs options in
  let w := mkWaiter (nextId b) evType (nextId b) in
  let t := mkTimer (nextId b) (now b + setTimeout_delay ms) w ms in
  (w, mkBus (waiters b ++ [w]) (timers b ++ [t]) (S (nextId b)) (now b) (settled b)).

(** The callback given to [setTimeout]. *)
Definition on_timeout (w : EventWaiter) (ms : Z) (b : Bus) : Bus :=
  settle w (RejectedTimeout (eventType w) ms) (removeWaiter w b).

(** The event loop runs a pending timer: it leaves the table and its
    callback is called. *)
Definition fire (t : Timer) (b : Bus) : Bus :=
  on_timeout (callback_waiter t) (callback_timeoutMs t)
    (mkBus (waiters b) (clearTimeout (handle t) (timers b))
       (nextId b) (now b) (settled b)).

(** [emit(eventType, event)] *)
Definition emit (evType : string) (event : JsValue) (b : Bus) : Bus :=
  let matchingWaiters := filter (fun w => eventType w = evType) (waiters b) in
  foldl (fun acc w => settle w (ResolvedWith event) (removeWaiter w acc))
    b matchingWaiters.

(** [clear()] *)
Definition clear (b : Bus) : Bus :=
  let b' :=
    foldl (fun acc w =>
             settle w RejectedCleared
               (mkBus (waiters acc) (clearTimeout (timeout w) (timers acc))
                  (nextId acc) (now acc) (settled acc)))
      b (waiters b) in
  mkBus [] (timers b') (nextId b') (now b') (settled b').

(** The pending timer that the event loop runs next when the clock may
    go up to [limit]: the earliest one due by then, the first set among
    equals. *)
Fixpoint next_due (limit : Z) (ts : list Timer) : option Timer :=
  match ts with
  | [] => None
  | t :: rest =>
      match next_due limit rest with
      | Some t' =>
          if decide (due t <= limit /\ due t <= due t') then Some t else Some t'
      | None => if decide (due t <= limit) then Some t else None
      end
  end.

Fixpoint run_due (fuel : nat) (limit : Z) (b : Bus) : Bus :=
  match fuel with
  | O => b
  | S fuel' =>
      match next_due limit (timers b) with
      | Some t => run_due fuel' limit (fire t b)
      | None => b
      end
  end.

(** [dt] milliseconds pass with no other input: every timer that falls
    due is run, in order. A timeout callback sets no new timer, so one
    round per pending timer is enough. *)
Definition advance (dt : Z) (b : Bus) : Bus :=
  let limit := now b + dt in
  let b' := run_due (length (timers b)) limit b in
  mkBus (waiters b') (timers b') (nextId b') limit (settled b').

(** What happens to a bus. *)
Inductive Op : Type :=
| OpWaitFor (evType : string) (options : WaitOptions)
| OpEmit (evType : string) (event : JsValue)
| OpClear
| OpAdvance (dt : Z).

Definition step (b : Bus) (op : Op) : Bus :=
  match op with
  | OpWaitFor ev o => snd (waitFor ev o b)
  | OpEmit ev x => emit ev x b
  | OpClear => clear b
  | OpAdvance dt => advance dt b
  end.

Definition run (ops : list Op) (b : Bus) : Bus := foldl step b ops.

(** The settlements logged for one waiter. *)
Definition settlements_of (id : nat) (b : Bus) : list Settlement :=
  snd <$> filter (fun p => fst p = id) (settled b).

Definition with_timeout (ms : Z) : WaitOptions := mkWaitOptions (Some ms).

Example wait_50_no_emit :
  let b := run [OpWaitFor "stopped" (with_timeout 50); OpAdvance 50] empty in
  settled b = [(0%nat, RejectedTimeout "stopped" 50)] /\ waiters b = [] /\ timers b = [].
Proof. vm_compute. done. Qed.

Example wait_50_not_yet :
  let b := run [OpWaitFor "stopped" (with_timeout 50); OpAdvance 49] empty in
  settled b = [] /\ length (waiters b) = 1%nat.
Proof. vm_compute. done. Qed.

Example wait_5000_emit_after_10 :
  let b := run [OpWaitFor "stopped" (with_timeout 5000); OpAdvance 10;
                OpEmit "stopped" (JsStr "X"); OpAdvance 5000] empty in
  settled b = [(0%nat, ResolvedWith (JsStr "X"))] /\ waiters b = [] /\ timers b = [].
Proof. vm_compute. done. Qed.

Example emit_other_name_leaves_waiter :
  let b := run [OpWaitFor "stopped" (with_timeout 5000); OpAdvance 10;
                OpEmit "output" (JsStr "X")] empty in
  settled b = [] /\ length (waiters b) = 1%nat.
Proof. vm_compute. done. Qed.

(** ** Well-formed buses *)

(** Facts that every bus built by the operations satisfies: waiter
    objects are distinct, each pending timer belongs to a registered
    waiter and is the one stored in it, a settled waiter is no longer
    registered, and no waiter was settled twice. *)
Record wf (b : Bus) : Prop := mkWf {
  wf_nodup : NoDup (wid <$> waiters b);
  wf_waiter : forall w, w ∈ waiters b -> (wid w < nextId b)%nat /\ timeout w = wid w;
  wf_timer : forall t, t ∈ timers b ->
      callback_waiter t ∈ waiters b /\ handle t = wid (callback_waiter t) /\ now b < due t;
  wf_timer_nodup : NoDup (handle <$> timers b);
  wf_settled : forall id s, (id, s) ∈ settled b ->
      (id < nextId b)%nat /\ id ∉ wid <$> waiters b;
  wf_once : NoDup (fst <$> settled b)
}.

Lemma wid_inj (l : list EventWaiter) (w w' : EventWaiter) :
  NoDup (wid <$> l) -> w ∈ l -> w' ∈ l -> wid w = wid w' -> w = w'.
Proof.
  induction l as [| x l IH]; simpl; intros Hnd Hw Hw' Heq.
  - inversion Hw.
  - apply NoDup_cons in Hnd as [Hx Hnd].
    apply elem_of_cons in Hw as [-> | Hw]; apply elem_of_cons in Hw' as [-> | Hw'].
    + reflexivity.
    + exfalso. apply Hx. rewrite Heq. apply list_elem_of_fmap. eauto.
    + exfalso. apply Hx. rewrite <- Heq. apply list_elem_of_fmap. eauto.
    + auto.
Qed.

(** On distinct waiters, [indexOf] followed by [splice] removes exactly
    the waiter looked for. *)
Lemma splice_indexOf (w : EventWaiter) (l : list EventWaiter) :
  NoDup (wid <$> l) ->
  match indexOf w l with
  | Some index => delete index l
  | None => l
  end = filter (fun x => wid x <> wid w) l.
Proof.
  induction l as [| x l IH]; simpl; intros Hnd; [reflexivity |].
  apply NoDup_cons in Hnd as [Hx Hnd]. specialize (IH Hnd).
  rewrite filter_cons.
  destruct (decide (wid x = wid w)) as [Heq | Hne].
  - destruct (decide (wid x <> wid w)); [contradiction |]. simpl.
    symmetry. apply filter_all.
    intros y Hy Hyw. apply Hx. rewrite Heq, <- Hyw.
    apply list_elem_of_fmap. eauto.
  - destruct (decide (wid x <> wid w)); [| contradiction].
    destruct (indexOf w l) as [i |]; simpl; f_equal; exact IH.
Qed.

Lemma removeWaiter_spec (w : EventWaiter) (b : Bus) :
  NoDup (wid <$> waiters b) ->
  removeWaiter w b =
  mkBus (filter (fun x => wid x <> wid w) (waiters b))
    (clearTimeout (timeout w) (timers b)) (nextId b) (now b) (settled b).
Proof. intros Hnd. unfold removeWaiter. by rewrite splice_indexOf. Qed.

(** The loop of [emit] over any list [ms] of waiters. *)
Lemma emit_loop_spec (event : JsValue) (ms : list EventWaiter) (b : Bus) :
  NoDup (wid <$> waiters b) ->
  foldl (fun acc w => settle w (ResolvedWith event) (removeWaiter w acc)) b ms =
  mkBus (filter (fun w => wid w ∉ wid <$> ms) (waiters b))
    (filter (fun t => handle t ∉ timeout <$> ms) (timers b))
    (nextId b) (now b)
    (reverse ((fun w => (wid w, ResolvedWith event)) <$> ms) ++ settled b).
Proof.
  revert b. induction ms as [| m ms IH]; intros b Hnd; simpl.
  - destruct b as [ws ts n t st]; simpl. f_equal.
    + symmetry. apply filter_all. intros x _. apply not_elem_of_nil.
    + symmetry. apply filter_all. intros x _. apply not_elem_of_nil.
  - rewrite removeWaiter_spec by done. unfold settle; simpl.
    rewrite IH; simpl; [| by apply NoDup_fmap_filter].
    unfold clearTimeout. rewrite !list_filter_filter. f_equal.
    + apply list_filter_iff. intros x. rewrite not_elem_of_cons. tauto.
    + apply list_filter_iff. intros x. rewrite not_elem_of_cons. tauto.
    + rewrite reverse_cons, <- app_assoc. reflexivity.
Qed.

(** [emit] removes exactly the waiters registered for the emitted name,
    cancels exactly their timers and resolves each of them with the
    event. *)
Lemma emit_spec (evType : string) (event : JsValue) (b : Bus) :
  wf b ->
  emit evType event b =
  mkBus (filter (fun w => eventType w <> evType) (waiters b))
    (filter (fun t => eventType (callback_waiter t) <> evType) (timers b))
    (nextId b) (now b)
    (reverse ((fun w => (wid w, ResolvedWith event)) <$>
                filter (fun w => eventType w = evType) (waiters b)) ++ settled b).
Proof.
  intros Hwf. unfold emit. rewrite emit_loop_spec by apply Hwf. f_equal.
  - apply filter_ext_in. intros w Hw. split.
    + intros Hnot Heq. apply Hnot. apply list_elem_of_fmap. exists w.
      split; [done |]. apply list_elem_of_filter. done.
    + intros Hne Hin. apply list_elem_of_fmap in Hin as (w' & Hid & Hw').
      apply list_elem_of_filter in Hw' as [Hev Hw'].
      assert (w = w') by (eapply wid_inj; eauto; apply Hwf). congruence.
  - apply filter_ext_in. intros t Ht.
    destruct (wf_timer b Hwf t Ht) as (Hcw & Hh & _). split.
    + intros Hnot Heq. apply Hnot. apply list_elem_of_fmap.
      exists (callback_waiter t). split.
      * rewrite Hh. symmetry. apply (wf_waiter b Hwf). done.
      * apply list_elem_of_filter. done.
    + intros Hne Hin. apply list_elem_of_fmap in Hin as (w' & Hid & Hw').
      apply list_elem_of_filter in Hw' as [Hev Hw'].
      assert (callback_waiter t = w').
      { eapply wid_inj; eauto; [apply Hwf |].
        rewrite <- Hh, Hid. apply (wf_waiter b Hwf). done. }
      congruence.
Qed.

(** The timeout callback of a pending timer removes its waiter, and
    rejects it with a timeout error. *)
Lemma fire_spec (t : Timer) (b : Bus) :
  wf b -> t ∈ timers b ->
  fire t b =
  mkBus (filter (fun x => wid x <> wid (callback_waiter t)) (waiters b))
    (filter (fun x => handle x <> handle t) (timers b))
    (nextId b) (now b)
    ((wid (callback_waiter t),
      RejectedTimeout (eventType (callback_waiter t)) (callback_timeoutMs t))
       :: settled b).
Proof.
  intros Hwf Ht. unfold fire, on_timeout.
  rewrite removeWaiter_spec by apply Hwf. unfold settle; simpl. f_equal.
  destruct (wf_timer b Hwf t Ht) as (Hcw & Hh & _).
  destruct (wf_waiter b Hwf _ Hcw) as [_ Hto].
  unfold clearTimeout. rewrite list_filter_filter.
  apply list_filter_iff. intros x. rewrite Hto, <- Hh. tauto.
Qed.

Lemma clear_loop_spec (ms : list EventWaiter) (b : Bus) :
  foldl (fun acc w =>
           settle w RejectedCleared
             (mkBus (waiters acc) (clearTimeout (timeout w) (timers acc))
                (nextId acc) (now acc) (settled acc))) b ms =
  mkBus (waiters b)
    (filter (fun t => handle t ∉ timeout <$> ms) (timers b))
    (nextId b) (now b)
    (reverse ((fun w => (wid w, RejectedCleared)) <$> ms) ++ settled b).
Proof.
  revert b. induction ms as [| m ms IH]; intros b; simpl.
  - destruct b as [ws ts n t st]; simpl. f_equal.
    symmetry. apply filter_all. intros x _. apply not_elem_of_nil.
  - rewrite IH; unfold settle; simpl.
    unfold clearTimeout. rewrite !list_filter_filter. f_equal.
    + apply list_filter_iff. intros x. rewrite not_elem_of_cons. tauto.
    + rewrite reverse_cons, <- app_assoc. reflexivity.
Qed.

(** [clear] rejects every registered waiter, and leaves neither a waiter
    nor a timer. *)
Lemma clear_spec (b : Bus) :
  wf b ->
  clear b =
  mkBus [] [] (nextId b) (now b)
    (reverse ((fun w => (wid w, RejectedCleared)) <$> waiters b) ++ settled b).
Proof.
  intros Hwf. unfold clear. rewrite clear_loop_spec; simpl. f_equal.
  apply filter_none. intros t Ht Hnot. apply Hnot.
  destruct (wf_timer b Hwf t Ht) as (Hcw & Hh & _).
  apply list_elem_of_fmap. exists (callback_waiter t). split; [| done].
  rewrite Hh. symmetry. apply (wf_waiter b Hwf). done.
Qed.

(** ** The operations keep a bus well formed *)

Lemma wf_empty : wf empty.
Proof.
  constructor; simpl; try constructor; intros; exfalso; eapply not_elem_of_nil; eauto.
Qed.

Lemma wf_waitFor (evType : string) (options : WaitOptions) (b : Bus) :
  wf b -> wf (snd (waitFor evType options b)).
Proof.
  intros Hwf. unfold waitFor; simpl. constructor; simpl.
  - rewrite fmap_app. apply NoDup_app. split; [apply Hwf |]. split.
    + intros id Hid Hin. apply list_elem_of_fmap in Hid as (w & -> & Hw).
      apply list_elem_of_singleton in Hin.
      pose proof (wf_waiter b Hwf w Hw) as [Hlt _]. simpl in Hin. lia.
    + apply NoDup_singleton.
  - intros w Hw. apply elem_of_app in Hw as [Hw | Hw].
    + destruct (wf_waiter b Hwf w Hw). split; [lia | done].
    + apply list_elem_of_singleton in Hw as ->. simpl. split; [lia | done].
  - intros t Ht. apply elem_of_app in Ht as [Ht | Ht].
    + destruct (wf_timer b Hwf t Ht) as (Hcw & Hh & Hd).
      split; [| done]. apply elem_of_app. by left.
    + apply list_elem_of_singleton in Ht as ->. simpl. split; [| split; [done |]].
      * apply elem_of_app. right. by apply list_elem_of_singleton.
      * unfold setTimeout_delay. case_decide; lia.
  - rewrite fmap_app. apply NoDup_app. split; [apply Hwf |]. split.
    + intros h Hh Hin. apply list_elem_of_fmap in Hh as (t & -> & Ht).
      apply list_elem_of_singleton in Hin. simpl in Hin.
      destruct (wf_timer b Hwf t Ht) as (Hcw & Hh & _).
      pose proof (wf_waiter b Hwf _ Hcw) as [Hlt _]. lia.
    + apply NoDup_singleton.
  - intros id s Hs. destruct (wf_settled b Hwf id s Hs) as [Hlt Hnot].
    split; [lia |]. rewrite fmap_app, not_elem_of_app. split; [done |].
    simpl. rewrite list_elem_of_singleton. lia.
  - apply Hwf.
Qed.

(** Removing a family of registered waiters and logging one settlement
    for each of them keeps the bus well formed. *)
Lemma wf_settle_family (b : Bus) (P : EventWaiter -> Prop)
    `{!forall w, Decision (P w)} (ts : list Timer) (s : EventWaiter -> Settlement) :
  wf b ->
  (forall t, t ∈ ts -> t ∈ timers b /\ ~ P (callback_waiter t)) ->
  NoDup (handle <$> ts) ->
  wf (mkBus (filter (fun w => ~ P w) (waiters b)) ts (nextId b) (now b)
        (reverse ((fun w => (wid w, s w)) <$> filter P (waiters b)) ++ settled b)).
Proof.
  intros Hwf Hts Hnd. constructor; simpl.
  - apply NoDup_fmap_filter, Hwf.
  - intros w Hw. apply list_elem_of_filter in Hw as [_ Hw]. by apply Hwf.
  - intros t Ht. destruct (Hts t Ht) as [Hin HnP].
    destruct (wf_timer b Hwf t Hin) as (Hcw & Hh & Hd).
    split; [| done]. apply list_elem_of_filter. done.
  - done.
  - intros id st Hin. apply elem_of_app in Hin as [Hin | Hin].
    + apply elem_of_reverse, list_elem_of_fmap in Hin as (w & Heq & Hw).
      injection Heq as -> ->.
      apply list_elem_of_filter in Hw as [HP Hw]. split; [by apply Hwf |].
      intros Hin. apply list_elem_of_fmap in Hin as (w' & Hid & Hw').
      apply list_elem_of_filter in Hw' as [HnP Hw'].
      assert (w = w') by (eapply wid_inj; eauto; apply Hwf). congruence.
    + destruct (wf_settled b Hwf id st Hin) as [Hlt Hnot]. split; [done |].
      intros Hin'. apply Hnot. apply list_elem_of_fmap in Hin' as (w' & Hid & Hw').
      apply list_elem_of_filter in Hw' as [_ Hw'].
      apply list_elem_of_fmap. eauto.
  - rewrite fmap_app, fmap_reverse, <- list_fmap_compose. apply NoDup_app.
    split; [| split; [| apply Hwf]].
    + rewrite reverse_Permutation. apply (NoDup_fmap_filter wid P), Hwf.
    + intros id Hid Hin. apply elem_of_reverse, list_elem_of_fmap in Hid as (w & -> & Hw).
      apply list_elem_of_filter in Hw as [_ Hw]. simpl in Hin.
      apply list_elem_of_fmap in Hin as ([id' st] & Hid & Hst). simpl in Hid. subst id'.
      destruct (wf_settled b Hwf _ _ Hst) as [_ Hnot]. apply Hnot.
      apply list_elem_of_fmap. eauto.
Qed.

Lemma wf_emit (evType : string) (event : JsValue) (b : Bus) :
  wf b -> wf (emit evType event b).
Proof.
  intros Hwf. rewrite emit_spec by done.
  apply (wf_settle_family b (fun w => eventType w = evType) _
           (fun _ => ResolvedWith event) Hwf).
  - intros t Ht. apply list_elem_of_filter in Ht. tauto.
  - apply NoDup_fmap_filter, Hwf.
Qed.

Lemma wf_clear (b : Bus) : wf b -> wf (clear b).
Proof.
  intros Hwf. rewrite clear_spec by done.
  pose proof (wf_settle_family b (fun _ => True) [] (fun _ => RejectedCleared) Hwf) as H.
  rewrite (filter_all (fun _ => True)) in H by done.
  rewrite (filter_none (fun _ => ~ True)) in H by tauto.
  apply H; [| constructor]. intros t Ht. by apply not_elem_of_nil in Ht.
Qed.

Lemma wf_fire (t : Timer) (b : Bus) : wf b -> t ∈ timers b -> wf (fire t b).
Proof.
  intros Hwf Ht. rewrite fire_spec by done.
  destruct (wf_timer b Hwf t Ht) as (Hcw & Hh & _).
  pose proof (wf_settle_family b (fun w => wid w = wid (callback_waiter t))
    (filter (fun x => handle x <> handle t) (timers b))
    (fun w => RejectedTimeout (eventType w) (callback_timeoutMs t)) Hwf) as H.
  assert (Hf : filter (fun w => wid w = wid (callback_waiter t)) (waiters b)
               = [callback_waiter t]).
  { clear H. pose proof (wf_nodup b Hwf) as Hnd. revert Hcw Hnd.
    generalize (callback_waiter t) as c. generalize (waiters b) as l.
    induction l as [| x l IH]; intros c Hc Hnd; [by apply not_elem_of_nil in Hc |].
    simpl in Hnd. apply NoDup_cons in Hnd as [Hx Hnd].
    apply elem_of_cons in Hc as [<- | Hc].
    - rewrite filter_cons_True by done. f_equal.
      apply filter_none. intros y Hy Heq. apply Hx. rewrite <- Heq.
      apply list_elem_of_fmap. eauto.
    - rewrite filter_cons_False; [by apply IH |].
      intros Heq. apply Hx. rewrite Heq. apply list_elem_of_fmap. eauto. }
  rewrite Hf in H. simpl in H. apply H.
  - intros x Hx. apply list_elem_of_filter in Hx as [Hne Hx]. split; [done |].
    intros Heq. apply Hne.
    destruct (wf_timer b Hwf x Hx) as (_ & Hhx & _). congruence.
  - apply NoDup_fmap_filter, Hwf.
Qed.

(** ** The timers that fall due *)

Lemma next_due_Some (limit : Z) (ts : list Timer) (t : Timer) :
  next_due limit ts = Some t -> t ∈ ts /\ due t <= limit.
Proof.
  revert t. induction ts as [| x ts IH]; simpl; intros t Ht; [discriminate |].
  destruct (next_due limit ts) as [t' |].
  - destruct (IH t' eq_refl) as [Hin Hle].
    case_decide; inversion Ht; subst.
    + split; [left | tauto].
    + split; [by right | done].
  - case_decide; inversion Ht; subst. split; [left | done].
Qed.

Lemma next_due_None (limit : Z) (ts : list Timer) :
  next_due limit ts = None -> forall t, t ∈ ts -> limit < due t.
Proof.
  induction ts as [| x ts IH]; simpl; intros Hn t Ht.
  - by apply not_elem_of_nil in Ht.
  - destruct (next_due limit ts) as [t' |]; [case_decide; discriminate |].
    case_decide; [discriminate |].
    apply elem_of_cons in Ht as [-> | Ht]; [lia | by apply IH].
Qed.

Lemma wf_run_due (fuel : nat) (limit : Z) (b : Bus) :
  wf b -> wf (run_due fuel limit b).
Proof.
  revert b. induction fuel as [| fuel IH]; intros b Hwf; simpl; [done |].
  destruct (next_due limit (timers b)) as [t |] eqn:Hn; [| done].
  apply IH, wf_fire; [done |]. by apply next_due_Some in Hn as [? _].
Qed.

Lemma run_due_clock (fuel : nat) (limit : Z) (b : Bus) :
  wf b -> now (run_due fuel limit b) = now b.
Proof.
  revert b. induction fuel as [| fuel IH]; intros b Hwf; simpl; [done |].
  destruct (next_due limit (timers b)) as [t |] eqn:Hn; [| done].
  apply next_due_Some in Hn as [Ht _].
  rewrite IH by (by apply wf_fire). by rewrite fire_spec.
Qed.

(** With one round per pending timer, no timer that is due is left. *)
Lemma run_due_exhausts (fuel : nat) (limit : Z) (b : Bus) :
  wf b -> (length (timers b) <= fuel)%nat ->
  forall t, t ∈ timers (run_due fuel limit b) -> limit < due t.
Proof.
  revert b. induction fuel as [| fuel IH]; intros b Hwf Hlen; simpl.
  - destruct (timers b); simpl in Hlen; [| lia].
    intros t Ht. by apply not_elem_of_nil in Ht.
  - destruct (next_due limit (timers b)) as [t |] eqn:Hn.
    + apply next_due_Some in Hn as [Ht _].
      apply IH; [by apply wf_fire |].
      rewrite fire_spec by done; simpl.
      pose proof (length_filter_lt (fun x => handle x <> handle t) (timers b) t Ht) as Hlt.
      assert (length (filter (fun x => handle x <> handle t) (timers b)) < length (timers b))%nat
        by (apply Hlt; tauto).
      lia.
    + by apply next_due_None.
Qed.

Lemma wf_advance (dt : Z) (b : Bus) : wf b -> wf (advance dt b).
Proof.
  intros Hwf. unfold advance.
  pose proof (wf_run_due (length (timers b)) (now b + dt) b Hwf) as Hr.
  pose proof (run_due_exhausts (length (timers b)) (now b + dt) b Hwf (le_n _)) as Hex.
  destruct Hr as [H1 H2 H3 H4 H5 H6]. constructor; simpl; try done.
  intros t Ht. destruct (H3 t Ht) as (? & ? & _). auto.
Qed.

Lemma wf_step (b : Bus) (op : Op) : wf b -> wf (step b op).
Proof.
  intros Hwf. destruct op; simpl.
  - by apply wf_waitFor.
  - by apply wf_emit.
  - by apply wf_clear.
  - by apply wf_advance.
Qed.

Lemma wf_run (ops : list Op) (b : Bus) : wf b -> wf (run ops b).
Proof.
  revert b. induction ops as [| op ops IH]; intros b Hwf; simpl; [done |].
  apply IH, wf_step, Hwf.
Qed.

(** ** Following one waiter *)

(** [w] is registered, its timer [t] is pending, and neither [resolve]
    nor [reject] of [w] has been called. *)
Definition waiting (w : EventWaiter) (t : Timer) (b : Bus) : Prop :=
  w ∈ waiters b /\ t ∈ timers b /\ callback_waiter t = w /\
  wid w ∉ fst <$> settled b.

(** [w] is no longer registered and was settled once, as [s]. *)
Definition gone (w : EventWaiter) (s : Settlement) (b : Bus) : Prop :=
  (wid w < nextId b)%nat /\ (wid w ∉ wid <$> waiters b) /\
  settlements_of (wid w) b = [s].

(** What one operation may do to the bus: it only settles waiters that
    were registered before it, and only registers new ones. *)
Definition frame (b b' : Bus) : Prop :=
  (nextId b <= nextId b')%nat /\
  (forall id, id ∈ wid <$> waiters b' ->
     id ∈ wid <$> waiters b \/ (nextId b <= id)%nat) /\
  exists new, settled b' = new ++ settled b /\
    forall id, id ∈ fst <$> new -> id ∈ wid <$> waiters b.

Lemma log_fresh (id : nat) (l : list (nat * Settlement)) :
  id ∉ fst <$> l -> filter (fun p => fst p = id) l = [].
Proof.
  intros Hnot. apply filter_none. intros p Hp Heq. apply Hnot.
  apply list_elem_of_fmap. eauto.
Qed.

Lemma gone_frame (w : EventWaiter) (s : Settlement) (b b' : Bus) :
  frame b b' -> gone w s b -> gone w s b'.
Proof.
  intros (Hn & Hw & new & Hnew & Hids) (Hlt & Hnot & Hlog). split; [lia |]. split.
  - intros Hin. destruct (Hw _ Hin); [contradiction | lia].
  - unfold settlements_of in *. rewrite Hnew, filter_app, fmap_app.
    rewrite log_fresh; [done |]. intros Hin. apply Hnot, Hids, Hin.
Qed.

Lemma frame_waitFor (evType : string) (options : WaitOptions) (b : Bus) :
  frame b (snd (waitFor evType options b)).
Proof.
  unfold waitFor; simpl. split; [simpl; lia |]. split.
  - simpl. intros id. rewrite fmap_app, elem_of_app. simpl.
    rewrite list_elem_of_singleton. intros [H | ->]; [by left | right; lia].
  - exists []. simpl. split; [done |]. intros id Hid. by apply not_elem_of_nil in Hid.
Qed.

Lemma frame_family (b : Bus) (P : EventWaiter -> Prop)
    `{!forall w, Decision (P w)} (ts : list Timer) (s : EventWaiter -> Settlement) :
  frame b (mkBus (filter (fun w => ~ P w) (waiters b)) ts (nextId b) (now b)
        (reverse ((fun w => (wid w, s w)) <$> filter P (waiters b)) ++ settled b)).
Proof.
  split; [simpl; lia |]. split; simpl.
  - intros id Hid. left. apply list_elem_of_fmap in Hid as (w & -> & Hw).
    apply list_elem_of_filter in Hw as [_ Hw]. apply list_elem_of_fmap. eauto.
  - eexists. split; [reflexivity |]. intros id Hid.
    apply list_elem_of_fmap in Hid as ([id' st] & -> & Hin). simpl.
    apply elem_of_reverse, list_elem_of_fmap in Hin as (w & Heq & Hw).
    injection Heq as -> ->. apply list_elem_of_filter in Hw as [_ Hw].
    apply list_elem_of_fmap. eauto.
Qed.

Lemma frame_emit (evType : string) (event : JsValue) (b : Bus) :
  wf b -> frame b (emit evType event b).
Proof.
  intros Hwf. rewrite emit_spec by done.
  apply (frame_family b (fun w => eventType w = evType) _ (fun _ => ResolvedWith event)).
Qed.

Lemma frame_clear (b : Bus) : wf b -> frame b (clear b).
Proof.
  intros Hwf. rewrite clear_spec by done.
  pose proof (frame_family b (fun _ => True) [] (fun _ => RejectedCleared)) as H.
  rewrite (filter_all (fun _ => True)) in H by done.
  by rewrite (filter_none (fun _ => ~ True)) in H by tauto.
Qed.

Lemma frame_fire (t : Timer) (b : Bus) : wf b -> t ∈ timers b -> frame b (fire t b).
Proof.
  intros Hwf Ht. rewrite fire_spec by done.
  destruct (wf_timer b Hwf t Ht) as (Hcw & _).
  split; [simpl; lia |]. split; simpl.
  - intros id Hid. left. apply list_elem_of_fmap in Hid as (w & -> & Hw).
    apply list_elem_of_filter in Hw as [_ Hw]. apply list_elem_of_fmap. eauto.
  - exists [(wid (callback_waiter t),
             RejectedTimeout (eventType (callback_waiter t)) (callback_timeoutMs t))].
    split; [done |]. simpl. intros id Hid. apply list_elem_of_singleton in Hid as ->.
    apply list_elem_of_fmap. eauto.
Qed.

Lemma gone_run_due (w : EventWaiter) (s : Settlement) (fuel : nat) (limit : Z) (b : Bus) :
  wf b -> gone w s b -> gone w s (run_due fuel limit b).
Proof.
  revert b. induction fuel as [| fuel IH]; intros b Hwf Hg; simpl; [done |].
  destruct (next_due limit (timers b)) as [t |] eqn:Hn; [| done].
  apply next_due_Some in Hn as [Ht _].
  apply IH; [by apply wf_fire |]. eapply gone_frame; [| done]. by apply frame_fire.
Qed.

Lemma gone_advance (w : EventWaiter) (s : Settlement) (dt : Z) (b : Bus) :
  wf b -> gone w s b -> gone w s (advance dt b).
Proof.
  intros Hwf Hg.
  apply (gone_run_due w s (length (timers b)) (now b + dt) b Hwf) in Hg.
  exact Hg.
Qed.

Lemma gone_step (w : EventWaiter) (s : Settlement) (b : Bus) (op : Op) :
  wf b -> gone w s b -> gone w s (step b op).
Proof.
  intros Hwf Hg. destruct op; simpl.
  - eapply gone_frame; [apply frame_waitFor | done].
  - eapply gone_frame; [by apply frame_emit | done].
  - eapply gone_frame; [by apply frame_clear | done].
  - by apply gone_advance.
Qed.

(** Once settled, a waiter is never settled again, whatever happens to
    the bus afterwards. *)
Lemma gone_run (w : EventWaiter) (s : Settlement) (ops : list Op) (b : Bus) :
  wf b -> gone w s b -> gone w s (run ops b).
Proof.
  revert b. induction ops as [| op ops IH]; intros b Hwf Hg; simpl; [done |].
  apply IH; [by apply wf_step | by apply gone_step].
Qed.

Lemma waiting_waitFor (w : EventWaiter) (t : Timer) (evType : string)
    (options : WaitOptions) (b : Bus) :
  waiting w t b -> waiting w t (snd (waitFor evType options b)).
Proof.
  intros (Hw & Ht & Hc & Hs). unfold waitFor, waiting; simpl.
  rewrite !elem_of_app. tauto.
Qed.

Lemma waiting_family (w : EventWaiter) (t : Timer) (b : Bus) (P : EventWaiter -> Prop)
    `{!forall x, Decision (P x)} (Q : Timer -> Prop) `{!forall x, Decision (Q x)}
    (s : EventWaiter -> Settlement) :
  wf b -> waiting w t b -> ~ P w -> Q t ->
  waiting w t
    (mkBus (filter (fun x => ~ P x) (waiters b)) (filter Q (timers b)) (nextId b) (now b)
       (reverse ((fun x => (wid x, s x)) <$> filter P (waiters b)) ++ settled b)).
Proof.
  intros Hwf (Hw & Ht & Hc & Hs) HnP HQ. unfold waiting; simpl.
  split; [by apply list_elem_of_filter |]. split; [by apply list_elem_of_filter |].
  split; [done |]. rewrite fmap_app, not_elem_of_app. split; [| done].
  intros Hin. apply list_elem_of_fmap in Hin as ([id st] & Hid & Hin). simpl in Hid. subst id.
  apply elem_of_reverse, list_elem_of_fmap in Hin as (x & Heq & Hx).
  injection Heq as Hid ->. apply list_elem_of_filter in Hx as [HP Hx].
  assert (w = x) by (eapply (NoDup_fmap_inj wid); eauto; apply Hwf). congruence.
Qed.

Lemma waiting_emit (w : EventWaiter) (t : Timer) (evType : string) (event : JsValue)
    (b : Bus) :
  wf b -> eventType w <> evType -> waiting w t b -> waiting w t (emit evType event b).
Proof.
  intros Hwf Hne Hwt. rewrite emit_spec by done.
  apply (waiting_family w t b (fun x => eventType x = evType)
           (fun x => eventType (callback_waiter x) <> evType)
           (fun _ => ResolvedWith event)); try done.
  destruct Hwt as (_ & _ & -> & _). done.
Qed.

Lemma waiting_fire_other (w : EventWaiter) (t t' : Timer) (b : Bus) :
  wf b -> t' ∈ timers b -> t' <> t -> waiting w t b -> waiting w t (fire t' b).
Proof.
  intros Hwf Ht' Hne Hwt. rewrite fire_spec by done.
  pose proof Hwt as (Hw & Ht & Hc & Hs).
  assert (Hh : handle t <> handle t').
  { intros Heq. apply Hne. symmetry.
    eapply (NoDup_fmap_inj handle); eauto. apply Hwf. }
  destruct (wf_timer b Hwf t Ht) as (_ & Hht & _).
  destruct (wf_timer b Hwf t' Ht') as (_ & Hht' & _).
  unfold waiting; simpl.
  split; [apply list_elem_of_filter; split; [congruence | done] |].
  split; [by apply list_elem_of_filter |]. split; [done |].
  rewrite not_elem_of_cons. split; [congruence | done].
Qed.

Lemma fire_own_timer (w : EventWaiter) (t : Timer) (b : Bus) :
  wf b -> waiting w t b ->
  gone w (RejectedTimeout (eventType w) (callback_timeoutMs t)) (fire t b).
Proof.
  intros Hwf (Hw & Ht & Hc & Hs). rewrite fire_spec by done. rewrite Hc.
  unfold gone, settlements_of; simpl.
  split; [by apply Hwf |]. split.
  - intros Hin. apply list_elem_of_fmap in Hin as (x & Hid & Hx).
    apply list_elem_of_filter in Hx as [Hne _]. congruence.
  - rewrite filter_cons_True by done. rewrite log_fresh by done. reflexivity.
Qed.

Lemma waiting_run_due (w : EventWaiter) (t : Timer) (fuel : nat) (limit : Z) (b : Bus) :
  wf b -> waiting w t b ->
  waiting w t (run_due fuel limit b) \/
  gone w (RejectedTimeout (eventType w) (callback_timeoutMs t)) (run_due fuel limit b).
Proof.
  revert b. induction fuel as [| fuel IH]; intros b Hwf Hwt; simpl; [by left |].
  destruct (next_due limit (timers b)) as [t' |] eqn:Hn; [| by left].
  apply next_due_Some in Hn as [Ht' _].
  destruct (decide (t' = t)) as [-> | Hne].
  - right. apply gone_run_due; [by apply wf_fire | by apply fire_own_timer].
  - apply IH; [by apply wf_fire | by apply waiting_fire_other].
Qed.

(** A waiter whose name is not emitted, on a bus that is not cleared,
    stays registered until its timer runs, and is then rejected with the
    timeout error and with nothing else. *)
Lemma waiting_run (w : EventWaiter) (t : Timer) (ops : list Op) (b : Bus) :
  wf b -> waiting w t b ->
  Forall (fun op => op <> OpClear /\ forall x, op <> OpEmit (eventType w) x) ops ->
  waiting w t (run ops b) \/
  gone w (RejectedTimeout (eventType w) (callback_timeoutMs t)) (run ops b).
Proof.
  revert b. induction ops as [| op ops IH]; intros b Hwf Hwt Hops; simpl; [by left |].
  apply Forall_cons in Hops as [[Hnc Hne] Hops].
  assert (Hstep : waiting w t (step b op) \/
                  gone w (RejectedTimeout (eventType w) (callback_timeoutMs t)) (step b op)).
  { destruct op as [ev o | ev x | | dt]; simpl.
    - left. by apply waiting_waitFor.
    - left. apply waiting_emit; [done | | done]. intros <-. by apply (Hne x).
    - done.
    - destruct (waiting_run_due w t (length (timers b)) (now b + dt) b Hwf Hwt) as [H | H].
      + left. exact H.
      + right. exact H. }
  destruct Hstep as [H | H].
  - apply IH; [by apply wf_step | done | done].
  - right. apply gone_run; [by apply wf_step | done].
Qed.

Lemma waiting_after_waitFor (evType : string) (options : WaitOptions) (b : Bus) :
  wf b ->
  waiting (fst (waitFor evType options b))
    (mkTimer (nextId b) (now b + setTimeout_delay (timeoutMs options))
       (fst (waitFor evType options b)) (timeoutMs options))
    (snd (waitFor evType options b)).
Proof.
  intros Hwf. unfold waiting, waitFor; simpl.
  split; [apply elem_of_app; right; by apply list_elem_of_singleton |].
  split; [apply elem_of_app; right; by apply list_elem_of_singleton |].
  split; [done |]. intros Hin.
  apply list_elem_of_fmap in Hin as ([id st] & Hid & Hin). simpl in Hid. subst id.
  destruct (wf_settled b Hwf _ _ Hin). lia.
Qed.

Lemma once_in_log (id : nat) (l : list (nat * Settlement)) :
  NoDup (fst <$> l) -> (length (filter (fun p => fst p = id) l) <= 1)%nat.
Proof.
  induction l as [| [i s] l IH]; simpl; intros Hnd; [lia |].
  apply NoDup_cons in Hnd as [Hi Hnd].
  rewrite filter_cons; simpl. destruct (decide (i = id)) as [-> | Hne]; [| auto].
  rewrite log_fresh by done. simpl. lia.
Qed.

(** ** The properties of the bus *)

(** C4. On every bus reached from the empty one, by any operations:
    - timeout: a [waitFor] whose name is not emitted, on a bus that is
      not cleared, is rejected with the timeout error once the clock
      has reached the timer's due time, with no other settlement, and
      its waiter is no longer registered;
    - emit: [emit(name, body)] removes exactly the waiters registered
      for [name], cancels exactly their timers and resolves each of them
      with [body], leaving the other waiters and timers in place;
    - timer: when a pending timer runs, its waiter is rejected with the
      timeout error and removed, and the timer is gone;
    - one path: no waiter is ever settled more than once. *)
Theorem waiter_settles_on_one_path (ops : list Op) :
  let b := run ops empty in
  (forall evType options later,
     let w := fst (waitFor evType options b) in
     let b' := run later (snd (waitFor evType options b)) in
     Forall (fun op => op <> OpClear /\ forall x, op <> OpEmit evType x) later ->
     now b + setTimeout_delay (timeoutMs options) <= now b' ->
     settlements_of (wid w) b' = [RejectedTimeout evType (timeoutMs options)] /\
     w ∉ waiters b') /\
  (forall evType event,
     waiters (emit evType event b) = filter (fun w => eventType w <> evType) (waiters b) /\
     timers (emit evType event b) =
       filter (fun t => eventType (callback_waiter t) <> evType) (timers b) /\
     settled (emit evType event b) =
       reverse ((fun w => (wid w, ResolvedWith event)) <$>
                  filter (fun w => eventType w = evType) (waiters b)) ++ settled b) /\
  (forall t, t ∈ timers b ->
     settled (fire t b) =
       (wid (callback_waiter t),
        RejectedTimeout (eventType (callback_waiter t)) (callback_timeoutMs t)) :: settled b /\
     (callback_waiter t ∉ waiters (fire t b)) /\
     (t ∉ timers (fire t b))) /\
  (forall id, (length (settlements_of id b) <= 1)%nat).
Proof.
  intros b. assert (Hwf : wf b) by apply wf_run, wf_empty.
  split; [| split; [| split]].
  - intros evType options later w b' Hlater Hclock.
    pose proof (waiting_after_waitFor evType options b Hwf) as Hwt.
    apply (waiting_run _ _ later) in Hwt; [| by apply wf_waitFor | exact Hlater].
    fold w b' in Hwt. simpl in Hwt.
    destruct Hwt as [(_ & Ht & _) | (_ & Hnot & Hlog)].
    + exfalso. assert (Hwf' : wf b') by (apply wf_run; by apply wf_waitFor).
      destruct (wf_timer b' Hwf' _ Ht) as (_ & _ & Hdue). simpl in Hdue. lia.
    + split; [exact Hlog |]. intros Hin. apply Hnot. apply list_elem_of_fmap. eauto.
  - intros evType event. rewrite emit_spec by done. simpl. done.
  - intros t Ht. rewrite fire_spec by done. simpl. split; [done |]. split.
    + intros Hin. apply list_elem_of_filter in Hin as [Hne _]. by apply Hne.
    + intros Hin. apply list_elem_of_filter in Hin as [Hne _]. by apply Hne.
  - intros id. unfold settlements_of. rewrite length_fmap.
    apply once_in_log, Hwf.
Qed.

Lemma waiter_settles_on_one_path_witness :
  settlements_of 0%nat
    (run [OpWaitFor "output" no_options; OpAdvance 50]
       (snd (waitFor "stopped" (with_timeout 50) empty)))
  = [RejectedTimeout "stopped" 50].
Proof.
  refine (proj1 (proj1 (waiter_settles_on_one_path []) "stopped"%string
                   (with_timeout 50) [OpWaitFor "output" no_options; OpAdvance 50] _ _)).
  - repeat constructor; discriminate.
  - vm_compute. discriminate.
Defined.

(** C10. When the [timeout] option is absent, [undefined] or [0], the
    timer of [waitFor] is set to 5000 ms; and whatever the options, the
    timeout is never 0 and the timer never falls due at once. *)
Theorem waitFor_default_timeout (evType : string) (options : WaitOptions) (b : Bus) :
  (opt_timeout options = None \/ opt_timeout options = Some 0 ->
   timeoutMs options = 5000 /\
   timers (snd (waitFor evType options b)) =
     timers b ++ [mkTimer (nextId b) (now b + 5000)
                    (fst (waitFor evType options b)) 5000]) /\
  timeoutMs options <> 0 /\
  (forall t, t ∈ timers (snd (waitFor evType options b)) -> t ∉ timers b ->
     now b < due t).
Proof.
  split; [| split].
  - intros Hopt.
    assert (Hms : timeoutMs options = 5000).
    { unfold timeoutMs. destruct Hopt as [-> | ->]; [done |]. by rewrite decide_True. }
    split; [done |]. unfold waitFor; simpl. rewrite Hms. reflexivity.
  - unfold timeoutMs. destruct (opt_timeout options) as [t |]; [| lia].
    case_decide; lia.
  - unfold waitFor; simpl. intros t Ht Hnot.
    apply elem_of_app in Ht as [Ht | Ht]; [contradiction |].
    apply list_elem_of_singleton in Ht as ->. simpl.
    unfold setTimeout_delay. case_decide; lia.
Qed.

Lemma waitFor_default_timeout_witness :
  timeoutMs (with_timeout 0) = 5000 /\
  timers (snd (waitFor "stopped" (with_timeout 0) empty)) =
    [mkTimer 0 5000 (mkWaiter 0 "stopped" 0) 5000].
Proof.
  apply (proj1 (waitFor_default_timeout "stopped" (with_timeout 0) empty)).
  right. reflexivity.
Defined.

(** ** No waiter is left behind *)

(** Every registered waiter has its timer pending, and every waiter ever
    handed out is either still registered or settled. *)
Record live (b : Bus) : Prop := mkLive {
  live_timer : forall w, w ∈ waiters b ->
      exists t, t ∈ timers b /\ callback_waiter t = w;
  live_accounted : forall id, (id < nextId b)%nat ->
      id ∈ wid <$> waiters b \/ id ∈ fst <$> settled b
}.

Lemma live_empty : live empty.
Proof.
  constructor; simpl.
  - intros w Hw. by apply not_elem_of_nil in Hw.
  - intros id Hid. lia.
Qed.

Lemma live_waitFor (evType : string) (options : WaitOptions) (b : Bus) :
  live b -> live (snd (waitFor evType options b)).
Proof.
  intros [Ht Ha]. constructor; simpl.
  - intros w Hw. apply elem_of_app in Hw as [Hw | Hw].
    + destruct (Ht w Hw) as (t & Hin & Hcb). exists t. split; [| done].
      apply elem_of_app. by left.
    + apply list_elem_of_singleton in Hw as ->. eexists. split.
      * apply elem_of_app. right. by apply list_elem_of_singleton.
      * reflexivity.
  - intros id Hid. rewrite fmap_app, elem_of_app. simpl.
    destruct (decide (id = nextId b)) as [-> | Hne].
    + left. right. by apply list_elem_of_singleton.
    + destruct (Ha id) as [H | H]; [lia | by left; left | by right].
Qed.

Lemma elem_of_family_log (id : nat) (P : EventWaiter -> Prop)
    `{!forall w, Decision (P w)} (s : EventWaiter -> Settlement)
    (ws : list EventWaiter) (old : list (nat * Settlement)) :
  id ∈ fst <$> (reverse ((fun w => (wid w, s w)) <$> filter P ws) ++ old) <->
  (exists w, w ∈ ws /\ P w /\ wid w = id) \/ id ∈ fst <$> old.
Proof.
  rewrite fmap_app, elem_of_app, fmap_reverse, elem_of_reverse, <- list_fmap_compose.
  rewrite list_elem_of_fmap. split.
  - intros [(w & -> & Hw) | Hold]; [| by right].
    apply list_elem_of_filter in Hw as [Hp Hw]. left. eauto.
  - intros [(w & Hw & Hp & <-) | Hold]; [| by right].
    left. exists w. split; [done |]. by apply list_elem_of_filter.
Qed.

Lemma live_emit (evType : string) (event : JsValue) (b : Bus) :
  wf b -> live b -> live (emit evType event b).
Proof.
  intros Hwf [Ht Ha]. rewrite emit_spec by done. constructor; simpl.
  - intros w Hw. apply list_elem_of_filter in Hw as [Hne Hw].
    destruct (Ht w Hw) as (t & Hin & Hcb). exists t. split; [| done].
    apply list_elem_of_filter. by rewrite Hcb.
  - intros id Hid.
    rewrite (elem_of_family_log id (fun w => eventType w = evType)).
    destruct (Ha id Hid) as [H | H]; [| by right; right].
    apply list_elem_of_fmap in H as (w & -> & Hw).
    destruct (decide (eventType w = evType)) as [He | He].
    + right. left. eauto.
    + left. apply list_elem_of_fmap. exists w. split; [done |].
      by apply list_elem_of_filter.
Qed.

Lemma live_clear (b : Bus) : wf b -> live b -> live (clear b).
Proof.
  intros Hwf [Ht Ha]. rewrite clear_spec by done. constructor; simpl.
  - intros w Hw. by apply not_elem_of_nil in Hw.
  - intros id Hid. right.
    rewrite fmap_app, elem_of_app, fmap_reverse, elem_of_reverse, <- list_fmap_compose.
    destruct (Ha id Hid) as [H | H]; [by left | by right].
Qed.

Lemma live_fire (t : Timer) (b : Bus) : wf b -> t ∈ timers b -> live b -> live (fire t b).
Proof.
  intros Hwf Hin [Ht Ha]. rewrite fire_spec by done. constructor; simpl.
  - intros w Hw. apply list_elem_of_filter in Hw as [Hne Hw].
    destruct (Ht w Hw) as (t' & Hin' & Hcb). exists t'. split; [| done].
    apply list_elem_of_filter. split; [| done].
    destruct (wf_timer b Hwf t Hin) as (_ & Hh & _).
    destruct (wf_timer b Hwf t' Hin') as (_ & Hh' & _).
    rewrite Hh, Hh', Hcb. done.
  - intros id Hid. destruct (Ha id Hid) as [H | H]; [| right; by right].
    destruct (decide (id = wid (callback_waiter t))) as [-> | Hne]; [right; by left |].
    left. apply list_elem_of_fmap in H as (w & -> & Hw).
    apply list_elem_of_fmap. exists w. split; [done |]. by apply list_elem_of_filter.
Qed.

Lemma live_run_due (fuel : nat) (limit : Z) (b : Bus) :
  wf b -> live b -> live (run_due fuel limit b).
Proof.
  revert b. induction fuel as [| fuel IH]; intros b Hwf Hl; simpl; [done |].
  destruct (next_due limit (timers b)) as [t |] eqn:Hn; [| done].
  apply next_due_Some in Hn as [Ht _].
  apply IH; [by apply wf_fire | by apply live_fire].
Qed.

Lemma live_step (b : Bus) (op : Op) : wf b -> live b -> live (step b op).
Proof.
  intros Hwf Hl. destruct op; simpl.
  - by apply live_waitFor.
  - by apply live_emit.
  - by apply live_clear.
  - destruct (live_run_due (length (timers b)) (now b + dt) b Hwf Hl) as [Ht Ha].
    constructor; done.
Qed.

Lemma live_run (ops : list Op) (b : Bus) : wf b -> live b -> live (run ops b).
Proof.
  revert b. induction ops as [| op ops IH]; intros b Hwf Hl; simpl; [done |].
  apply IH; [by apply wf_step | by apply live_step].
Qed.

(** The timeout callbacks set no timer and register no waiter. *)
Lemma run_due_shrinks (fuel : nat) (limit : Z) (b : Bus) :
  wf b ->
  nextId (run_due fuel limit b) = nextId b /\
  forall t, t ∈ timers (run_due fuel limit b) -> t ∈ timers b.
Proof.
  revert b. induction fuel as [| fuel IH]; intros b Hwf; simpl; [done |].
  destruct (next_due limit (timers b)) as [t |] eqn:Hn; [| done].
  apply next_due_Some in Hn as [Ht _].
  destruct (IH (fire t b) (wf_fire t b Hwf Ht)) as [Hid Hsub].
  pose proof (fire_spec t b Hwf Ht) as Hfire.
  split.
  - rewrite Hid, Hfire. reflexivity.
  - intros t' Ht'. apply Hsub in Ht'. rewrite Hfire in Ht'. simpl in Ht'.
    by apply list_elem_of_filter in Ht' as [_ Ht'].
Qed.

Lemma settled_once (id : nat) (b : Bus) :
  wf b -> id ∈ fst <$> settled b -> length (settlements_of id b) = 1%nat.
Proof.
  intros Hwf Hin. unfold settlements_of. rewrite length_fmap.
  destruct (filter_fst_once id (settled b) (wf_once b Hwf) Hin) as (v & ->). done.
Qed.

(** X12. No promise of [waitFor] stays pending for ever: once the clock
    has passed the due time of every pending timer, no waiter is
    registered, no timer is pending, and each waiter that was ever handed
    out has been settled exactly once. *)
Theorem every_waiter_is_settled (ops : list Op) (dt : Z) :
  let b := run ops empty in
  Forall (fun t => due t <= now b + dt) (timers b) ->
  waiters (advance dt b) = [] /\ timers (advance dt b) = [] /\
  forall id, (id < nextId b)%nat -> length (settlements_of id (advance dt b)) = 1%nat.
Proof.
  intros b Hdue. assert (Hwf : wf b) by apply wf_run, wf_empty.
  assert (Hl : live b) by (apply live_run; [apply wf_empty | apply live_empty]).
  pose proof (wf_advance dt b Hwf) as Hwf'.
  assert (Hl' : live (advance dt b)) by (apply (live_step b (OpAdvance dt)); done).
  destruct (run_due_shrinks (length (timers b)) (now b + dt) b Hwf) as [Hid Hsub].
  assert (Hts : timers (advance dt b) = []).
  { destruct (timers (advance dt b)) as [| t ts] eqn:Heq; [done |]. exfalso.
    assert (Ht : t ∈ timers (run_due (length (timers b)) (now b + dt) b))
      by (change (t ∈ timers (advance dt b)); rewrite Heq; left).
    pose proof (run_due_exhausts _ (now b + dt) b Hwf (le_n _) t Ht) as Hlate.
    apply Hsub in Ht. rewrite Forall_forall in Hdue. apply Hdue in Ht. lia. }
  assert (Hws : waiters (advance dt b) = []).
  { destruct (waiters (advance dt b)) as [| w ws] eqn:Heq; [done |]. exfalso.
    destruct (live_timer _ Hl' w) as (t & Ht & _); [rewrite Heq; left |].
    rewrite Hts in Ht. by apply not_elem_of_nil in Ht. }
  split; [done |]. split; [done |]. intros id Hlt.
  apply settled_once; [done |].
  destruct (live_accounted _ Hl' id) as [H | H]; [exact (eq_ind_r _ Hlt Hid) | | done].
  rewrite Hws in H. by apply not_elem_of_nil in H.
Qed.

Lemma every_waiter_is_settled_witness :
  length (settlements_of 1%nat
            (advance 5000 (run [OpWaitFor "stopped" (with_timeout 50);
                                OpWaitFor "output" no_options;
                                OpEmit "stopped" JsNull] empty))) = 1%nat.
Proof.
  refine (proj2 (proj2 (every_waiter_is_settled
                          [OpWaitFor "stopped" (with_timeout 50);
                           OpWaitFor "output" no_options;
                           OpEmit "stopped" JsNull] 5000 _)) 1%nat _).
  - vm_compute. repeat constructor. discriminate.
  - vm_compute. lia.
Defined.

(** A registered waiter is rejected by [clear], once. *)
Lemma clear_gone (w : EventWaiter) (b : Bus) :
  wf b -> w ∈ waiters b -> gone w RejectedCleared (clear b).
Proof.
  intros Hwf Hw. pose proof (wf_clear b Hwf) as Hwf'.
  destruct (wf_waiter b Hwf w Hw) as [Hlt _].
  split; [by rewrite clear_spec by done |]. split.
  - rewrite clear_spec by done. simpl. apply not_elem_of_nil.
  - assert (Hin : wid w ∈ fst <$> settled (clear b)).
    { rewrite clear_spec by done. simpl.
      rewrite fmap_app, elem_of_app, fmap_reverse, elem_of_reverse,
        <- list_fmap_compose. left. apply list_elem_of_fmap. eauto. }
    destruct (filter_fst_once _ _ (wf_once _ Hwf') Hin) as (v & Hv).
    unfold settlements_of. rewrite Hv. simpl. f_equal.
    assert (Hmem : (wid w, v) ∈ settled (clear b)).
    { eapply (list_elem_of_filter (fun p => fst p = wid w)).
      rewrite Hv. left. }
    rewrite clear_spec in Hmem by done. simpl in Hmem.
    apply elem_of_app in Hmem as [Hmem | Hmem].
    + apply elem_of_reverse, list_elem_of_fmap in Hmem as (w' & Heq & _).
      by injection Heq as _ ->.
    + exfalso. destruct (wf_settled b Hwf _ _ Hmem) as [_ Hnot].
      apply Hnot. apply list_elem_of_fmap. eauto.
Qed.

(** X13. [clear] leaves no waiter and no timer; every waiter that was
    registered is rejected as cleared and is never settled again,
    whatever happens to the bus later; the settlements of the other
    waiters are as before. *)
Theorem clear_rejects_every_waiter (ops later : list Op) :
  let b := run ops empty in
  waiters (clear b) = [] /\ timers (clear b) = [] /\
  (forall w, w ∈ waiters b ->
     settlements_of (wid w) (run later (clear b)) = [RejectedCleared]) /\
  (forall id, id ∉ wid <$> waiters b ->
     settlements_of id (clear b) = settlements_of id b).
Proof.
  intros b. assert (Hwf : wf b) by apply wf_run, wf_empty.
  pose proof (wf_clear b Hwf) as Hwf'.
  split; [by rewrite clear_spec |]. split; [by rewrite clear_spec |]. split.
  - intros w Hw.
    apply (gone_run w _ later (clear b) Hwf' (clear_gone w b Hwf Hw)).
  - intros id Hid. unfold settlements_of. rewrite clear_spec by done. simpl.
    rewrite filter_app. rewrite (filter_fst_fresh id (reverse _)); [done |].
    rewrite fmap_reverse, elem_of_reverse, <- list_fmap_compose. exact Hid.
Qed.

(** X14. A waiter receives one event only, and an event reaches only the
    waiters registered when it is emitted: a second [emit] of the same
    name changes nothing, and a [waitFor] made after the [emit] is
    registered and not settled. *)
Theorem emit_is_one_shot (ops : list Op) (evType : string) (x y : JsValue) :
  let b := run ops empty in
  emit evType y (emit evType x b) = emit evType x b /\
  (forall w, w ∈ waiters (emit evType x b) -> eventType w <> evType) /\
  (forall options,
     let w := fst (waitFor evType options (emit evType x b)) in
     let b' := snd (waitFor evType options (emit evType x b)) in
     w ∈ waiters b' /\ settlements_of (wid w) b' = []).
Proof.
  intros b. assert (Hwf : wf b) by apply wf_run, wf_empty.
  pose proof (wf_emit evType x b Hwf) as Hwf'.
  assert (Hnone : forall w, w ∈ waiters (emit evType x b) -> eventType w <> evType).
  { intros w Hw. rewrite emit_spec in Hw by done. simpl in Hw.
    by apply list_elem_of_filter in Hw as [Hne _]. }
  split; [| split; [done |]].
  - rewrite (emit_spec evType y) by done.
    rewrite (filter_all (fun w => eventType w <> evType)) by done.
    rewrite (filter_none (fun w => eventType w = evType))
      by (intros w Hw He; by apply (Hnone w)).
    rewrite filter_all; [by destruct (emit evType x b) |].
    intros t Ht. destruct (wf_timer _ Hwf' t Ht) as (Hcw & _). by apply Hnone.
  - intros options w b'.
    destruct (waiting_after_waitFor evType options _ Hwf') as (Hw & _ & _ & Hfresh).
    split; [exact Hw |]. unfold settlements_of.
    by rewrite (filter_fst_fresh _ _ Hfresh).
Qed.

End EventBus.

(* ===================================================================== *)
(** * src/dap/breakpoint-manager.ts *)
(* ===================================================================== *)

Module BreakpointManager.

(** [interface BreakpointInfo] of core/types.ts; [line] is the line the
    caller gave, 1-based. *)
Record BreakpointInfo : Type := mkBreakpointInfo {
  id : string;
  file : string;
  line : Z;
  verified : bool;
  enabled : bool;
  condition : option string;
  hitCondition : option string;
  logMessage : option string
}.

(** An element of the arrays that [getBreakpointsForDap] builds. *)
Record DapBreakpoint : Type := mkDapBreakpoint {
  dap_line : Z;
  dap_condition : option string;
  dap_hitCondition : option string;
  dap_logMessage : option string
}.

(** The two maps of the manager. A [Set<string>] of ids is the list of
    its elements in insertion order. *)
Record Manager : Type := mkManager {
  breakpoints : gmap string BreakpointInfo;
  breakpointsByFile : gmap string (list string)
}.

Definition empty : Manager := mkManager ∅ ∅.

(** [set.add(x)] *)
Definition set_add (x : string) (l : list string) : list string :=
  if decide (x ∈ l) then l else l ++ [x].

(** [set.delete(x)] *)
Definition set_delete (x : string) (l : list string) : list string :=
  filter (fun y => y <> x) l.

Record AddOptions : Type := mkAddOptions {
  o_condition : option string;
  o_hitCondition : option string;
  o_logMessage : option string;
  o_enabled : option bool
}.

Definition no_options : AddOptions := mkAddOptions None None None None.

(** [add(file, line, options)]; [newId] is the value that [uuidv4()]
    gives to this call. *)
Definition add (newId : string) (f : string) (ln : Z) (options : AddOptions)
    (m : Manager) : BreakpointInfo * Manager :=
  let breakpoint :=
    mkBreakpointInfo newId f ln false (default true (o_enabled options))
      (o_condition options) (o_hitCondition options) (o_logMessage options) in
  let fileBreakpoints := default [] (breakpointsByFile m !! f) in
  (breakpoint,
   mkManager (<[newId := breakpoint]> (breakpoints m))
     (<[f := set_add newId fileBreakpoints]> (breakpointsByFile m))).

(** [remove(breakpointId)] *)
Definition remove (breakpointId : string) (m : Manager) : bool * Manager :=
  match breakpoints m !! breakpointId with
  | None => (false, m)
  | Some breakpoint =>
      let byFile :=
        match breakpointsByFile m !! file breakpoint with
        | Some fileBreakpoints =>
            let rest := set_delete breakpointId fileBreakpoints in
            if decide (length rest = 0%nat)
            then delete (file breakpoint) (breakpointsByFile m)
            else <[file breakpoint := rest]> (breakpointsByFile m)
        | None => breakpointsByFile m
        end in
      (true, mkManager (delete breakpointId (breakpoints m)) byFile)
  end.

Definition set_enabled (v : bool) (bp : BreakpointInfo) : BreakpointInfo :=
  mkBreakpointInfo (id bp) (file bp) (line bp) (verified bp) v
    (condition bp) (hitCondition bp) (logMessage bp).

Definition set_verified (v : bool) (bp : BreakpointInfo) : BreakpointInfo :=
  mkBreakpointInfo (id bp) (file bp) (line bp) v (enabled bp)
    (condition bp) (hitCondition bp) (logMessage bp).

(** [enable(breakpointId)] *)
Definition enable (breakpointId : string) (m : Manager) : bool * Manager :=
  match breakpoints m !! breakpointId with
  | Some breakpoint =>
      (true, mkManager (<[breakpointId := set_enabled true breakpoint]> (breakpoints m))
               (breakpointsByFile m))
  | None => (false, m)
  end.

(** [disable(breakpointId)] *)
Definition disable (breakpointId : string) (m : Manager) : bool * Manager :=
  match breakpoints m !! breakpointId with
  | Some breakpoint =>
      (true, mkManager (<[breakpointId := set_enabled false breakpoint]> (breakpoints m))
               (breakpointsByFile m))
  | None => (false, m)
  end.

(** [updateVerification(breakpointId, verified)] *)
Definition updateVerification (breakpointId : string) (v : bool) (m : Manager) : Manager :=
  match breakpoints m !! breakpointId with
  | Some breakpoint =>
      mkManager (<[breakpointId := set_verified v breakpoint]> (breakpoints m))
        (breakpointsByFile m)
  | None => m
  end.

(** [Array.from(ids).map((id) => this.breakpoints.get(id)).filter((bp) => bp !== undefined)] *)
Definition resolve_ids (m : Manager) (ids : list string) : list BreakpointInfo :=
  omap (fun i => breakpoints m !! i) ids.

(** [getByFile(file)] *)
Definition getByFile (f : string) (m : Manager) : list BreakpointInfo :=
  match breakpointsByFile m !! f with
  | None => []
  | Some breakpointIds => resolve_ids m breakpointIds
  end.

(** The object literal built for each enabled breakpoint: [line] is
    [bp.line] itself. *)
Definition to_dap (bp : BreakpointInfo) : DapBreakpoint :=
  mkDapBreakpoint (line bp) (condition bp) (hitCondition bp) (logMessage bp).

(** The body of the loop of [getBreakpointsForDap] for one file: the
    array, and [None] when it is empty and no entry is set. *)
Definition dap_entry (m : Manager) (breakpointIds : list string)
  : option (list DapBreakpoint) :=
  let fileBreakpoints :=
    to_dap <$> filter (fun bp => enabled bp = true) (resolve_ids m breakpointIds) in
  if decide (0 < length fileBreakpoints)%nat then Some fileBreakpoints else None.

(** [getBreakpointsForDap()]: the loop visits each key of
    [breakpointsByFile] once and sets that key in the result. *)
Definition getBreakpointsForDap (m : Manager) : gmap string (list DapBreakpoint) :=
  omap (dap_entry m) (breakpointsByFile m).

(** [count()] *)
Definition count (m : Manager) : nat := size (breakpoints m).

(** The state after three [add]s on one file and a [disable] of the
    second breakpoint. *)
Definition three_on_one_file : Manager :=
  let m1 := snd (add "id-1" "/w/app.py" 5 no_options empty) in
  let m2 := snd (add "id-2" "/w/app.py" 9 no_options m1) in
  let m3 := snd (add "id-3" "/w/app.py" 5 no_options m2) in
  snd (disable "id-2" m3).

Example three_on_one_file_contents :
  (fun bp => (line bp, enabled bp)) <$> getByFile "/w/app.py" three_on_one_file
  = [(5, true); (9, false); (5, true)].
Proof. vm_compute. reflexivity. Qed.

Lemma getBreakpointsForDap_lookup (m : Manager) (f : string) :
  getBreakpointsForDap m !! f =
  let l := to_dap <$> filter (fun bp => enabled bp = true) (getByFile f m) in
  if decide (0 < length l)%nat then Some l else None.
Proof.
  unfold getBreakpointsForDap, getByFile. rewrite lookup_omap.
  destruct (breakpointsByFile m !! f) as [ids |]; reflexivity.
Qed.

(** What the function does, for every manager state and every file:
    the entry of that file in the payload is the list of the file's
    enabled breakpoints, in insertion order, each with its [line] as
    stored and its condition, hitCondition and logMessage; a file with
    no enabled breakpoint has no entry. *)
Theorem sync_payload_keeps_enabled_breakpoints (m : Manager) (f : string) :
  getBreakpointsForDap m !! f =
    (let l := to_dap <$> filter (fun bp => enabled bp = true) (getByFile f m) in
     if decide (0 < length l)%nat then Some l else None) /\
  (forall b1 b2 b3,
     getByFile f m = [b1; b2; b3] ->
     line b1 = 5 /\ enabled b1 = true ->
     line b2 = 9 /\ enabled b2 = false ->
     line b3 = 5 /\ enabled b3 = true ->
     exists e1 e2,
       getBreakpointsForDap m !! f = Some [e1; e2] /\
       e1 = to_dap b1 /\ e2 = to_dap b3 /\ dap_line e1 = 5 /\ dap_line e2 = 5).
Proof.
  split; [apply getBreakpointsForDap_lookup |].
  intros b1 b2 b3 Hfile [Hl1 He1] [Hl2 He2] [Hl3 He3].
  exists (to_dap b1), (to_dap b3).
  rewrite getBreakpointsForDap_lookup, Hfile.
  rewrite filter_cons_True by done.
  rewrite filter_cons_False by (rewrite He2; discriminate).
  rewrite filter_cons_True by done. simpl.
  repeat split; done.
Qed.

Lemma sync_payload_keeps_enabled_breakpoints_witness :
  exists e1 e2,
    getBreakpointsForDap three_on_one_file !! "/w/app.py" = Some [e1; e2] /\
    e1 = to_dap (mkBreakpointInfo "id-1" "/w/app.py" 5 false true None None None) /\
    e2 = to_dap (mkBreakpointInfo "id-3" "/w/app.py" 5 false true None None None) /\
    dap_line e1 = 5 /\ dap_line e2 = 5.
Proof.
  apply (proj2 (sync_payload_keeps_enabled_breakpoints three_on_one_file "/w/app.py")
           _ (mkBreakpointInfo "id-2" "/w/app.py" 9 false false None None None) _).
  - vm_compute. reflexivity.
  - split; reflexivity.
  - split; reflexivity.
  - split; reflexivity.
Defined.

(** C1. On the state with [(5, enabled), (9, disabled), (5, enabled)]
    for one file, the payload has two entries for the file and none for
    the disabled breakpoint, but the two entries carry line 5, the line
    as stored, and not the 0-based line 4 that [toZeroBased] gives and
    that lcp_add_breakpoint sends for the same request. *)
Lemma sync_payload_line_is_not_zero_based :
  (fun bp => (line bp, enabled bp)) <$> getByFile "/w/app.py" three_on_one_file
    = [(5, true); (9, false); (5, true)] /\
  exists l,
    getBreakpointsForDap three_on_one_file !! "/w/app.py" = Some l /\
    dap_line <$> l = [5; 5] /\
    dap_line <$> l <> [Coord.toZeroBased 5; Coord.toZeroBased 5].
Proof.
  split; [vm_compute; reflexivity |].
  eexists. split; [vm_compute; reflexivity |].
  split; [reflexivity |]. vm_compute. discriminate.
Qed.

(** ** The other operations of the manager *)

(** [get(breakpointId)] *)
Definition get (breakpointId : string) (m : Manager) : option BreakpointInfo :=
  breakpoints m !! breakpointId.

(** [removeByFile(file)] *)
Definition removeByFile (f : string) (m : Manager) : nat * Manager :=
  match breakpointsByFile m !! f with
  | None => (0%nat, m)
  | Some breakpointIds =>
      (length breakpointIds,
       mkManager (foldl (fun acc i => delete i acc) (breakpoints m) breakpointIds)
         (delete f (breakpointsByFile m)))
  end.

(** [getAll()]: the values of [breakpoints]. JavaScript lists them in
    insertion order, which the map here does not record; what is stated
    about [getAll] below does not depend on the order. *)
Definition getAll (m : Manager) : list BreakpointInfo :=
  snd <$> map_to_list (breakpoints m).

(** [enableAll()] and [disableAll()] *)
Definition enableAll (m : Manager) : Manager :=
  mkManager (set_enabled true <$> breakpoints m) (breakpointsByFile m).

Definition disableAll (m : Manager) : Manager :=
  mkManager (set_enabled false <$> breakpoints m) (breakpointsByFile m).

(** [clear()] *)
Definition clear (m : Manager) : Manager := mkManager ∅ ∅.

(** [countEnabled()] *)
Definition countEnabled (m : Manager) : nat :=
  length (filter (fun bp => enabled bp = true) (getAll m)).

(** [serialize()] *)
Definition serialize (m : Manager) : list BreakpointInfo := getAll m.

(** The body of the loop of [restore]. *)
Definition restore_one (m : Manager) (bp : BreakpointInfo) : Manager :=
  mkManager (<[id bp := bp]> (breakpoints m))
    (<[file bp := set_add (id bp) (default [] (breakpointsByFile m !! file bp))]>
       (breakpointsByFile m)).

(** [restore(breakpoints)] *)
Definition restore (bps : list BreakpointInfo) (m : Manager) : Manager :=
  foldl restore_one (clear m) bps.

(** ** The two maps agree *)

(** Every breakpoint is stored under its own id and listed under its
    file; every id listed under a file is a breakpoint of that file; no
    id is listed twice and no file is listed with no breakpoint. *)
Record consistent (m : Manager) : Prop := mkConsistent {
  cons_listed : forall i bp, breakpoints m !! i = Some bp ->
      id bp = i /\ exists ids, breakpointsByFile m !! file bp = Some ids /\ i ∈ ids;
  cons_stored : forall f ids, breakpointsByFile m !! f = Some ids ->
      NoDup ids /\ ids <> [] /\
      forall i, i ∈ ids -> exists bp, breakpoints m !! i = Some bp /\ file bp = f
}.

Lemma consistent_empty : consistent empty.
Proof.
  constructor; simpl; intros; exfalso;
    match goal with H : ∅ !! _ = Some _ |- _ => by rewrite lookup_empty in H end.
Qed.

Lemma resolve_ids_ext (m m' : Manager) (ids : list string) :
  (forall i, i ∈ ids -> breakpoints m' !! i = breakpoints m !! i) ->
  resolve_ids m' ids = resolve_ids m ids.
Proof.
  unfold resolve_ids. induction ids as [| i ids IH]; intros Hext; [reflexivity |].
  change (i :: ids) with ([i] ++ ids). rewrite !omap_app. f_equal.
  - simpl. by rewrite Hext by left.
  - apply IH. intros j Hj. apply Hext. by right.
Qed.

(** In a consistent manager, the ids of a file resolve one by one. *)
Lemma resolve_ids_ids (m : Manager) (f : string) (ids : list string) :
  consistent m -> breakpointsByFile m !! f = Some ids ->
  id <$> resolve_ids m ids = ids.
Proof.
  intros Hc Hf. destruct (cons_stored m Hc f ids Hf) as (_ & _ & Hall).
  clear Hf. unfold resolve_ids. induction ids as [| i ids IH]; [reflexivity |].
  change (i :: ids) with ([i] ++ ids). rewrite omap_app, fmap_app. f_equal.
  - destruct (Hall i) as (bp & Hbp & _); [left |].
    simpl. rewrite Hbp. simpl. by destruct (cons_listed m Hc i bp Hbp) as [-> _].
  - apply IH. intros j Hj. apply Hall. by right.
Qed.

Lemma getByFile_ids (m : Manager) (f : string) :
  consistent m ->
  id <$> getByFile f m = default [] (breakpointsByFile m !! f).
Proof.
  intros Hc. unfold getByFile.
  destruct (breakpointsByFile m !! f) as [ids |] eqn:Hf; [| reflexivity].
  simpl. by eapply resolve_ids_ids.
Qed.

Lemma getByFile_file (m : Manager) (f : string) (bp : BreakpointInfo) :
  consistent m -> bp ∈ getByFile f m ->
  file bp = f /\ breakpoints m !! id bp = Some bp.
Proof.
  intros Hc. unfold getByFile.
  destruct (breakpointsByFile m !! f) as [ids |] eqn:Hf; [| by intros ?%not_elem_of_nil].
  unfold resolve_ids. rewrite list_elem_of_omap. intros (i & Hi & Hbp).
  destruct (cons_stored m Hc f ids Hf) as (_ & _ & Hall).
  destruct (Hall i Hi) as (bp' & Hbp' & Hfile).
  assert (bp' = bp) by congruence. subst bp'.
  destruct (cons_listed m Hc i bp Hbp) as [Hid _]. split; [done |]. by rewrite Hid.
Qed.

Lemma elem_of_getByFile (m : Manager) (bp : BreakpointInfo) :
  consistent m -> breakpoints m !! id bp = Some bp -> bp ∈ getByFile (file bp) m.
Proof.
  intros Hc Hbp. destruct (cons_listed m Hc _ _ Hbp) as (_ & ids & Hf & Hin).
  unfold getByFile. rewrite Hf. unfold resolve_ids. apply list_elem_of_omap. eauto.
Qed.

Lemma elem_of_set_add (x y : string) (l : list string) :
  x ∈ set_add y l <-> x = y \/ x ∈ l.
Proof.
  unfold set_add. case_decide as Hy.
  - split; [tauto |]. intros [-> | H]; done.
  - rewrite elem_of_app, list_elem_of_singleton. tauto.
Qed.

Lemma NoDup_set_add (y : string) (l : list string) : NoDup l -> NoDup (set_add y l).
Proof.
  intros Hnd. unfold set_add. case_decide as Hy; [done |].
  apply NoDup_app. split; [done |]. split; [| apply NoDup_singleton].
  intros x Hx Hx'. apply list_elem_of_singleton in Hx'. by subst.
Qed.

Lemma set_add_fresh (y : string) (l : list string) : y ∉ l -> set_add y l = l ++ [y].
Proof. intros Hy. unfold set_add. by rewrite decide_False. Qed.

(** In a consistent manager, the ids listed under a file are stored. *)
Lemma listed_is_stored (m : Manager) (f i : string) :
  consistent m -> i ∈ default [] (breakpointsByFile m !! f) ->
  exists bp, breakpoints m !! i = Some bp /\ file bp = f.
Proof.
  intros Hc Hi. destruct (breakpointsByFile m !! f) as [ids |] eqn:Hf; simpl in Hi.
  - destruct (cons_stored m Hc f ids Hf) as (_ & _ & Hall). by apply Hall.
  - by apply not_elem_of_nil in Hi.
Qed.

(** Storing a breakpoint under an id that is not in use keeps the maps in
    agreement. [add] and the loop of [restore] are both this step. *)
Lemma consistent_restore_one (m : Manager) (bp : BreakpointInfo) :
  consistent m -> breakpoints m !! id bp = None -> consistent (restore_one m bp).
Proof.
  intros Hc Hfresh. constructor; simpl.
  - intros i bp' Hbp'. destruct (decide (id bp = i)) as [<- | Hne].
    + rewrite lookup_insert_eq in Hbp'. injection Hbp' as <-. split; [done |].
      eexists. rewrite lookup_insert_eq. split; [done |].
      apply elem_of_set_add. by left.
    + rewrite lookup_insert_ne in Hbp' by done.
      destruct (cons_listed m Hc i bp' Hbp') as (Hid & ids & Hf & Hin).
      split; [done |]. destruct (decide (file bp = file bp')) as [Heq | Hnf].
      * rewrite Heq, lookup_insert_eq, Hf. simpl. eexists. split; [done |].
        apply elem_of_set_add. by right.
      * rewrite lookup_insert_ne by done. eauto.
  - intros f ids Hf. destruct (decide (file bp = f)) as [<- | Hnf].
    + rewrite lookup_insert_eq in Hf. injection Hf as <-.
      split; [| split].
      * apply NoDup_set_add.
        destruct (breakpointsByFile m !! file bp) as [ids0 |] eqn:Hf0; simpl;
          [| constructor].
        by destruct (cons_stored m Hc _ _ Hf0).
      * intros Hnil. assert (Hin : id bp ∈ set_add (id bp)
                                 (default [] (breakpointsByFile m !! file bp)))
          by (apply elem_of_set_add; by left).
        rewrite Hnil in Hin. by apply not_elem_of_nil in Hin.
      * intros i Hi. apply elem_of_set_add in Hi as [-> | Hi].
        -- exists bp. by rewrite lookup_insert_eq.
        -- destruct (listed_is_stored m _ i Hc Hi) as (bp' & Hbp' & Hfile).
           exists bp'. split; [| done]. rewrite lookup_insert_ne; [done |]. congruence.
    + rewrite lookup_insert_ne in Hf by done.
      destruct (cons_stored m Hc f ids Hf) as (Hnd & Hne & Hall).
      split; [done |]. split; [done |]. intros i Hi.
      destruct (Hall i Hi) as (bp' & Hbp' & Hfile). exists bp'. split; [| done].
      rewrite lookup_insert_ne; [done |]. congruence.
Qed.

(** What [getByFile] gives after that step: the new breakpoint comes
    last under its file, and nothing else changes. *)
Lemma getByFile_restore_one (m : Manager) (bp : BreakpointInfo) (f : string) :
  consistent m -> breakpoints m !! id bp = None ->
  getByFile f (restore_one m bp) =
  if decide (file bp = f) then getByFile f m ++ [bp] else getByFile f m.
Proof.
  intros Hc Hfresh. unfold getByFile at 1. simpl.
  assert (Hold : forall g ids, breakpointsByFile m !! g = Some ids ->
            resolve_ids (restore_one m bp) ids = resolve_ids m ids).
  { intros g ids Hg. apply resolve_ids_ext. intros i Hi. simpl.
    destruct (cons_stored m Hc g ids Hg) as (_ & _ & Hall).
    destruct (Hall i Hi) as (bp' & Hbp' & _).
    rewrite lookup_insert_ne; [done |]. congruence. }
  case_decide as Hf.
  - subst f. rewrite lookup_insert_eq. unfold getByFile.
    assert (Hnew : resolve_ids (restore_one m bp) [id bp] = [bp]).
    { unfold resolve_ids. simpl. by rewrite lookup_insert_eq. }
    destruct (breakpointsByFile m !! file bp) as [ids |] eqn:Hf0.
    + change (default [] (Some ids)) with ids. rewrite set_add_fresh.
      * unfold resolve_ids in *. rewrite omap_app, Hnew. f_equal. by eapply Hold.
      * intros Hin. destruct (cons_stored m Hc _ _ Hf0) as (_ & _ & Hall).
        destruct (Hall _ Hin) as (bp' & Hbp' & _). congruence.
    + change (default [] None) with (@nil string).
      rewrite set_add_fresh by apply not_elem_of_nil. exact Hnew.
  - rewrite lookup_insert_ne by done. unfold getByFile.
    destruct (breakpointsByFile m !! f) as [ids |] eqn:Hf0; [| done]. by eapply Hold.
Qed.

(** Replacing a stored breakpoint by one with the same id and file. *)
Lemma consistent_update (m : Manager) (i : string) (bp bp' : BreakpointInfo) :
  consistent m -> breakpoints m !! i = Some bp ->
  id bp' = id bp -> file bp' = file bp ->
  consistent (mkManager (<[i := bp']> (breakpoints m)) (breakpointsByFile m)).
Proof.
  intros Hc Hbp Hid Hfile.
  destruct (cons_listed m Hc i bp Hbp) as (Hi & ids & Hf & Hin).
  constructor; simpl.
  - intros j b Hb. destruct (decide (i = j)) as [<- | Hne].
    + rewrite lookup_insert_eq in Hb. injection Hb as <-.
      rewrite Hid, Hfile. split; [done |]. eauto.
    + rewrite lookup_insert_ne in Hb by done. by apply Hc.
  - intros f ids' Hf'. destruct (cons_stored m Hc f ids' Hf') as (Hnd & Hne & Hall).
    split; [done |]. split; [done |]. intros j Hj.
    destruct (Hall j Hj) as (b & Hb & Hbf).
    destruct (decide (i = j)) as [<- | Hnj].
    + exists bp'. rewrite lookup_insert_eq. split; [done |]. congruence.
    + exists b. by rewrite lookup_insert_ne.
Qed.

(** Changing every stored breakpoint without touching id and file. *)
Lemma consistent_fmap (g : BreakpointInfo -> BreakpointInfo) (m : Manager) :
  (forall bp, id (g bp) = id bp /\ file (g bp) = file bp) ->
  consistent m ->
  consistent (mkManager (g <$> breakpoints m) (breakpointsByFile m)).
Proof.
  intros Hg Hc. constructor; simpl.
  - intros i b Hb. rewrite lookup_fmap in Hb.
    destruct (breakpoints m !! i) as [bp |] eqn:Hbp; [| done].
    simpl in Hb. injection Hb as <-. destruct (Hg bp) as [-> ->]. by apply Hc.
  - intros f ids Hf. destruct (cons_stored m Hc f ids Hf) as (Hnd & Hne & Hall).
    split; [done |]. split; [done |]. intros j Hj.
    destruct (Hall j Hj) as (b & Hb & Hbf). exists (g b).
    rewrite lookup_fmap, Hb. split; [done |]. destruct (Hg b) as [_ ->]. done.
Qed.

Lemma foldl_delete_lookup (ids : list string) (bm : gmap string BreakpointInfo)
    (j : string) :
  foldl (fun acc i => delete i acc) bm ids !! j =
  if decide (j ∈ ids) then None else bm !! j.
Proof.
  revert bm. induction ids as [| i ids IH]; intros bm; cbn [foldl].
  - by rewrite decide_False by apply not_elem_of_nil.
  - rewrite IH. destruct (decide (j ∈ ids)) as [Hin | Hnin].
    + by rewrite decide_True by (by right).
    + destruct (decide (i = j)) as [-> | Hne].
      * rewrite lookup_delete_eq. by rewrite decide_True by left.
      * rewrite lookup_delete_ne by done. rewrite decide_False; [done |].
        rewrite not_elem_of_cons. split; [congruence | done].
Qed.

Lemma consistent_remove (i : string) (m : Manager) :
  consistent m -> consistent (snd (remove i m)).
Proof.
  intros Hc. unfold remove.
  destruct (breakpoints m !! i) as [bp |] eqn:Hbp; [| done]. simpl.
  destruct (cons_listed m Hc i bp Hbp) as (Hid & ids & Hf & Hin).
  destruct (cons_stored m Hc _ ids Hf) as (Hnd & Hne & Hall).
  rewrite Hf.
  assert (Hother : forall f' ids' j, f' <> file bp ->
            breakpointsByFile m !! f' = Some ids' -> j ∈ ids' -> j <> i).
  { intros f' ids' j Hnf Hf' Hj ->.
    destruct (cons_stored m Hc f' ids' Hf') as (_ & _ & Hall').
    destruct (Hall' i Hj) as (b & Hb & Hbf). congruence. }
  constructor; simpl.
  - intros j b Hb. destruct (decide (i = j)) as [<- | Hnj];
      [by rewrite lookup_delete_eq in Hb |].
    rewrite lookup_delete_ne in Hb by done.
    destruct (cons_listed m Hc j b Hb) as (Hjid & ids' & Hf' & Hj).
    split; [done |]. destruct (decide (file b = file bp)) as [Heq | Hnf].
    + rewrite Heq in *. assert (ids' = ids) by congruence. subst ids'.
      assert (Hjr : j ∈ set_delete i ids)
        by (apply list_elem_of_filter; split; [congruence | done]).
      case_decide as Hlen.
      * destruct (set_delete i ids); [by apply not_elem_of_nil in Hjr | done].
      * rewrite lookup_insert_eq. eauto.
    + case_decide; [rewrite lookup_delete_ne by done | rewrite lookup_insert_ne by done];
        eauto.
  - intros f' ids' Hf'. destruct (decide (file bp = f')) as [<- | Hnf].
    + case_decide as Hlen; [by rewrite lookup_delete_eq in Hf' |].
      rewrite lookup_insert_eq in Hf'. injection Hf' as <-.
      split; [by apply NoDup_filter |]. split.
      * intros Hnil. by rewrite Hnil in Hlen.
      * intros j Hj. apply list_elem_of_filter in Hj as [Hji Hj].
        destruct (Hall j Hj) as (b & Hb & Hbf). exists b.
        by rewrite lookup_delete_ne.
    + assert (Hold : breakpointsByFile m !! f' = Some ids').
      { case_decide; [by rewrite lookup_delete_ne in Hf' |
                      by rewrite lookup_insert_ne in Hf']. }
      destruct (cons_stored m Hc f' ids' Hold) as (Hnd' & Hne' & Hall').
      split; [done |]. split; [done |]. intros j Hj.
      destruct (Hall' j Hj) as (b & Hb & Hbf). exists b. split; [| done].
      rewrite lookup_delete_ne; [done |]. intros <-.
      eapply (Hother f' ids' i); eauto.
Qed.

Lemma consistent_removeByFile (f : string) (m : Manager) :
  consistent m -> consistent (snd (removeByFile f m)).
Proof.
  intros Hc. unfold removeByFile.
  destruct (breakpointsByFile m !! f) as [ids |] eqn:Hf; [| done]. simpl.
  destruct (cons_stored m Hc f ids Hf) as (Hnd & Hne & Hall).
  constructor; simpl.
  - intros j b Hb. rewrite foldl_delete_lookup in Hb.
    case_decide as Hj; [done |].
    destruct (cons_listed m Hc j b Hb) as (Hjid & ids' & Hf' & Hj').
    split; [done |]. exists ids'. split; [| done].
    rewrite lookup_delete_ne; [done |]. intros Heq. rewrite Heq in Hf.
    assert (ids' = ids) by congruence. by subst.
  - intros f' ids' Hf'. destruct (decide (f = f')) as [<- | Hnf];
      [by rewrite lookup_delete_eq in Hf' |].
    rewrite lookup_delete_ne in Hf' by done.
    destruct (cons_stored m Hc f' ids' Hf') as (Hnd' & Hne' & Hall').
    split; [done |]. split; [done |]. intros j Hj.
    destruct (Hall' j Hj) as (b & Hb & Hbf). exists b. split; [| done].
    rewrite foldl_delete_lookup. rewrite decide_False; [done |].
    intros Hin. destruct (Hall j Hin) as (b' & Hb' & Hbf'). congruence.
Qed.

Lemma consistent_set_flag (i : string) (g : BreakpointInfo -> BreakpointInfo) (m : Manager) :
  (forall bp, id (g bp) = id bp /\ file (g bp) = file bp) ->
  consistent m ->
  consistent (match breakpoints m !! i with
              | Some bp => mkManager (<[i := g bp]> (breakpoints m)) (breakpointsByFile m)
              | None => m
              end).
Proof.
  intros Hg Hc. destruct (breakpoints m !! i) as [bp |] eqn:Hbp; [| done].
  destruct (Hg bp). by eapply consistent_update.
Qed.

Lemma consistent_restore_loop (bps : list BreakpointInfo) (m : Manager) :
  consistent m -> NoDup (id <$> bps) ->
  (forall bp, bp ∈ bps -> breakpoints m !! id bp = None) ->
  consistent (foldl restore_one m bps).
Proof.
  revert m. induction bps as [| bp bps IH]; intros m Hc Hnd Hfresh; simpl; [done |].
  simpl in Hnd. apply NoDup_cons in Hnd as [Hbp Hnd].
  apply IH; [apply consistent_restore_one; [done | apply Hfresh; left] | done |].
  intros b Hb. simpl. rewrite lookup_insert_ne; [apply Hfresh; by right |].
  intros Heq. apply Hbp. rewrite Heq. apply list_elem_of_fmap. eauto.
Qed.

(** ** Properties of the operations *)

(** X4. Every operation of the manager keeps its two maps in agreement:
    [add] under an unused id, [remove], [removeByFile], [enable],
    [disable], [updateVerification], [enableAll], [disableAll], [clear],
    and [restore] of breakpoints with distinct ids. *)
Theorem operations_keep_maps_in_agreement (m : Manager) :
  consistent m ->
  (forall newId f ln o, breakpoints m !! newId = None ->
     consistent (snd (add newId f ln o m))) /\
  (forall i, consistent (snd (remove i m))) /\
  (forall f, consistent (snd (removeByFile f m))) /\
  (forall i, consistent (snd (enable i m)) /\ consistent (snd (disable i m))) /\
  (forall i v, consistent (updateVerification i v m)) /\
  consistent (enableAll m) /\ consistent (disableAll m) /\ consistent (clear m) /\
  (forall bps, NoDup (id <$> bps) -> consistent (restore bps m)).
Proof.
  intros Hc.
  split; [| split; [| split; [| split; [| split; [| split; [| split; [| split]]]]]]].
  - intros newId f ln o Hfresh.
    apply (consistent_restore_one m
             (mkBreakpointInfo newId f ln false (default true (o_enabled o))
                (o_condition o) (o_hitCondition o) (o_logMessage o))); done.
  - intros i. by apply consistent_remove.
  - intros f. by apply consistent_removeByFile.
  - intros i. split.
    + pose proof (consistent_set_flag i (set_enabled true) m) as H.
      unfold enable. destruct (breakpoints m !! i); apply H; done.
    + pose proof (consistent_set_flag i (set_enabled false) m) as H.
      unfold disable. destruct (breakpoints m !! i); apply H; done.
  - intros i v. pose proof (consistent_set_flag i (set_verified v) m) as H.
    unfold updateVerification. destruct (breakpoints m !! i); apply H; done.
  - by apply consistent_fmap.
  - by apply consistent_fmap.
  - apply consistent_empty.
  - intros bps Hnd. unfold restore.
    apply consistent_restore_loop; [apply consistent_empty | done |].
    intros bp _. apply lookup_empty.
Qed.

Lemma three_on_one_file_consistent : consistent three_on_one_file.
Proof.
  unfold three_on_one_file.
  assert (H1 : consistent (snd (add "id-1" "/w/app.py" 5 no_options empty))).
  { apply (consistent_restore_one empty (fst (add "id-1" "/w/app.py" 5 no_options empty)));
      [apply consistent_empty | reflexivity]. }
  assert (H2 : consistent (snd (add "id-2" "/w/app.py" 9 no_options
                                  (snd (add "id-1" "/w/app.py" 5 no_options empty))))).
  { apply (consistent_restore_one _
             (fst (add "id-2" "/w/app.py" 9 no_options empty))); [done |].
    vm_compute. reflexivity. }
  assert (H3 : consistent (snd (add "id-3" "/w/app.py" 5 no_options
               (snd (add "id-2" "/w/app.py" 9 no_options
                  (snd (add "id-1" "/w/app.py" 5 no_options empty))))))).
  { apply (consistent_restore_one _
             (fst (add "id-3" "/w/app.py" 5 no_options empty))); [done |].
    vm_compute. reflexivity. }
  pose proof (consistent_set_flag "id-2" (set_enabled false) _
                (fun _ => conj eq_refl eq_refl) H3) as H.
  unfold disable. destruct (breakpoints _ !! "id-2"%string); exact H.
Qed.

Lemma operations_keep_maps_in_agreement_witness :
  consistent (snd (add "id-4" "/w/app.py" 5 no_options three_on_one_file)).
Proof.
  apply (proj1 (operations_keep_maps_in_agreement _ three_on_one_file_consistent)).
  vm_compute. reflexivity.
Defined.

(** X5. [add] under an unused id stores a new breakpoint, not verified
    and enabled unless the options say otherwise, and puts it last under
    its file, also when another breakpoint has the same line: nothing
    is merged, and no other breakpoint or file changes. *)
Theorem add_appends_to_its_file (newId f : string) (ln : Z) (o : AddOptions)
    (m : Manager) :
  consistent m -> breakpoints m !! newId = None ->
  let bp := fst (add newId f ln o m) in
  let m' := snd (add newId f ln o m) in
  bp = mkBreakpointInfo newId f ln false (default true (o_enabled o))
         (o_condition o) (o_hitCondition o) (o_logMessage o) /\
  get newId m' = Some bp /\
  getByFile f m' = getByFile f m ++ [bp] /\
  (forall f', f' <> f -> getByFile f' m' = getByFile f' m) /\
  (forall i, i <> newId -> get i m' = get i m) /\
  count m' = S (count m).
Proof.
  intros Hc Hfresh bp m'.
  pose proof (getByFile_restore_one m bp) as Hget.
  assert (Hm' : m' = restore_one m bp) by reflexivity.
  assert (Hbp : bp = mkBreakpointInfo newId f ln false (default true (o_enabled o))
                       (o_condition o) (o_hitCondition o) (o_logMessage o))
    by reflexivity.
  clearbody m' bp. subst m' bp.
  split; [reflexivity |]. split; [apply lookup_insert_eq |]. split; [| split; [| split]].
  - rewrite (Hget f Hc Hfresh). by rewrite decide_True.
  - intros f' Hne. rewrite (Hget f' Hc Hfresh). rewrite decide_False; [done |].
    simpl. congruence.
  - intros i Hne. unfold get. simpl. by rewrite lookup_insert_ne.
  - unfold count. simpl. by apply map_size_insert_None.
Qed.

Lemma add_appends_to_its_file_witness :
  getByFile "/w/app.py" (snd (add "id-4" "/w/app.py" 5 no_options three_on_one_file)) =
  getByFile "/w/app.py" three_on_one_file ++
  [mkBreakpointInfo "id-4" "/w/app.py" 5 false true None None None].
Proof.
  apply (proj1 (proj2 (proj2
           (add_appends_to_its_file "id-4" "/w/app.py" 5 no_options three_on_one_file
              three_on_one_file_consistent ltac:(vm_compute; reflexivity))))).
Defined.

Lemma resolve_ids_filter (m m' : Manager) (ids : list string) (i : string) :
  (forall j, j ∈ ids -> exists bp, breakpoints m !! j = Some bp /\ id bp = j) ->
  (forall j, j <> i -> breakpoints m' !! j = breakpoints m !! j) ->
  resolve_ids m' (filter (fun j => j <> i) ids) =
  filter (fun b => id b <> i) (resolve_ids m ids).
Proof.
  intros Hall Hsame. unfold resolve_ids.
  induction ids as [| j ids IH]; [reflexivity |].
  assert (IH' : omap (fun i0 => breakpoints m' !! i0) (filter (fun j0 => j0 <> i) ids) =
                filter (fun b => id b <> i) (omap (fun i0 => breakpoints m !! i0) ids)).
  { apply IH. intros k Hk. apply Hall. by right. }
  destruct (Hall j) as (bp & Hbp & Hid); [left |].
  change (j :: ids) with ([j] ++ ids). rewrite filter_app, !omap_app, filter_app, IH'.
  f_equal. simpl (omap _ [j]). rewrite Hbp.
  destruct (decide (j = i)) as [-> | Hne].
  - rewrite filter_cons_False by tauto. rewrite filter_cons_False by (rewrite Hid; tauto).
    reflexivity.
  - rewrite filter_cons_True by done. rewrite filter_cons_True by (by rewrite Hid).
    simpl. by rewrite (Hsame j Hne), Hbp.
Qed.

Lemma stored_ids (m : Manager) (f : string) (ids : list string) :
  consistent m -> breakpointsByFile m !! f = Some ids ->
  forall j, j ∈ ids -> exists bp, breakpoints m !! j = Some bp /\ id bp = j.
Proof.
  intros Hc Hf j Hj. destruct (cons_stored m Hc f ids Hf) as (_ & _ & Hall).
  destruct (Hall j Hj) as (bp & Hbp & _). exists bp. split; [done |].
  by destruct (cons_listed m Hc j bp Hbp).
Qed.

(** X6. [remove] of an id that is not stored answers [false] and
    changes nothing. [remove] of a stored breakpoint answers [true],
    takes exactly that breakpoint out of [get] and out of its file's
    list, keeps the order of the others, and touches no other file. *)
Theorem remove_takes_out_one_breakpoint (i : string) (m : Manager) :
  consistent m ->
  (breakpoints m !! i = None -> remove i m = (false, m)) /\
  (forall bp, breakpoints m !! i = Some bp ->
     let m' := snd (remove i m) in
     fst (remove i m) = true /\
     get i m' = None /\
     getByFile (file bp) m' = filter (fun b => id b <> i) (getByFile (file bp) m) /\
     (forall f', f' <> file bp -> getByFile f' m' = getByFile f' m) /\
     (forall j, j <> i -> get j m' = get j m) /\
     S (count m') = count m).
Proof.
  intros Hc. split.
  - intros Hnone. unfold remove. by rewrite Hnone.
  - intros bp Hbp. unfold remove. rewrite Hbp. cbn [fst snd].
    destruct (cons_listed m Hc i bp Hbp) as (Hid & ids & Hf & Hin).
    rewrite Hf.
    set (bm' := delete i (breakpoints m)).
    assert (Hsame : forall j, j <> i -> bm' !! j = breakpoints m !! j).
    { intros j Hj. unfold bm'. by rewrite lookup_delete_ne. }
    split; [reflexivity |]. split; [apply lookup_delete_eq |].
    split; [| split; [| split]].
    + pose proof (resolve_ids_filter m
                    (mkManager bm' (breakpointsByFile m)) ids i
                    (stored_ids m _ ids Hc Hf) Hsame) as Hres.
      unfold getByFile at 2. rewrite Hf, <- Hres.
      unfold getByFile. cbn [breakpointsByFile].
      case_decide as Hlen.
      * rewrite lookup_delete_eq.
        destruct (set_delete i ids) eqn:Hrest; [| done].
        unfold set_delete in Hrest. by rewrite Hrest.
      * rewrite lookup_insert_eq. apply resolve_ids_ext. done.
    + intros f' Hne. unfold getByFile. cbn [breakpointsByFile].
      assert (Hlook : (if decide (length (set_delete i ids) = 0%nat)
                       then delete (file bp) (breakpointsByFile m)
                       else <[file bp := set_delete i ids]> (breakpointsByFile m)) !! f'
                      = breakpointsByFile m !! f').
      { case_decide; [by rewrite lookup_delete_ne | by rewrite lookup_insert_ne]. }
      rewrite Hlook. destruct (breakpointsByFile m !! f') as [ids' |] eqn:Hf'; [| done].
      apply resolve_ids_ext. intros j Hj. cbn [breakpoints]. apply Hsame.
      intros ->. destruct (cons_stored m Hc f' ids' Hf') as (_ & _ & Hall).
      destruct (Hall i Hj) as (b & Hb & Hbf). congruence.
    + intros j Hj. unfold get. cbn [breakpoints]. by apply Hsame.
    + unfold count. cbn [breakpoints]. unfold bm'.
      rewrite <- (insert_delete_id (breakpoints m) i bp Hbp) at 2.
      rewrite map_size_insert_None by apply lookup_delete_eq. reflexivity.
Qed.

Lemma remove_takes_out_one_breakpoint_witness :
  getByFile "/w/app.py" (snd (remove "id-2" three_on_one_file)) =
  filter (fun b => id b <> "id-2"%string) (getByFile "/w/app.py" three_on_one_file).
Proof.
  apply (proj1 (proj2 (proj2
           (proj2 (remove_takes_out_one_breakpoint "id-2" three_on_one_file
                     three_on_one_file_consistent)
              (mkBreakpointInfo "id-2" "/w/app.py" 9 false false None None None)
              ltac:(vm_compute; reflexivity))))).
Defined.

Lemma size_foldl_delete (ids : list string) (bm : gmap string BreakpointInfo) :
  NoDup ids -> (forall i, i ∈ ids -> is_Some (bm !! i)) ->
  (size (foldl (fun acc i => delete i acc) bm ids) + length ids = size bm)%nat.
Proof.
  revert bm. induction ids as [| i ids IH]; intros bm Hnd Hall; cbn [foldl length].
  - lia.
  - apply NoDup_cons in Hnd as [Hi Hnd].
    destruct (Hall i) as [x Hx]; [left |].
    rewrite <- (insert_delete_id bm i x Hx) at 2.
    rewrite map_size_insert_None by apply lookup_delete_eq.
    rewrite <- (IH (delete i bm) Hnd); [lia |].
    intros j Hj. rewrite lookup_delete_ne; [apply Hall; by right |]. congruence.
Qed.

(** X7. [removeByFile] answers the number of breakpoints of the file and
    removes all of them, from [get] and from the file's list; a file
    with no breakpoint gives 0 and no change; no other file is touched. *)
Theorem removeByFile_removes_the_file (f : string) (m : Manager) :
  consistent m ->
  let r := removeByFile f m in
  fst r = length (getByFile f m) /\
  getByFile f (snd r) = [] /\
  (forall bp, bp ∈ getByFile f m -> get (id bp) (snd r) = None) /\
  (forall f', f' <> f -> getByFile f' (snd r) = getByFile f' m) /\
  (count (snd r) + fst r = count m)%nat /\
  (getByFile f m = [] -> snd r = m).
Proof.
  intros Hc r. unfold r, removeByFile.
  pose proof (getByFile_ids m f Hc) as Hids.
  destruct (breakpointsByFile m !! f) as [ids |] eqn:Hf; cbn [fst snd].
  - destruct (cons_stored m Hc f ids Hf) as (Hnd & Hne & Hall).
    simpl in Hids.
    split; [by rewrite <- Hids, length_fmap |].
    split; [unfold getByFile; cbn [breakpointsByFile]; by rewrite lookup_delete_eq |].
    split; [| split; [| split]].
    + intros bp Hbp. unfold get. cbn [breakpoints]. rewrite foldl_delete_lookup.
      rewrite decide_True; [done |]. rewrite <- Hids.
      apply list_elem_of_fmap. eauto.
    + intros f' Hne'. unfold getByFile. cbn [breakpointsByFile].
      rewrite lookup_delete_ne by done.
      destruct (breakpointsByFile m !! f') as [ids' |] eqn:Hf'; [| done].
      apply resolve_ids_ext. intros j Hj. cbn [breakpoints].
      rewrite foldl_delete_lookup. rewrite decide_False; [done |].
      intros Hin. destruct (cons_stored m Hc f' ids' Hf') as (_ & _ & Hall').
      destruct (Hall j Hin) as (b & Hb & Hbf).
      destruct (Hall' j Hj) as (b' & Hb' & Hbf'). congruence.
    + unfold count. cbn [breakpoints]. apply size_foldl_delete; [done |].
      intros i Hi. destruct (Hall i Hi) as (b & Hb & _). eauto.
    + intros Hnil. rewrite Hnil in Hids. simpl in Hids. by subst ids.
  - unfold getByFile. rewrite Hf. unfold count. repeat split; try done.
    intros bp Hbp. by apply not_elem_of_nil in Hbp.
Qed.

Lemma removeByFile_removes_the_file_witness :
  get "id-3" (snd (removeByFile "/w/app.py" three_on_one_file)) = None.
Proof.
  apply (proj1 (proj2 (proj2
           (removeByFile_removes_the_file "/w/app.py" three_on_one_file
              three_on_one_file_consistent)))
           (mkBreakpointInfo "id-3" "/w/app.py" 5 false true None None None)).
  vm_compute. apply list_elem_of_In. simpl. tauto.
Defined.

Definition toggled (i : string) (v : bool) (b : BreakpointInfo) : BreakpointInfo :=
  if decide (id b = i) then set_enabled v b else b.

Lemma getByFile_set_enabled (m : Manager) (i f : string) (v : bool) (bp : BreakpointInfo) :
  consistent m -> breakpoints m !! i = Some bp ->
  getByFile f (mkManager (<[i := set_enabled v bp]> (breakpoints m)) (breakpointsByFile m))
  = toggled i v <$> getByFile f m.
Proof.
  intros Hc Hbp. unfold getByFile. cbn [breakpointsByFile].
  destruct (breakpointsByFile m !! f) as [ids |] eqn:Hf; [| done].
  pose proof (stored_ids m f ids Hc Hf) as Hall. clear Hf.
  unfold resolve_ids. cbn [breakpoints].
  induction ids as [| j ids IH]; [reflexivity |].
  change (j :: ids) with ([j] ++ ids). rewrite !omap_app, fmap_app.
  rewrite IH by (intros k Hk; apply Hall; by right). f_equal.
  destruct (Hall j) as (b & Hb & Hid); [left |]. simpl.
  destruct (decide (i = j)) as [<- | Hne].
  - rewrite lookup_insert_eq, Hb. simpl. assert (b = bp) by congruence. subst b.
    unfold toggled. by rewrite decide_True.
  - rewrite lookup_insert_ne, Hb by done. simpl.
    unfold toggled. rewrite decide_False; [done |]. congruence.
Qed.

Lemma filter_enabled_toggled_off (i : string) (l : list BreakpointInfo) :
  filter (fun b => enabled b = true) (toggled i false <$> l) =
  filter (fun b => enabled b = true /\ id b <> i) l.
Proof.
  induction l as [| b l IH]; [reflexivity |].
  rewrite fmap_cons, !filter_cons, IH. unfold toggled.
  destruct (decide (id b = i)) as [Heq | Hne]; simpl.
  - rewrite decide_False by tauto. reflexivity.
  - destruct (decide (enabled b = true)) as [He | He].
    + by rewrite decide_True.
    + rewrite decide_False by tauto. reflexivity.
Qed.

(** X8. [disable] keeps the breakpoint in [getByFile], changed in its
    [enabled] flag only, and takes it out of the sync payload of its
    file, where the other enabled breakpoints stay in order; [enable]
    after [disable] of an enabled breakpoint gives the manager back as
    it was. An id that is not stored answers [false] with no change. *)
Theorem disable_hides_from_payload (i : string) (m : Manager) :
  consistent m ->
  (breakpoints m !! i = None -> disable i m = (false, m) /\ enable i m = (false, m)) /\
  (forall bp, breakpoints m !! i = Some bp ->
     let m' := snd (disable i m) in
     fst (disable i m) = true /\
     (forall f, getByFile f m' = toggled i false <$> getByFile f m) /\
     (forall f,
        getBreakpointsForDap m' !! f =
        let l := to_dap <$> filter (fun b => enabled b = true /\ id b <> i)
                              (getByFile f m) in
        if decide (0 < length l)%nat then Some l else None) /\
     (enabled bp = true -> snd (enable i m') = m)).
Proof.
  intros Hc. split.
  - intros Hnone. unfold disable, enable. by rewrite Hnone.
  - intros bp Hbp. unfold disable. rewrite Hbp. cbn [fst snd].
    split; [reflexivity |].
    assert (Hget : forall f,
              getByFile f (mkManager (<[i := set_enabled false bp]> (breakpoints m))
                             (breakpointsByFile m))
              = toggled i false <$> getByFile f m)
      by (intros f; by apply getByFile_set_enabled).
    split; [exact Hget |]. split.
    + intros f. rewrite getBreakpointsForDap_lookup, Hget.
      by rewrite filter_enabled_toggled_off.
    + intros He. unfold enable. cbn [breakpoints breakpointsByFile].
      rewrite lookup_insert_eq. cbn [snd]. rewrite insert_insert_eq.
      assert (Hback : set_enabled true (set_enabled false bp) = bp).
      { destruct bp; simpl in *. by subst. }
      rewrite Hback, insert_id by done. by destruct m.
Qed.

Lemma disable_hides_from_payload_witness :
  snd (enable "id-1" (snd (disable "id-1" three_on_one_file))) = three_on_one_file.
Proof.
  apply (proj2 (proj2 (proj2
           (proj2 (disable_hides_from_payload "id-1" three_on_one_file
                     three_on_one_file_consistent)
              (mkBreakpointInfo "id-1" "/w/app.py" 5 false true None None None)
              ltac:(vm_compute; reflexivity))))).
  reflexivity.
Defined.

Lemma getByFile_fmap (g : BreakpointInfo -> BreakpointInfo) (m : Manager) (f : string) :
  getByFile f (mkManager (g <$> breakpoints m) (breakpointsByFile m)) = g <$> getByFile f m.
Proof.
  unfold getByFile. cbn [breakpointsByFile].
  destruct (breakpointsByFile m !! f) as [ids |]; [| done].
  unfold resolve_ids. cbn [breakpoints]. induction ids as [| i ids IH]; [done |].
  change (i :: ids) with ([i] ++ ids). rewrite !omap_app, fmap_app, IH. f_equal.
  simpl. rewrite lookup_fmap. by destruct (breakpoints m !! i).
Qed.

Lemma elem_of_getAll (m : Manager) (bp : BreakpointInfo) :
  bp ∈ getAll m <-> exists i, breakpoints m !! i = Some bp.
Proof.
  unfold getAll. rewrite list_elem_of_fmap. split.
  - intros ([i b] & -> & H). apply elem_of_map_to_list in H. eauto.
  - intros (i & H). exists (i, bp). split; [done |]. by apply elem_of_map_to_list.
Qed.

Lemma length_getAll (m : Manager) : length (getAll m) = count m.
Proof. unfold getAll, count. by rewrite length_fmap, length_map_to_list. Qed.

(** X9. [disableAll] leaves every breakpoint stored and listed, each
    with [enabled] off, so that the sync payload is empty and
    [countEnabled] is 0; after [enableAll] the payload of a file holds
    all the breakpoints of the file and [countEnabled] equals [count]. *)
Theorem enableAll_disableAll_switch_every_breakpoint (m : Manager) :
  getBreakpointsForDap (disableAll m) = ∅ /\
  countEnabled (disableAll m) = 0%nat /\
  countEnabled (enableAll m) = count m /\
  count (enableAll m) = count m /\ count (disableAll m) = count m /\
  (forall f, getByFile f (enableAll m) = set_enabled true <$> getByFile f m) /\
  (forall f, getByFile f (disableAll m) = set_enabled false <$> getByFile f m) /\
  (forall f, getBreakpointsForDap (enableAll m) !! f =
     if decide (getByFile f m = []) then None else Some (to_dap <$> getByFile f m)).
Proof.
  split; [| split; [| split; [| split; [| split; [| split; [| split]]]]]].
  - apply map_eq. intros f. rewrite getBreakpointsForDap_lookup, lookup_empty.
    unfold disableAll. rewrite getByFile_fmap.
    rewrite ListAux.filter_none; [done |].
    intros b Hb. apply list_elem_of_fmap in Hb as (b0 & -> & _). simpl. discriminate.
  - unfold countEnabled. rewrite ListAux.filter_none; [done |].
    intros b Hb. apply elem_of_getAll in Hb as (i & Hb). simpl in Hb.
    rewrite lookup_fmap in Hb. destruct (breakpoints m !! i); [| done].
    injection Hb as <-. simpl. discriminate.
  - unfold countEnabled. rewrite ListAux.filter_all.
    + rewrite length_getAll. unfold count. simpl. apply map_size_fmap.
    + intros b Hb. apply elem_of_getAll in Hb as (i & Hb). simpl in Hb.
      rewrite lookup_fmap in Hb. destruct (breakpoints m !! i); [| done].
      by injection Hb as <-.
  - unfold count. simpl. apply map_size_fmap.
  - unfold count. simpl. apply map_size_fmap.
  - intros f. apply getByFile_fmap.
  - intros f. apply getByFile_fmap.
  - intros f. rewrite getBreakpointsForDap_lookup. unfold enableAll.
    rewrite getByFile_fmap. rewrite ListAux.filter_all.
    + rewrite <- list_fmap_compose.
      destruct (getByFile f m) as [| b l]; [done |].
      cbn zeta. rewrite decide_True by (simpl; lia).
      by rewrite (decide_False (P := b :: l = [])) by done.
    + intros b Hb. by apply list_elem_of_fmap in Hb as (b0 & -> & _).
Qed.

(** The loop of [restore], from a manager that holds none of the ids. *)
Lemma restore_loop_spec (bps : list BreakpointInfo) (m : Manager) :
  consistent m -> NoDup (id <$> bps) ->
  (forall bp, bp ∈ bps -> breakpoints m !! id bp = None) ->
  let m' := foldl restore_one m bps in
  (forall f, getByFile f m' = getByFile f m ++ filter (fun bp => file bp = f) bps) /\
  (forall bp, bp ∈ bps -> breakpoints m' !! id bp = Some bp) /\
  (forall i, i ∉ id <$> bps -> breakpoints m' !! i = breakpoints m !! i) /\
  size (breakpoints m') = (size (breakpoints m) + length bps)%nat.
Proof.
  revert m. induction bps as [| bp bps IH]; intros m Hc Hnd Hfresh; cbn [foldl].
  - cbn zeta. repeat split.
    + intros f. by rewrite filter_nil, app_nil_r.
    + intros bp Hbp. by apply not_elem_of_nil in Hbp.
    + simpl. lia.
  - rewrite fmap_cons in Hnd. apply NoDup_cons in Hnd as [Hbp Hnd].
    assert (Hfresh0 : breakpoints m !! id bp = None) by (apply Hfresh; left).
    assert (Hfresh' : forall b, b ∈ bps -> breakpoints (restore_one m bp) !! id b = None).
    { intros b Hb. simpl. rewrite lookup_insert_ne; [apply Hfresh; by right |].
      intros Heq. apply Hbp. rewrite Heq. apply list_elem_of_fmap. eauto. }
    destruct (IH (restore_one m bp) (consistent_restore_one m bp Hc Hfresh0) Hnd Hfresh')
      as (Hget & Hin & Hout & Hsize).
    cbn zeta. split; [| split; [| split]].
    + intros f. rewrite Hget, getByFile_restore_one by done.
      rewrite filter_cons. case_decide; [by rewrite <- app_assoc | done].
    + intros b Hb. apply elem_of_cons in Hb as [-> | Hb]; [| by apply Hin].
      rewrite Hout by done. simpl. apply lookup_insert_eq.
    + intros i Hi. rewrite fmap_cons in Hi. apply not_elem_of_cons in Hi as [Hne Hi].
      rewrite Hout by done. simpl. by rewrite lookup_insert_ne.
    + rewrite Hsize. simpl. rewrite map_size_insert_None by done. lia.
Qed.

(** X10. [restore] of breakpoints with distinct ids drops what the
    manager held and stores the given ones: each is found by its id, a
    file lists its breakpoints in the order of the given array, and
    [count] is the length of the array. *)
Theorem restore_rebuilds_from_array (bps : list BreakpointInfo) (m0 : Manager) :
  NoDup (id <$> bps) ->
  let m := restore bps m0 in
  (forall f, getByFile f m = filter (fun bp => file bp = f) bps) /\
  (forall bp, bp ∈ bps -> get (id bp) m = Some bp) /\
  (forall i, i ∉ id <$> bps -> get i m = None) /\
  count m = length bps.
Proof.
  intros Hnd m.
  destruct (restore_loop_spec bps (clear m0) consistent_empty Hnd
              (fun bp _ => lookup_empty (id bp))) as (Hget & Hin & Hout & Hsize).
  split; [| split; [| split]].
  - intros f. unfold m, restore. by rewrite Hget.
  - exact Hin.
  - intros i Hi. unfold get, m, restore. rewrite Hout by done. apply lookup_empty.
  - unfold count, m, restore. rewrite Hsize. simpl. by rewrite map_size_empty.
Qed.

Lemma restore_rebuilds_from_array_witness :
  getByFile "/w/app.py"
    (restore [mkBreakpointInfo "b" "/w/app.py" 9 true true None None None;
              mkBreakpointInfo "a" "/w/lib.py" 2 false true None None None;
              mkBreakpointInfo "c" "/w/app.py" 3 false false None None None]
       three_on_one_file)
  = [mkBreakpointInfo "b" "/w/app.py" 9 true true None None None;
     mkBreakpointInfo "c" "/w/app.py" 3 false false None None None].
Proof.
  apply (proj1 (restore_rebuilds_from_array
                  [mkBreakpointInfo "b" "/w/app.py" 9 true true None None None;
                   mkBreakpointInfo "a" "/w/lib.py" 2 false true None None None;
                   mkBreakpointInfo "c" "/w/app.py" 3 false false None None None]
                  three_on_one_file ltac:(vm_compute; repeat constructor;
                                          rewrite ?elem_of_cons, ?elem_of_nil;
                                          intuition discriminate))
           "/w/app.py").
Defined.

Lemma getAll_ids (m : Manager) :
  consistent m -> id <$> getAll m = (map_to_list (breakpoints m)).*1.
Proof.
  intros Hc. unfold getAll. rewrite <- list_fmap_compose.
  apply list_fmap_ext. intros k [i bp] Hk. simpl.
  apply list_elem_of_lookup_2 in Hk. apply elem_of_map_to_list in Hk.
  by destruct (cons_listed m Hc i bp Hk).
Qed.

(** X11. [restore(serialize())] gives the manager its breakpoints back:
    the same breakpoint under every id, and under every file the same
    breakpoints, whatever the manager that restores held before. *)
Theorem restore_serialize_round_trip (m m0 : Manager) :
  consistent m ->
  breakpoints (restore (serialize m) m0) = breakpoints m /\
  (forall i, get i (restore (serialize m) m0) = get i m) /\
  (forall f, getByFile f (restore (serialize m) m0) ≡ₚ getByFile f m) /\
  count (restore (serialize m) m0) = count m.
Proof.
  intros Hc.
  assert (Hnd : NoDup (id <$> serialize m)).
  { unfold serialize. rewrite getAll_ids by done. apply NoDup_fst_map_to_list. }
  destruct (restore_loop_spec (serialize m) (clear m0) consistent_empty Hnd
              (fun bp _ => lookup_empty (id bp))) as (Hget & Hin & Hout & Hsize).
  fold (restore (serialize m) m0) in Hget, Hin, Hout, Hsize.
  assert (Hmap : breakpoints (restore (serialize m) m0) = breakpoints m).
  { apply map_eq. intros i. destruct (breakpoints m !! i) as [bp |] eqn:Hbp.
    - destruct (cons_listed m Hc i bp Hbp) as [<- _].
      apply Hin. apply elem_of_getAll. eauto.
    - rewrite Hout; [apply lookup_empty |].
      intros Hi. apply list_elem_of_fmap in Hi as (bp & -> & Hbp').
      apply elem_of_getAll in Hbp' as (j & Hj).
      destruct (cons_listed m Hc j bp Hj) as [Hid _]. congruence. }
  split; [done |]. split; [by intros i; unfold get; rewrite Hmap |].
  split; [| by unfold count; rewrite Hmap].
  intros f. rewrite Hget.
  change (getByFile f (clear m0)) with (@nil BreakpointInfo). rewrite app_nil_l.
  apply NoDup_Permutation.
  - apply NoDup_filter. eapply NoDup_fmap_1. exact Hnd.
  - apply (NoDup_fmap_1 id). rewrite getByFile_ids by done.
    destruct (breakpointsByFile m !! f) as [ids |] eqn:Hf; [| constructor].
    by destruct (cons_stored m Hc f ids Hf).
  - intros bp. rewrite list_elem_of_filter. unfold serialize. rewrite elem_of_getAll.
    split.
    + intros (Hfile & i & Hi). destruct (cons_listed m Hc i bp Hi) as [Hid _].
      subst i f. by apply elem_of_getByFile.
    + intros Hbp. destruct (getByFile_file m f bp Hc Hbp) as [Hfile Hst]. eauto.
Qed.

Lemma restore_serialize_round_trip_witness :
  breakpoints (restore (serialize three_on_one_file) empty) = breakpoints three_on_one_file.
Proof.
  apply (proj1 (restore_serialize_round_trip three_on_one_file empty
                  three_on_one_file_consistent)).
Defined.

End BreakpointManager.

(* ===================================================================== *)
(** * src/dap/client.ts: request multiplexer and disconnect *)
(* ===================================================================== *)

Module DAPClient.
Import Js ErrorHandler.

(** [interface DAPRequest] *)
Record DAPRequest : Type := mkRequest {
  req_seq : Z;
  req_command : string;
  req_arguments : JsValue
}.

(** [type DAPMessage = DAPResponse | DAPEvent]; [OtherMessage] is a
    parsed value whose [type] is neither ['response'] nor ['event']. *)
Inductive DAPMessage : Type :=
| Response (seq request_seq : Z) (success : bool) (command : string)
    (message : option string) (body : JsValue)
| Event (seq : Z) (event : string) (body : JsValue)
| OtherMessage.

(** The child process, as far as the client looks at it. *)
Record Proc : Type := mkProc {
  has_stdin : bool;
  killed : bool;
  written : list DAPRequest
}.

(** An entry of [pendingRequests]: the [resolve] and [reject] of the
    promise that [sendRequest] made, named by the [seq] of that call. *)
Record PendingCall : Type := mkPending { promise : Z }.

(** A call to [resolve] or to [reject]. *)
Inductive Settlement : Type :=
| Resolve (body : JsValue)
| Reject (err : Thrown).

Record Client : Type := mkClient {
  process : option Proc;
  nextSeq : Z;
  pendingRequests : gmap Z PendingCall;
  initialized : bool;
  eventBus : EventBus.Bus;
  (** every call made to a [resolve] or [reject] of a request promise,
      most recent first *)
  settled : list (Z * Settlement)
}.

(** A client after [start()]. *)
Definition started : Client :=
  mkClient (Some (mkProc true false [])) 1 ∅ false EventBus.empty [].

(** A client whose [start()] was never called. *)
Definition fresh : Client :=
  mkClient None 1 ∅ false EventBus.empty [].

Definition settle (p : PendingCall) (s : Settlement) (c : Client) : Client :=
  mkClient (process c) (nextSeq c) (pendingRequests c) (initialized c) (eventBus c)
    ((promise p, s) :: settled c).

(** [sendRequest(command, args)]: the [seq] of the promise handed back,
    or the error thrown when there is no process to write to. *)
Definition sendRequest (command : string) (args : JsValue) (c : Client)
  : (Thrown + Z) * Client :=
  match process c with
  | Some p =>
      if has_stdin p then
        let seq := nextSeq c in
        let request := mkRequest seq command args in
        (inr seq,
         mkClient (Some (mkProc (has_stdin p) (killed p) (written p ++ [request])))
           (seq + 1) (<[seq := mkPending seq]> (pendingRequests c))
           (initialized c) (eventBus c) (settled c))
      else (inl (DAPError "DAP adapter not started" JsUndefined), c)
  | None => (inl (DAPError "DAP adapter not started" JsUndefined), c)
  end.

(** [message.message || 'DAP request failed'] *)
Definition failure_message (message : option string) : string :=
  match message with
  | Some m => if decide (m = ""%string) then "DAP request failed"%string else m
  | None => "DAP request failed"%string
  end.

(** [handleMessage(message)] *)
Definition handleMessage (message : DAPMessage) (c : Client) : Client :=
  match message with
  | Response _ request_seq success _ msg body =>
      match pendingRequests c !! request_seq with
      | Some pending =>
          let c' :=
            mkClient (process c) (nextSeq c) (delete request_seq (pendingRequests c))
              (initialized c) (eventBus c) (settled c) in
          if success then settle pending (Resolve body) c'
          else settle pending (Reject (DAPError (failure_message msg) body)) c'
      | None => c
      end
  | Event _ event body =>
      mkClient (process c) (nextSeq c) (pendingRequests c) (initialized c)
        (EventBus.emit event body (eventBus c)) (settled c)
  | OtherMessage => c
  end.

(** [`DAP adapter exited with code ${code}`]; [code] is [None] for
    [null]. *)
Definition exit_error (code : option Z) : Thrown :=
  DAPError
    ("DAP adapter exited with code " ++
       match code with
       | Some n => DecimalString.NilZero.string_of_int (Z.to_int n)
       | None => "null"
       end)%string
    JsUndefined.

(** [handleExit(code)] *)
Definition handleExit (code : option Z) (c : Client) : Client :=
  let rejected :=
    (fun kv : Z * PendingCall => (promise (snd kv), Reject (exit_error code)))
      <$> map_to_list (pendingRequests c) in
  mkClient (process c) (nextSeq c) ∅ false (EventBus.clear (eventBus c))
    (reverse rejected ++ settled c).

(** What reaches the multiplexer. *)
Inductive Input : Type :=
| Send (command : string) (args : JsValue)
| Receive (message : DAPMessage)
| Exit (code : option Z).

Definition step (c : Client) (i : Input) : Client :=
  match i with
  | Send command args => snd (sendRequest command args c)
  | Receive message => handleMessage message c
  | Exit code => handleExit code c
  end.

Definition run (inputs : list Input) (c : Client) : Client := foldl step c inputs.

(** The settlements of the promise that [sendRequest] made under [seq]. *)
Definition settlements_of (seq : Z) (c : Client) : list Settlement :=
  snd <$> filter (fun p => fst p = seq) (settled c).

Definition ok_response (request_seq : Z) (body : JsValue) : DAPMessage :=
  Response 0 request_seq true "" None body.

Definition failed_response (request_seq : Z) (msg : string) : DAPMessage :=
  Response 0 request_seq false "" (Some msg) JsUndefined.

Example two_requests_answered_out_of_order :
  let c := run [Send "next" JsNull; Send "stackTrace" JsNull;
                Receive (ok_response 2 (JsStr "frames"));
                Receive (failed_response 1 "busy")] started in
  settlements_of 1 c = [Reject (DAPError "busy" JsUndefined)] /\
  settlements_of 2 c = [Resolve (JsStr "frames")] /\
  pendingRequests c = ∅.
Proof. vm_compute. done. Qed.

Example late_duplicate_response_is_ignored :
  let c := run [Send "next" JsNull; Receive (ok_response 1 JsNull);
                Receive (ok_response 1 (JsStr "again"))] started in
  settlements_of 1 c = [Resolve JsNull].
Proof. vm_compute. done. Qed.

Example exit_rejects_what_is_left :
  let c := run [Send "next" JsNull; Send "pause" JsNull;
                Receive (ok_response 1 JsNull); Exit (Some 1)] started in
  settlements_of 1 c = [Resolve JsNull] /\
  settlements_of 2 c = [Reject (exit_error (Some 1))] /\
  pendingRequests c = ∅.
Proof. vm_compute. done. Qed.

Example exit_error_text :
  exit_error (Some 1) = DAPError "DAP adapter exited with code 1" JsUndefined.
Proof. reflexivity. Qed.

(** ** The invariant of the multiplexer *)

(** The sequence numbers handed out so far are [1 .. nextSeq - 1]; each
    of them is either still in [pendingRequests] and not settled, or
    settled and no longer pending; nothing is settled twice. *)
Record inv (c : Client) : Prop := mkInv {
  inv_next : 1 <= nextSeq c;
  inv_pending : forall seq p, pendingRequests c !! seq = Some p ->
      promise p = seq /\ 1 <= seq < nextSeq c /\ seq ∉ fst <$> settled c;
  inv_settled : forall seq, seq ∈ fst <$> settled c -> 1 <= seq < nextSeq c;
  inv_once : NoDup (fst <$> settled c);
  inv_issued : forall seq, 1 <= seq < nextSeq c ->
      is_Some (pendingRequests c !! seq) \/ seq ∈ fst <$> settled c
}.

Lemma inv_started : inv started.
Proof.
  constructor; simpl.
  - lia.
  - intros seq p H. by rewrite lookup_empty in H.
  - intros seq H. by apply not_elem_of_nil in H.
  - constructor.
  - intros seq H. lia.
Qed.

Lemma inv_sendRequest (command : string) (args : JsValue) (c : Client) :
  inv c -> inv (snd (sendRequest command args c)).
Proof.
  intros Hinv. unfold sendRequest.
  destruct (process c) as [p |]; [| done].
  destruct (has_stdin p); [| done]. simpl.
  pose proof (inv_next c Hinv) as Hn.
  constructor; simpl.
  - lia.
  - intros seq q Hq. destruct (decide (nextSeq c = seq)) as [<- | Hne].
    + rewrite lookup_insert_eq in Hq. injection Hq as <-. simpl.
      split; [done |]. split; [lia |]. intros Hin.
      apply (inv_settled c Hinv) in Hin. lia.
    + rewrite lookup_insert_ne in Hq by done.
      destruct (inv_pending c Hinv _ _ Hq) as (? & ? & ?). split; [done |]. split; [lia | done].
  - intros seq Hin. apply (inv_settled c Hinv) in Hin. lia.
  - apply Hinv.
  - intros seq Hseq. destruct (decide (nextSeq c = seq)) as [<- | Hne].
    + left. rewrite lookup_insert_eq. eauto.
    + rewrite lookup_insert_ne by done. apply (inv_issued c Hinv). lia.
Qed.

Lemma inv_handleMessage (message : DAPMessage) (c : Client) :
  inv c -> inv (handleMessage message c).
Proof.
  intros Hinv. destruct message as [s rs ok cmd msg body | s ev body |]; simpl; [| | done].
  - destruct (pendingRequests c !! rs) as [p |] eqn:Hp; [| done].
    destruct (inv_pending c Hinv _ _ Hp) as (Hpr & Hrange & Hfresh).
    assert (Hgoal : forall st, inv (settle p st
              (mkClient (process c) (nextSeq c) (delete rs (pendingRequests c))
                 (initialized c) (eventBus c) (settled c)))).
    { intros st. constructor; simpl.
      - apply Hinv.
      - intros seq q Hq. destruct (decide (rs = seq)) as [<- | Hne].
        + by rewrite lookup_delete_eq in Hq.
        + rewrite lookup_delete_ne in Hq by done.
          destruct (inv_pending c Hinv _ _ Hq) as (? & ? & ?).
          split; [done |]. split; [done |].
          rewrite not_elem_of_cons. split; [congruence | done].
      - intros seq Hin. apply elem_of_cons in Hin as [-> | Hin].
        + by rewrite Hpr.
        + by apply (inv_settled c Hinv).
      - apply NoDup_cons. split; [by rewrite Hpr | apply Hinv].
      - intros seq Hseq. destruct (decide (rs = seq)) as [<- | Hne].
        + right. rewrite Hpr. left.
        + rewrite lookup_delete_ne by done.
          destruct (inv_issued c Hinv seq Hseq) as [H | H]; [by left |].
          right. by right. }
    destruct ok; apply Hgoal.
  - constructor; simpl; apply Hinv.
Qed.

Lemma exit_rejected_keys (code : option Z) (c : Client) :
  inv c ->
  fst <$> ((fun kv : Z * PendingCall => (promise (snd kv), Reject (exit_error code)))
             <$> map_to_list (pendingRequests c))
  = fst <$> map_to_list (pendingRequests c).
Proof.
  intros Hinv. rewrite <- list_fmap_compose. apply list_fmap_ext.
  intros i [k p] Hk. simpl.
  apply list_elem_of_lookup_2, elem_of_map_to_list in Hk.
  by destruct (inv_pending c Hinv _ _ Hk).
Qed.

Lemma inv_handleExit (code : option Z) (c : Client) :
  inv c -> inv (handleExit code c).
Proof.
  intros Hinv. unfold handleExit.
  constructor; simpl.
  - apply Hinv.
  - intros seq p H. by rewrite lookup_empty in H.
  - intros seq Hin. rewrite fmap_app, fmap_reverse, exit_rejected_keys in Hin by done.
    apply elem_of_app in Hin as [Hin | Hin]; [| by apply (inv_settled c Hinv)].
    apply elem_of_reverse, list_elem_of_fmap in Hin as ([k p] & -> & Hk).
    apply elem_of_map_to_list in Hk. simpl.
    by destruct (inv_pending c Hinv _ _ Hk) as (_ & ? & _).
  - rewrite fmap_app, fmap_reverse, exit_rejected_keys by done.
    apply NoDup_app. split; [| split; [| apply Hinv]].
    + rewrite reverse_Permutation. apply NoDup_fst_map_to_list.
    + intros seq Hin. apply elem_of_reverse, list_elem_of_fmap in Hin as ([k p] & -> & Hk).
      apply elem_of_map_to_list in Hk. simpl.
      by destruct (inv_pending c Hinv _ _ Hk) as (_ & _ & ?).
  - intros seq Hseq. right.
    rewrite fmap_app, fmap_reverse, exit_rejected_keys by done.
    apply elem_of_app.
    destruct (inv_issued c Hinv seq Hseq) as [[p Hp] | H]; [left | by right].
    apply elem_of_reverse, list_elem_of_fmap. exists (seq, p).
    split; [done |]. by apply elem_of_map_to_list.
Qed.

Lemma inv_step (c : Client) (i : Input) : inv c -> inv (step c i).
Proof.
  intros Hinv. destruct i; simpl.
  - by apply inv_sendRequest.
  - by apply inv_handleMessage.
  - by apply inv_handleExit.
Qed.

Lemma inv_run (inputs : list Input) (c : Client) : inv c -> inv (run inputs c).
Proof.
  revert c. induction inputs as [| i inputs IH]; intros c Hinv; simpl; [done |].
  apply IH, inv_step, Hinv.
Qed.

Import ListAux.

Lemma settlements_of_issued (c : Client) (seq : Z) :
  inv c -> 1 <= seq < nextSeq c ->
  (is_Some (pendingRequests c !! seq) /\ settlements_of seq c = []) \/
  (pendingRequests c !! seq = None /\ exists s, settlements_of seq c = [s]).
Proof.
  intros Hinv Hseq. unfold settlements_of.
  destruct (pendingRequests c !! seq) as [p |] eqn:Hp.
  - left. split; [eauto |].
    destruct (inv_pending c Hinv _ _ Hp) as (_ & _ & Hfresh).
    by rewrite filter_fst_fresh.
  - right. split; [done |].
    destruct (inv_issued c Hinv seq Hseq) as [[p Hp'] | Hin]; [congruence |].
    destruct (filter_fst_once seq (settled c) (inv_once c Hinv) Hin) as [v Hv].
    exists v. by rewrite Hv.
Qed.

(** ** The properties of the multiplexer *)

(** C2, as amended. After any sequence of [sendRequest] calls, arriving
    messages and process exits on a started client:
    - every call made so far is either still pending and not settled, or
      no longer pending and settled exactly once; no call is ever
      settled twice, and nothing else is ever settled;
    - a response whose [request_seq] is pending removes that entry and
      resolves or rejects it by the [success] flag;
    - a response whose [request_seq] is not pending changes nothing;
    - process exit empties the table, rejects every call that was still
      pending with the exit-code error, and leaves every call made so
      far settled exactly once. *)
Theorem pending_call_settled_at_most_once (inputs : list Input) :
  let c := run inputs started in
  (forall seq, 1 <= seq < nextSeq c ->
     (is_Some (pendingRequests c !! seq) /\ settlements_of seq c = []) \/
     (pendingRequests c !! seq = None /\ exists s, settlements_of seq c = [s])) /\
  (forall seq, ~ (1 <= seq < nextSeq c) ->
     pendingRequests c !! seq = None /\ settlements_of seq c = []) /\
  (forall s rs ok cmd msg body p,
     pendingRequests c !! rs = Some p ->
     let c' := handleMessage (Response s rs ok cmd msg body) c in
     pendingRequests c' = delete rs (pendingRequests c) /\
     settled c' =
       (rs, if ok then Resolve body
            else Reject (DAPError (failure_message msg) body)) :: settled c) /\
  (forall s rs ok cmd msg body,
     pendingRequests c !! rs = None ->
     handleMessage (Response s rs ok cmd msg body) c = c) /\
  (forall code,
     let c' := handleExit code c in
     pendingRequests c' = ∅ /\
     forall seq, 1 <= seq < nextSeq c ->
       exists s, settlements_of seq c' = [s] /\
         (is_Some (pendingRequests c !! seq) -> s = Reject (exit_error code))).
Proof.
  intros c. assert (Hinv : inv c) by apply inv_run, inv_started.
  split; [| split; [| split; [| split]]].
  - intros seq Hseq. by apply settlements_of_issued.
  - intros seq Hseq. split.
    + destruct (pendingRequests c !! seq) as [p |] eqn:Hp; [| done].
      destruct (inv_pending c Hinv _ _ Hp) as (_ & ? & _). contradiction.
    + unfold settlements_of. rewrite filter_fst_fresh; [done |].
      intros Hin. by apply (inv_settled c Hinv) in Hin.
  - intros s rs ok cmd msg body p Hp. simpl. rewrite Hp.
    destruct (inv_pending c Hinv _ _ Hp) as (Hpr & _).
    destruct ok; unfold settle; simpl; rewrite Hpr; done.
  - intros s rs ok cmd msg body Hp. simpl. by rewrite Hp.
  - intros code c'. split; [done |]. intros seq Hseq.
    assert (Hinv' : inv c') by apply inv_handleExit, Hinv.
    destruct (settlements_of_issued c' seq Hinv' Hseq) as [[[p Hp] _] | [_ [v Hv]]].
    { unfold c' in Hp. simpl in Hp. by rewrite lookup_empty in Hp. }
    exists v. split; [done |]. intros [p Hp].
    assert (Hin : (seq, Reject (exit_error code)) ∈ settled c').
    { unfold c', handleExit; simpl. apply elem_of_app. left.
      apply elem_of_reverse, list_elem_of_fmap. exists (seq, p). simpl.
      destruct (inv_pending c Hinv _ _ Hp) as (Hpr & _).
      split; [by rewrite Hpr |]. by apply elem_of_map_to_list. }
    assert (Hin' : Reject (exit_error code) ∈ settlements_of seq c').
    { unfold settlements_of. apply list_elem_of_fmap.
      exists (seq, Reject (exit_error code)). split; [done |].
      by apply list_elem_of_filter. }
    rewrite Hv in Hin'. by apply list_elem_of_singleton in Hin'.
Qed.

Lemma pending_call_settled_at_most_once_witness :
  handleMessage (Response 7 9 true "next" None JsNull)
    (run [Send "next" JsNull] started)
  = run [Send "next" JsNull] started.
Proof.
  apply (proj1 (proj2 (proj2 (proj2
           (pending_call_settled_at_most_once [Send "next" JsNull]))))).
  vm_compute. reflexivity.
Defined.

(** C2 as stated fails: a call whose response never arrives, on a
    process that does not exit, stays in [pendingRequests] and is
    settled not once but never; a response for another [request_seq]
    does not change that. *)
Lemma unanswered_call_is_never_settled :
  let c := run [Send "next" JsNull; Receive (ok_response 5 JsNull)] started in
  pendingRequests c !! 1 = Some (mkPending 1) /\
  settlements_of 1 c = [] /\
  length (settlements_of 1 c) <> 1%nat.
Proof. vm_compute. split; [done |]. split; [done |]. discriminate. Qed.

(** ** disconnect *)

(** The continuation of [initialize()] once its request resolved. *)
Definition mark_initialized (c : Client) : Client :=
  mkClient (process c) (nextSeq c) (pendingRequests c) true (eventBus c) (settled c).

Definition is_settled (seq : Z) (c : Client) : bool :=
  bool_decide (seq ∈ fst <$> settled c).

(** [await] on the promise of request [seq]: the inputs that arrive are
    handled one by one until the promise is settled; [None] when they
    run out first, and the caller waits for ever. *)
Fixpoint await_request (seq : Z) (inputs : list Input) (c : Client)
  : option (Client * list Input) :=
  match inputs with
  | [] => if is_settled seq c then Some (c, []) else None
  | i :: rest =>
      if is_settled seq c then Some (c, inputs)
      else await_request seq rest (step c i)
  end.

(** [process.kill()] *)
Definition kill (p : Proc) : Proc := mkProc (has_stdin p) true (written p).

(** The part of [disconnect] after the [try]: kill the process if there
    is one, clear the bus, reset the flag. *)
Definition release (c : Client) : Client :=
  mkClient (kill <$> process c) (nextSeq c) (pendingRequests c) false
    (EventBus.clear (eventBus c)) (settled c).

Definition disconnect_arguments : JsValue :=
  JsObj [("terminateDebuggee"%string, JsBool true)].

(** [disconnect()], with the inputs that arrive while it waits for the
    answer to its request: the promise it hands back, and the client. *)
Definition disconnect (inputs : list Input) (c : Client) : Promise unit * Client :=
  if negb (initialized c) then (Resolved tt, c)
  else
    match sendRequest "disconnect" disconnect_arguments c with
    | (inl _, c1) => (Resolved tt, release c1)
    | (inr seq, c1) =>
        match await_request seq inputs c1 with
        | Some (c2, _) => (Resolved tt, release c2)
        | None => (Pending, run inputs c1)
        end
    end.

(** The process was signalled to terminate. *)
Definition process_killed (c : Client) : Prop :=
  exists p, process c = Some p /\ killed p = true.

(** An input that settles the request [seq] if it is pending. *)
Definition answers (seq : Z) (i : Input) : Prop :=
  match i with
  | Exit _ => True
  | Receive (Response _ rs _ _ _ _) => rs = seq
  | _ => False
  end.

Lemma nextSeq_step (c : Client) (i : Input) : nextSeq c <= nextSeq (step c i).
Proof.
  destruct i as [cmd a | m | code]; simpl; [| | lia].
  - unfold sendRequest. destruct (process c) as [p |]; [| simpl; lia].
    destruct (has_stdin p); simpl; lia.
  - destruct m as [s rs ok cmd msg body | s ev body |]; simpl; [| lia | lia].
    destruct (pendingRequests c !! rs); [| lia]. destruct ok; simpl; lia.
Qed.

Lemma answer_settles (seq : Z) (i : Input) (c : Client) :
  inv c -> is_Some (pendingRequests c !! seq) -> answers seq i ->
  seq ∈ fst <$> settled (step c i).
Proof.
  intros Hinv [p Hp] Hans.
  destruct (inv_pending c Hinv _ _ Hp) as (Hpr & _).
  destruct i as [cmd a | m | code]; simpl in *; [done | |].
  - destruct m as [s rs ok cmd msg body | s ev body |]; [| done | done].
    subst rs. simpl. rewrite Hp. destruct ok; simpl; rewrite Hpr; left.
  - rewrite fmap_app. apply elem_of_app. left.
    rewrite fmap_reverse. apply elem_of_reverse.
    rewrite exit_rejected_keys by done.
    apply list_elem_of_fmap. exists (seq, p). split; [done |].
    by apply elem_of_map_to_list.
Qed.

Lemma await_request_settled (seq : Z) (inputs : list Input) (c : Client) :
  seq ∈ fst <$> settled c -> await_request seq inputs c = Some (c, inputs).
Proof.
  intros Hin. destruct inputs; simpl; unfold is_settled;
    by rewrite bool_decide_eq_true_2.
Qed.

(** The wait ends as soon as an answer to the request, or the exit of
    the process, is among the inputs. *)
Lemma await_request_answered (seq : Z) (inputs : list Input) (c : Client) :
  inv c -> 1 <= seq < nextSeq c -> Exists (answers seq) inputs ->
  exists c2 rest, await_request seq inputs c = Some (c2, rest).
Proof.
  revert c. induction inputs as [| i inputs IH]; intros c Hinv Hseq Hex.
  - by apply Exists_nil in Hex.
  - simpl. unfold is_settled. case_bool_decide as Hs; [eauto |].
    destruct (inv_issued c Hinv seq Hseq) as [Hp | Hin]; [| contradiction].
    apply Exists_cons in Hex as [Hans | Hex].
    + rewrite await_request_settled; [eauto |]. by apply answer_settles.
    + apply IH; [by apply inv_step | | done].
      pose proof (nextSeq_step c i). lia.
Qed.

Lemma step_process (c : Client) (i : Input) :
  is_Some (process c) -> is_Some (process (step c i)).
Proof.
  intros [p Hp]. destruct i as [cmd a | m | code]; simpl.
  - unfold sendRequest. rewrite Hp. destruct (has_stdin p); simpl; eauto.
  - destruct m as [s rs ok cmd msg body | s ev body |]; simpl; eauto.
    destruct (pendingRequests c !! rs); eauto. destruct ok; simpl; eauto.
  - eauto.
Qed.

Lemma await_request_process (seq : Z) (inputs : list Input) (c c2 : Client)
    (rest : list Input) :
  await_request seq inputs c = Some (c2, rest) ->
  is_Some (process c) -> is_Some (process c2).
Proof.
  revert c. induction inputs as [| i inputs IH]; intros c; simpl.
  - destruct (is_settled seq c); [| discriminate]. intros [= <- <-]. done.
  - destruct (is_settled seq c); [intros [= <- <-]; done |].
    intros Haw Hp. eapply IH; [done |]. by apply step_process.
Qed.

Lemma release_spec (c : Client) :
  (is_Some (process c) -> process_killed (release c)) /\
  EventBus.waiters (eventBus (release c)) = [] /\
  initialized (release c) = false.
Proof.
  split; [| split; reflexivity].
  intros [p Hp]. exists (kill p). unfold release; simpl. by rewrite Hp.
Qed.

(** There is no process, or no pipe, to write the request to. *)
Definition cannot_write (c : Client) : Prop :=
  match process c with
  | Some p => has_stdin p = false
  | None => True
  end.

(** C7, as amended. [disconnect()] never rejects. On a client that is
    not initialized it does nothing at all. On an initialized client,
    once the graceful request is out of the way (it could not be
    written, or its answer arrived, with success or with failure, or the
    process exited), the owned process is killed, the event bus is
    cleared and the client is no longer initialized, and the promise of
    [disconnect] resolves. *)
Theorem disconnect_releases_after_graceful_attempt (c : Client) (inputs : list Input) :
  (forall e, fst (disconnect inputs c) <> Rejected e) /\
  (initialized c = false -> disconnect inputs c = (Resolved tt, c)) /\
  (initialized c = true -> fst (disconnect inputs c) = Resolved tt ->
     let c' := snd (disconnect inputs c) in
     (is_Some (process c) -> process_killed c') /\
     EventBus.waiters (eventBus c') = [] /\
     initialized c' = false) /\
  (inv c -> initialized c = true ->
     cannot_write c \/ Exists (answers (nextSeq c)) inputs ->
     fst (disconnect inputs c) = Resolved tt).
Proof.
  split; [| split; [| split]].
  - intros e. unfold disconnect. destruct (initialized c); simpl; [| done].
    destruct (sendRequest _ _ c) as [[err | seq] c1]; simpl; [done |].
    destruct (await_request seq inputs c1) as [[c2 rest] |]; simpl; done.
  - intros Hi. unfold disconnect. by rewrite Hi.
  - intros Hi. unfold disconnect. rewrite Hi. simpl.
    unfold sendRequest. destruct (process c) as [p |] eqn:Hp.
    + destruct (has_stdin p) eqn:Hstdin; simpl.
      * match goal with |- context [await_request ?s ?i ?c1] =>
          destruct (await_request s i c1) as [[c2 rest] |] eqn:Haw end; simpl;
          [| discriminate].
        intros _. destruct (release_spec c2) as (Hk & Hw & Hf).
        split; [| done]. intros _. apply Hk.
        eapply await_request_process; [exact Haw |]. simpl. eauto.
      * intros _. destruct (release_spec c) as (Hk & Hw & Hf).
        split; [| done]. intros _. apply Hk. rewrite Hp. eauto.
    + simpl. intros _. split; [| done]. intros [p' Hp']. discriminate.
  - intros Hinv Hi Hcase. unfold disconnect. rewrite Hi. simpl.
    unfold cannot_write in Hcase. unfold sendRequest.
    destruct (process c) as [p |] eqn:Hp; [| done].
    destruct (has_stdin p) eqn:Hstdin; [| done]. simpl.
    destruct Hcase as [Hno | Hex]; [discriminate |].
    match goal with |- context [await_request ?s ?i ?c1] =>
      destruct (await_request_answered s i c1) as (c2 & rest & ->) end; try done.
    + pose proof (inv_sendRequest "disconnect" disconnect_arguments c Hinv) as H.
      unfold sendRequest in H. rewrite Hp, Hstdin in H. exact H.
    + simpl. pose proof (inv_next c Hinv). lia.
Qed.

(** A started client with one caller waiting for a stop event. *)
Definition started_with_waiter : Client :=
  mkClient (Some (mkProc true false [])) 1 ∅ false
    (snd (EventBus.waitFor "stopped" EventBus.no_options EventBus.empty)) [].

Lemma disconnect_releases_after_graceful_attempt_witness :
  fst (disconnect [Receive (failed_response 1 "not now")]
         (mark_initialized started_with_waiter)) = Resolved tt.
Proof.
  apply (proj2 (proj2 (proj2
           (disconnect_releases_after_graceful_attempt
              (mark_initialized started_with_waiter)
              [Receive (failed_response 1 "not now")])))).
  - constructor; simpl.
    + lia.
    + intros seq p H. by rewrite lookup_empty in H.
    + intros seq H. by apply not_elem_of_nil in H.
    + constructor.
    + intros seq H. lia.
  - reflexivity.
  - right. apply Exists_cons. left. reflexivity.
Defined.

Example disconnect_after_failed_request :
  let r := disconnect [Receive (failed_response 1 "not now")]
             (mark_initialized started_with_waiter) in
  fst r = Resolved tt /\
  process (snd r) = Some (mkProc true true [mkRequest 1 "disconnect" disconnect_arguments]) /\
  EventBus.waiters (eventBus (snd r)) = [] /\
  settlements_of 1 (snd r) = [Reject (DAPError "not now" JsUndefined)].
Proof. vm_compute. done. Qed.

(** C7 as stated fails in two ways. On a client that was started but is
    not initialized, [disconnect()] returns at once: the process is not
    killed and the waiter stays on the bus. On an initialized client
    whose adapter neither answers nor exits, [disconnect()] never gets
    past its request: its promise stays pending and the process is not
    killed. *)
Lemma disconnect_can_leave_process_running :
  (let r := disconnect [] started_with_waiter in
   fst r = Resolved tt /\
   process (snd r) = Some (mkProc true false []) /\
   length (EventBus.waiters (eventBus (snd r))) = 1%nat) /\
  (let r := disconnect [Receive (Event 3 "output" JsNull)]
              (mark_initialized started_with_waiter) in
   fst r = Pending /\
   (exists p, process (snd r) = Some p /\ killed p = false) /\
   length (EventBus.waiters (eventBus (snd r))) = 1%nat).
Proof.
  split.
  - vm_compute. done.
  - vm_compute. split; [done |]. split; [eauto | done].
Qed.

(** ** The requests written to the adapter *)

(** The calls to [sendRequest] among the inputs, in order. *)
Fixpoint sends (inputs : list Input) : list (string * JsValue) :=
  match inputs with
  | [] => []
  | Send command args :: rest => (command, args) :: sends rest
  | _ :: rest => sends rest
  end.

(** The requests of these calls when the first of them gets [first] as
    its [seq]. *)
Definition numbered (first : Z) (calls : list (string * JsValue)) : list DAPRequest :=
  imap (fun k call => mkRequest (first + Z.of_nat k) (fst call) (snd call)) calls.

Lemma numbered_cons (first : Z) (call : string * JsValue) (calls : list (string * JsValue)) :
  numbered first (call :: calls) =
  mkRequest first (fst call) (snd call) :: numbered (first + 1) calls.
Proof.
  unfold numbered. rewrite imap_cons. f_equal; [f_equal; lia |].
  apply imap_ext. intros k x _. simpl. f_equal. lia.
Qed.

Lemma run_written (inputs : list Input) (c : Client) (p : Proc) :
  process c = Some p -> has_stdin p = true ->
  exists p', process (run inputs c) = Some p' /\ has_stdin p' = true /\
    killed p' = killed p /\
    written p' = written p ++ numbered (nextSeq c) (sends inputs) /\
    nextSeq (run inputs c) = nextSeq c + Z.of_nat (length (sends inputs)).
Proof.
  revert c p. induction inputs as [| i inputs IH]; intros c p Hp Hin.
  - exists p. simpl. rewrite app_nil_r. repeat split; [done | done | lia].
  - change (run (i :: inputs) c) with (run inputs (step c i)).
    destruct i as [cmd a | m | code].
    + simpl step. unfold sendRequest. rewrite Hp, Hin. cbn [snd].
      edestruct (IH (mkClient
                       (Some (mkProc true (killed p) (written p ++ [mkRequest (nextSeq c) cmd a])))
                       (nextSeq c + 1) (<[nextSeq c := mkPending (nextSeq c)]> (pendingRequests c))
                       (initialized c) (eventBus c) (settled c)))
        as (p' & Hp' & Hin' & Hk & Hw & Hn); [reflexivity | reflexivity |].
      exists p'. split; [exact Hp' |]. split; [done |]. split; [done |].
      cbn [sends]. rewrite numbered_cons. cbn [written nextSeq fst snd length] in *.
      rewrite Hw, Hn, <- app_assoc. split; [reflexivity | lia].
    + assert (Hs : process (step c (Receive m)) = process c /\
                   nextSeq (step c (Receive m)) = nextSeq c).
      { destruct m as [s rs ok cmd msg body | s ev body |]; simpl; [| done | done].
        destruct (pendingRequests c !! rs); [| done]. by destruct ok. }
      destruct Hs as [Hs1 Hs2].
      destruct (IH (step c (Receive m)) p) as (p' & Hp' & Hin' & Hk & Hw & Hn);
        [by rewrite Hs1 | done |].
      exists p'. rewrite Hs2 in Hw, Hn. done.
    + destruct (IH (step c (Exit code)) p) as (p' & Hp' & Hin' & Hk & Hw & Hn);
        [done | done |].
      exists p'. done.
Qed.

(** X15. The requests are written to the adapter in the order of the
    calls to [sendRequest], numbered 1, 2, 3, ... with no gap and no
    repetition, whatever messages arrive or exits happen in between; a
    call on a client with no process to write to throws and uses up no
    number. *)
Theorem requests_are_numbered_in_call_order (inputs : list Input) :
  (exists p, process (run inputs started) = Some p /\
     written p = numbered 1 (sends inputs) /\
     forall k call, sends inputs !! k = Some call ->
       written p !! k = Some (mkRequest (1 + Z.of_nat k) (fst call) (snd call))) /\
  nextSeq (run inputs started) = 1 + Z.of_nat (length (sends inputs)) /\
  (forall command args c, cannot_write c ->
     sendRequest command args c = (inl (DAPError "DAP adapter not started" JsUndefined), c)).
Proof.
  destruct (run_written inputs started (mkProc true false []) eq_refl eq_refl)
    as (p & Hp & _ & _ & Hw & Hn).
  simpl in Hw, Hn. split; [| split; [exact Hn |]].
  - exists p. split; [done |]. split; [done |]. intros k call Hk.
    rewrite Hw. unfold numbered. rewrite list_lookup_imap, Hk. reflexivity.
  - intros command args c Hc. unfold sendRequest, cannot_write in *.
    destruct (process c) as [p' |]; [| done]. by rewrite Hc.
Qed.

(** X16. When the adapter process exits, the callers that wait on the
    event bus are rejected as cleared, no waiter or timer is left, and
    the client is no longer initialized, so that a later [disconnect]
    returns at once and changes nothing. *)
Theorem exit_rejects_bus_waiters (code : option Z) (c : Client) :
  EventBus.wf (eventBus c) ->
  let c' := handleExit code c in
  initialized c' = false /\ pendingRequests c' = ∅ /\ process c' = process c /\
  EventBus.waiters (eventBus c') = [] /\ EventBus.timers (eventBus c') = [] /\
  (forall w, w ∈ EventBus.waiters (eventBus c) ->
     EventBus.settlements_of (EventBus.wid w) (eventBus c') = [EventBus.RejectedCleared]) /\
  (forall inputs, disconnect inputs c' = (Resolved tt, c')).
Proof.
  intros Hwf c'. unfold c', handleExit. cbn [initialized pendingRequests process eventBus].
  rewrite EventBus.clear_spec by done. cbn [EventBus.waiters EventBus.timers].
  repeat split.
  intros w Hw. rewrite <- EventBus.clear_spec by done.
  by destruct (EventBus.clear_gone w _ Hwf Hw) as (_ & _ & Hlog).
Qed.

Lemma exit_rejects_bus_waiters_witness :
  EventBus.settlements_of 0%nat (eventBus (handleExit (Some 1) started_with_waiter))
  = [EventBus.RejectedCleared].
Proof.
  refine (proj1 (proj2 (proj2 (proj2 (proj2 (proj2
            (exit_rejects_bus_waiters (Some 1) started_with_waiter _))))))
            (EventBus.mkWaiter 0 "stopped" 0) _).
  - apply EventBus.wf_waitFor, EventBus.wf_empty.
  - vm_compute. left.
Defined.

(** ** initialize *)

Definition initialize_arguments : JsValue :=
  JsObj [("clientID"%string, JsStr "lcp");
         ("clientName"%string, JsStr "Language Context Provider");
         ("adapterID"%string, JsStr "python");
         ("pathFormat"%string, JsStr "path");
         ("linesStartAt1"%string, JsBool true);
         ("columnsStartAt1"%string, JsBool true);
         ("supportsVariableType"%string, JsBool true);
         ("supportsVariablePaging"%string, JsBool false);
         ("supportsRunInTerminalRequest"%string, JsBool false);
         ("locale"%string, JsStr "en-US")].

(** How the promise of request [seq] was settled, if it was. *)
Definition outcome (seq : Z) (c : Client) : option Settlement :=
  head (settlements_of seq c).

(** [initialize()], with the inputs that arrive while it waits for the
    answer to its request. *)
Definition initialize (inputs : list Input) (c : Client) : Promise JsValue * Client :=
  match sendRequest "initialize" initialize_arguments c with
  | (inl e, c1) => (Rejected e, c1)
  | (inr seq, c1) =>
      match await_request seq inputs c1 with
      | Some (c2, _) =>
          match outcome seq c2 with
          | Some (Resolve body) => (Resolved body, mark_initialized c2)
          | Some (Reject e) => (Rejected e, c2)
          | None => (Pending, c2)
          end
      | None => (Pending, run inputs c1)
      end
  end.

(** What no input changes: whether the process was killed, and an
    [initialized] flag that is off. *)
Lemma step_keeps_off (c : Client) (i : Input) :
  (initialized c = false -> initialized (step c i) = false) /\
  killed <$> process (step c i) = killed <$> process c.
Proof.
  destruct c as [pr n pend ini bus st].
  destruct i as [cmd a | m | code]; simpl.
  - unfold sendRequest. simpl. destruct pr as [p |]; [| done].
    destruct (has_stdin p); done.
  - destruct m as [s rs ok cmd msg body | s ev body |]; simpl; [| done | done].
    destruct (pend !! rs); [| done]. by destruct ok.
  - done.
Qed.

Lemma run_keeps_off (inputs : list Input) (c : Client) :
  (initialized c = false -> initialized (run inputs c) = false) /\
  killed <$> process (run inputs c) = killed <$> process c.
Proof.
  revert c. induction inputs as [| i inputs IH]; intros c; [done |].
  change (run (i :: inputs) c) with (run inputs (step c i)).
  destruct (IH (step c i)) as [H1 H2]. destruct (step_keeps_off c i) as [H3 H4].
  split; [auto | congruence].
Qed.

Lemma await_request_keeps_off (seq : Z) (inputs : list Input) (c c2 : Client)
    (rest : list Input) :
  await_request seq inputs c = Some (c2, rest) ->
  (initialized c = false -> initialized c2 = false) /\
  killed <$> process c2 = killed <$> process c.
Proof.
  revert c. induction inputs as [| i inputs IH]; intros c; simpl.
  - destruct (is_settled seq c); [| done]. by intros [= <- <-].
  - destruct (is_settled seq c); [by intros [= <- <-] |].
    intros H. destruct (IH _ H) as [H1 H2]. destruct (step_keeps_off c i) as [H3 H4].
    split; [auto | congruence].
Qed.

(** The answer to a pending request ends the wait for it. *)
Lemma await_request_first (seq : Z) (i : Input) (rest : list Input) (c : Client) :
  inv c -> is_Some (pendingRequests c !! seq) -> answers seq i ->
  await_request seq (i :: rest) c = Some (step c i, rest).
Proof.
  intros Hinv [p Hp] Hans. simpl.
  destruct (inv_pending c Hinv seq p Hp) as (_ & _ & Hnot).
  unfold is_settled at 1. rewrite bool_decide_eq_false_2 by done.
  apply await_request_settled. apply answer_settles; eauto.
Qed.

(** X17. [initialize()] sets the [initialized] flag only when its
    request succeeds. When the adapter answers with a failure, the
    promise rejects with the adapter's message and the flag stays off,
    so that [disconnect] returns at once and the adapter process is not
    killed. *)
Theorem initialize_marks_success_only (inputs : list Input) (c : Client) :
  initialized c = false ->
  let r := initialize inputs c in
  (forall body, fst r = Resolved body -> initialized (snd r) = true) /\
  (forall e, fst r = Rejected e ->
     initialized (snd r) = false /\
     killed <$> process (snd r) = killed <$> process c /\
     forall later, disconnect later (snd r) = (Resolved tt, snd r)) /\
  (inv c -> ~ cannot_write c ->
   forall s ok cmd msg body rest,
     inputs = Receive (Response s (nextSeq c) ok cmd msg body) :: rest ->
     fst r = if ok then Resolved body
             else Rejected (DAPError (failure_message msg) body)).
Proof.
  intros Hoff r. unfold r, initialize.
  assert (Hsend : forall x c1, sendRequest "initialize" initialize_arguments c = (x, c1) ->
            initialized c1 = false /\ killed <$> process c1 = killed <$> process c).
  { intros x c1 Hx.
    destruct (step_keeps_off c (Send "initialize" initialize_arguments)) as [H1 H2].
    simpl in H1, H2. rewrite Hx in H1, H2. auto. }
  split; [| split].
  - intros body.
    destruct (sendRequest "initialize" initialize_arguments c) as [[e | seq] c1]; [done |].
    destruct (await_request seq inputs c1) as [[c2 rest] |]; [| done].
    destruct (outcome seq c2) as [[b | e] |]; done.
  - intros e.
    destruct (sendRequest "initialize" initialize_arguments c) as [[e1 | seq] c1] eqn:Hs.
    + destruct (Hsend _ _ eq_refl) as [H1 H2]. cbn [fst snd]. intros _.
      split; [done |]. split; [done |]. intros later. unfold disconnect. by rewrite H1.
    + destruct (Hsend _ _ eq_refl) as [H1 H2].
      destruct (await_request seq inputs c1) as [[c2 rest] |] eqn:Ha; [| done].
      destruct (await_request_keeps_off _ _ _ _ _ Ha) as [H3 H4].
      destruct (outcome seq c2) as [[b | e2] |]; [done | | done].
      cbn [fst snd]. intros _. split; [auto |]. split; [congruence |].
      intros later. unfold disconnect. by rewrite H3.
  - intros Hinv Hcan s ok cmd msg body rest ->.
    pose proof (inv_sendRequest "initialize" initialize_arguments c Hinv) as Hinv1.
    unfold sendRequest in *. unfold cannot_write in Hcan.
    destruct (process c) as [p |]; [| done].
    destruct (has_stdin p); [| done]. cbn [snd] in Hinv1.
    rewrite await_request_first; [| done | | done].
    + unfold outcome, settlements_of. simpl.
      rewrite lookup_insert_eq. destruct ok; simpl.
      * rewrite filter_cons_True by done. reflexivity.
      * rewrite filter_cons_True by done. reflexivity.
    + simpl. rewrite lookup_insert_eq. eauto.
Qed.

Lemma initialize_marks_success_only_witness :
  fst (initialize [Receive (failed_response 1 "no python")] started)
  = Rejected (DAPError "no python" JsUndefined).
Proof.
  refine (proj2 (proj2 (initialize_marks_success_only
                          [Receive (failed_response 1 "no python")] started _))
            _ _ 0 false ""%string (Some "no python"%string) JsUndefined [] _).
  - reflexivity.
  - apply inv_started.
  - vm_compute. discriminate.
  - reflexivity.
Defined.

(** ** Requests made after the adapter exited *)

(** A pending call stays pending as long as neither its response nor
    the exit of the process arrives. *)
Lemma pending_stays (seq : Z) (i : Input) (c : Client) :
  inv c -> is_Some (pendingRequests c !! seq) -> ~ answers seq i ->
  is_Some (pendingRequests (step c i) !! seq).
Proof.
  intros Hinv [p Hp] Hans. destruct (inv_pending c Hinv seq p Hp) as (_ & Hlt & _).
  destruct i as [cmd a | m | code]; simpl in *.
  - unfold sendRequest. destruct (process c) as [pr |]; [| eauto].
    destruct (has_stdin pr); [| eauto]. simpl.
    rewrite lookup_insert_ne by lia. eauto.
  - destruct m as [s rs ok cmd msg body | s ev body |]; simpl; [| eauto | eauto].
    destruct (pendingRequests c !! rs) as [q |] eqn:Hq; [| eauto].
    destruct ok; simpl; rewrite lookup_delete_ne by done; eauto.
  - tauto.
Qed.

Lemma pending_stays_run (seq : Z) (inputs : list Input) (c : Client) :
  inv c -> is_Some (pendingRequests c !! seq) -> Forall (fun i => ~ answers seq i) inputs ->
  is_Some (pendingRequests (run inputs c) !! seq).
Proof.
  revert c. induction inputs as [| i inputs IH]; intros c Hinv Hp Hall; [done |].
  apply Forall_cons in Hall as [Hi Hall].
  change (run (i :: inputs) c) with (run inputs (step c i)).
  apply IH; [by apply inv_step | by apply pending_stays | done].
Qed.

(** X3. The guard of [sendRequest] does not see that the adapter has
    exited: a call made after [handleExit] does not throw. It is
    numbered, written and entered in [pendingRequests], and its promise
    stays pending, with no settlement, as long as neither a response to
    it nor another exit arrives. *)
Theorem request_after_exit_stays_pending (inputs later : list Input) (code : option Z)
    (command : string) (args : JsValue) :
  let c := handleExit code (run inputs started) in
  let r := sendRequest command args c in
  pendingRequests c = ∅ /\
  fst r = inr (nextSeq c) /\
  (exists p, process (snd r) = Some p /\
     last (written p) = Some (mkRequest (nextSeq c) command args)) /\
  (Forall (fun i => ~ answers (nextSeq c) i) later ->
     is_Some (pendingRequests (run later (snd r)) !! nextSeq c) /\
     settlements_of (nextSeq c) (run later (snd r)) = []).
Proof.
  intros c r.
  assert (Hinv : inv c) by (apply inv_handleExit, inv_run, inv_started).
  destruct (run_written inputs started (mkProc true false []) eq_refl eq_refl)
    as (p & Hp & Hin & _ & _ & _).
  assert (Hpc : process c = Some p) by exact Hp.
  pose proof (inv_sendRequest command args c Hinv) as Hinv'.
  assert (Hr : r = (inr (nextSeq c),
            mkClient (Some (mkProc (has_stdin p) (killed p)
                              (written p ++ [mkRequest (nextSeq c) command args])))
              (nextSeq c + 1) (<[nextSeq c := mkPending (nextSeq c)]> (pendingRequests c))
              (initialized c) (eventBus c) (settled c))).
  { unfold r, sendRequest. by rewrite Hpc, Hin. }
  fold r in Hinv'. rewrite Hr in *. cbn [fst snd] in *.
  split; [done |]. split; [done |]. split.
  - eexists. split; [reflexivity |]. cbn [written]. apply last_snoc.
  - intros Hlater.
    match goal with |- context [run later ?c1] => set (c1' := c1) in * end.
    assert (Hpend : is_Some (pendingRequests (run later c1') !! nextSeq c)).
    { apply pending_stays_run; [done | | done].
      unfold c1'. cbn [pendingRequests]. rewrite lookup_insert_eq. eauto. }
    split; [done |]. destruct Hpend as [q Hq].
    destruct (inv_pending _ (inv_run later c1' Hinv') _ _ Hq) as (_ & _ & Hnot).
    unfold settlements_of. by rewrite (filter_fst_fresh _ _ Hnot).
Qed.

End DAPClient.

(* ===================================================================== *)
(** * src/core/session.ts: the session store *)
(* ===================================================================== *)

Module SessionStore.
Import Js ErrorHandler ListAux.

(** A language or debug client owned by a session; the store only calls
    its [shutdown()] or [disconnect()] and awaits the promise. *)
Record ClientRef : Type := mkClientRef { client_id : nat }.

(** [interface Session], without the file and diagnostic tables, which
    the store never reads. Times are milliseconds since the epoch. *)
Record Session : Type := mkSession {
  id : string;
  createdAt : Z;
  lastAccessedAt : Z;
  workspaceRoot : string;
  lspClient : option ClientRef;
  lspClients : list (string * ClientRef);
  dapClient : option ClientRef
}.

(** The store. [deleting] lists the calls of [delete] that are suspended
    at an [await] on a client's shutdown. *)
Record Store : Type := mkStore {
  sessions : gmap string Session;
  sessionTimeout : Z;
  deleting : list string
}.

(** [new SessionStore(sessionTimeoutMs = 30 * 60 * 1000)] *)
Definition new_store (sessionTimeoutMs : option Z) : Store :=
  mkStore ∅ (default (30 * 60 * 1000) sessionTimeoutMs) [].

(** [create(workspaceRoot)]; [newId] is what [uuidv4()] gives and [now]
    what [new Date()] reads. *)
Definition create (newId : string) (now : Z) (root : string) (st : Store)
  : Session * Store :=
  let session := mkSession newId now now root None [] None in
  (session, mkStore (<[newId := session]> (sessions st)) (sessionTimeout st) (deleting st)).

Definition touch (now : Z) (s : Session) : Session :=
  mkSession (id s) (createdAt s) now (workspaceRoot s)
    (lspClient s) (lspClients s) (dapClient s).

(** [get(sessionId)] *)
Definition get (sessionId : string) (now : Z) (st : Store) : (Thrown + Session) * Store :=
  match sessions st !! sessionId with
  | None => (inl (SessionError ("Session not found: " ++ sessionId) JsUndefined), st)
  | Some session =>
      let session' := touch now session in
      (inr session',
       mkStore (<[sessionId := session']> (sessions st)) (sessionTimeout st) (deleting st))
  end.

(** [has(sessionId)] *)
Definition has (sessionId : string) (st : Store) : bool :=
  bool_decide (is_Some (sessions st !! sessionId)).

(** Whether [delete] has a shutdown to await for this session: a legacy
    LSP client, an entry of [lspClients], or a DAP client. *)
Definition owns_clients (s : Session) : bool :=
  match lspClient s, lspClients s, dapClient s with
  | None, [], None => false
  | _, _, _ => true
  end.

(** [delete(sessionId)] up to its first [await]. With nothing to await
    the body runs through and the session is removed at once. *)
Definition delete_begin (sessionId : string) (st : Store) : Store :=
  match sessions st !! sessionId with
  | None => st
  | Some session =>
      if owns_clients session
      then mkStore (sessions st) (sessionTimeout st) (deleting st ++ [sessionId])
      else mkStore (delete sessionId (sessions st)) (sessionTimeout st) (deleting st)
  end.

Fixpoint remove_first (x : string) (l : list string) : list string :=
  match l with
  | [] => []
  | y :: rest => if decide (x = y) then rest else y :: remove_first x rest
  end.

(** The rest of a suspended [delete(sessionId)], run when the awaited
    shutdowns have settled (a failure is caught and logged):
    [this.sessions.delete(sessionId)]. *)
Definition delete_finish (sessionId : string) (st : Store) : Store :=
  if decide (sessionId ∈ deleting st)
  then mkStore (delete sessionId (sessions st)) (sessionTimeout st)
         (remove_first sessionId (deleting st))
  else st.

(** The ids that [cleanup] collects in [expiredSessions]. *)
Definition expired (now : Z) (st : Store) : list string :=
  fst <$> filter (fun kv => now - lastAccessedAt (snd kv) > sessionTimeout st)
            (map_to_list (sessions st)).

(** [cleanup()] at time [now]: [delete] is called for every expired id. *)
Definition cleanup (now : Z) (st : Store) : Store :=
  foldl (fun acc sid => delete_begin sid acc) st (expired now st).

(** What happens to the store. *)
Inductive Event : Type :=
| EvCreate (newId : string) (now : Z) (root : string)
| EvGet (sessionId : string) (now : Z)
| EvSweep (now : Z)
| EvShutdownsSettled (sessionId : string).

Definition step (st : Store) (e : Event) : Store :=
  match e with
  | EvCreate newId now root => snd (create newId now root st)
  | EvGet sid now => snd (get sid now st)
  | EvSweep now => cleanup now st
  | EvShutdownsSettled sid => delete_finish sid st
  end.

Definition run (events : list Event) (st : Store) : Store := foldl step st events.

(** [get] fails with the SessionNotFound error. *)
Definition get_fails (sessionId : string) (now : Z) (st : Store) : Prop :=
  fst (get sessionId now st) =
  inl (ThrownLCP SESSION_NOT_FOUND ("Session not found: " ++ sessionId) JsUndefined).

(** A store with a 30 minute timeout holding one session without
    clients, created at time 0. *)
Definition one_idle_session : Store :=
  snd (create "s-1" 0 "/w" (new_store None)).

(** The same, after a debug client was attached to the session. *)
Definition one_debug_session : Store :=
  mkStore {[ "s-1"%string := mkSession "s-1" 0 0 "/w" None [] (Some (mkClientRef 0)) ]}
    (30 * 60 * 1000) [].

Example sweep_removes_idle_session :
  sessions (cleanup 1800001 one_idle_session) = ∅.
Proof. vm_compute. reflexivity. Qed.

Example sweep_keeps_session_at_the_limit :
  sessions (cleanup 1800000 one_idle_session) = sessions one_idle_session.
Proof. vm_compute. reflexivity. Qed.

(** ** What a sweep does *)

Lemma elem_of_expired (now : Z) (st : Store) (sid : string) :
  sid ∈ expired now st <->
  exists s, sessions st !! sid = Some s /\ now - lastAccessedAt s > sessionTimeout st.
Proof.
  unfold expired. rewrite list_elem_of_fmap. split.
  - intros ([k s] & -> & Hin). apply list_elem_of_filter in Hin as [Hexp Hin].
    apply elem_of_map_to_list in Hin. eauto.
  - intros (s & Hs & Hexp). exists (sid, s). split; [done |].
    apply list_elem_of_filter. split; [done |]. by apply elem_of_map_to_list.
Qed.

(** The loop of [cleanup] over any list of ids. *)
Lemma delete_begin_loop (ids : list string) (st : Store) :
  let st' := foldl (fun acc sid => delete_begin sid acc) st ids in
  sessionTimeout st' = sessionTimeout st /\
  (forall sid,
     sessions st' !! sid =
     match sessions st !! sid with
     | Some s => if decide (sid ∈ ids /\ owns_clients s = false) then None else Some s
     | None => None
     end) /\
  (forall sid,
     sid ∈ deleting st' <->
     sid ∈ deleting st \/
     (sid ∈ ids /\ exists s, sessions st !! sid = Some s /\ owns_clients s = true)).
Proof.
  revert st. induction ids as [| i ids IH]; intros st; cbn [foldl].
  - split; [done |]. split.
    + intros sid. destruct (sessions st !! sid); [| done].
      rewrite decide_False; [done |]. intros [H _]. by apply not_elem_of_nil in H.
    + intros sid. split; [tauto |]. intros [H | [H _]]; [done |].
      by apply not_elem_of_nil in H.
  - destruct (IH (delete_begin i st)) as (Ht & Hs & Hd).
    split; [| split].
    + rewrite Ht. unfold delete_begin.
      destruct (sessions st !! i) as [s |]; [| done]. by destruct (owns_clients s).
    + intros sid. rewrite Hs. unfold delete_begin.
      destruct (sessions st !! i) as [s |] eqn:Hi.
      * destruct (owns_clients s) eqn:Ho; simpl.
        -- destruct (sessions st !! sid) as [s' |] eqn:Hsid; [| done].
           apply decide_ext. rewrite elem_of_cons. split; [tauto |].
           intros [[-> | H] Hown]; [congruence | done].
        -- destruct (decide (i = sid)) as [-> | Hne].
           ++ rewrite lookup_delete_eq, Hi. rewrite decide_True; [done |].
              split; [left | done].
           ++ rewrite lookup_delete_ne by done.
              destruct (sessions st !! sid) as [s' |]; [| done].
              apply decide_ext. rewrite elem_of_cons. split; [tauto |].
              intros [[-> | H] Hown]; [congruence | done].
      * destruct (sessions st !! sid) as [s' |] eqn:Hsid; [| done].
        apply decide_ext. rewrite elem_of_cons. split; [tauto |].
        intros [[-> | H] Hown]; [congruence | done].
    + intros sid. rewrite Hd. unfold delete_begin.
      destruct (sessions st !! i) as [s |] eqn:Hi.
      * destruct (owns_clients s) eqn:Ho; simpl.
        -- rewrite elem_of_app, list_elem_of_singleton, elem_of_cons. split.
           ++ intros [[H | ->] | [H Hex]]; [tauto | | tauto].
              right. split; [by left | eauto].
           ++ intros [H | [[-> | H] Hex]]; [tauto | | tauto]. left. by right.
        -- rewrite elem_of_cons. split.
           ++ intros [H | [H (s' & Hs' & Hown)]]; [tauto |]. right. split; [tauto |].
              destruct (decide (i = sid)) as [-> | Hne].
              ** by rewrite lookup_delete_eq in Hs'.
              ** rewrite lookup_delete_ne in Hs' by done. eauto.
           ++ intros [H | [[-> | H] (s' & Hs' & Hown)]]; [tauto | congruence |].
              right. split; [done |]. exists s'. split; [| done].
              destruct (decide (i = sid)) as [-> | Hne]; [congruence |].
              by rewrite lookup_delete_ne.
      * rewrite elem_of_cons. split; [tauto |].
        intros [H | [[-> | H] (s' & Hs' & Hown)]]; [tauto | congruence |].
        right. eauto.
Qed.

Lemma cleanup_timeout (now : Z) (st : Store) :
  sessionTimeout (cleanup now st) = sessionTimeout st.
Proof. apply (delete_begin_loop (expired now st) st). Qed.

(** A sweep removes exactly the sessions that are idle for longer than
    the timeout and own no client. *)
Lemma cleanup_lookup (now : Z) (st : Store) (sid : string) :
  sessions (cleanup now st) !! sid =
  match sessions st !! sid with
  | Some s =>
      if decide (now - lastAccessedAt s > sessionTimeout st /\ owns_clients s = false)
      then None else Some s
  | None => None
  end.
Proof.
  unfold cleanup.
  destruct (delete_begin_loop (expired now st) st) as (_ & Hs & _). rewrite Hs.
  destruct (sessions st !! sid) as [s |] eqn:Hsid; [| done].
  apply decide_ext. rewrite elem_of_expired. split.
  - intros [(s' & Hs' & Hexp) Hown]. split; [congruence | done].
  - intros [Hexp Hown]. split; [eauto | done].
Qed.

(** A sweep starts a suspended [delete] for exactly the sessions that
    are idle for longer than the timeout and own a client. *)
Lemma cleanup_deleting (now : Z) (st : Store) (sid : string) :
  sid ∈ deleting (cleanup now st) <->
  sid ∈ deleting st \/
  exists s, sessions st !! sid = Some s /\
    now - lastAccessedAt s > sessionTimeout st /\ owns_clients s = true.
Proof.
  unfold cleanup.
  destruct (delete_begin_loop (expired now st) st) as (_ & _ & Hd). rewrite Hd.
  rewrite elem_of_expired. split.
  - intros [H | [(s & Hs & Hexp) (s' & Hs' & Hown)]]; [by left |].
    right. exists s. split; [done |]. split; [done | congruence].
  - intros [H | (s & Hs & Hexp & Hown)]; [by left |]. right. split; eauto.
Qed.

(** ** Sessions that are gone, and sessions that stay *)

Lemma get_absent (sid : string) (t : Z) (st : Store) :
  sessions st !! sid = None -> get_fails sid t st.
Proof. intros H. unfold get_fails, get. by rewrite H. Qed.

Definition creates (sid : string) (e : Event) : Prop :=
  match e with
  | EvCreate newId _ _ => newId = sid
  | _ => False
  end.

Lemma absent_step (sid : string) (st : Store) (e : Event) :
  sessions st !! sid = None -> ~ creates sid e -> sessions (step st e) !! sid = None.
Proof.
  intros Habs Hnc. destruct e as [newId t r | sid' t | t | sid']; simpl in *.
  - by rewrite lookup_insert_ne.
  - unfold get. destruct (sessions st !! sid') as [s' |] eqn:Hs'; simpl; [| done].
    rewrite lookup_insert_ne; [done |]. congruence.
  - by rewrite cleanup_lookup, Habs.
  - unfold delete_finish. case_decide; simpl; [| done].
    destruct (decide (sid' = sid)) as [-> | Hne];
      [by rewrite lookup_delete_eq | by rewrite lookup_delete_ne].
Qed.

(** Once removed, a session stays away unless its id is created again. *)
Lemma absent_run (sid : string) (events : list Event) (st : Store) :
  sessions st !! sid = None -> Forall (fun e => ~ creates sid e) events ->
  sessions (run events st) !! sid = None.
Proof.
  revert st. induction events as [| e events IH]; intros st Habs Hnc; simpl; [done |].
  apply Forall_cons in Hnc as [He Hnc]. apply IH; [| done]. by apply absent_step.
Qed.

Lemma timeout_step (st : Store) (e : Event) :
  sessionTimeout (step st e) = sessionTimeout st.
Proof.
  destruct e as [newId t r | sid' t | t | sid']; simpl; [done | | apply cleanup_timeout |].
  - unfold get. by destruct (sessions st !! sid').
  - unfold delete_finish. by case_decide.
Qed.

Lemma elem_of_remove_first (x y : string) (l : list string) :
  x ∈ remove_first y l -> x ∈ l.
Proof.
  induction l as [| z l IH]; simpl; [done |].
  case_decide; [by right |]. rewrite !elem_of_cons. tauto.
Qed.

(** The accesses of a session, as they appear in what happens to the
    store: starting from the last access at [last], every sweep finds
    the session idle for no longer than the timeout. *)
Fixpoint within_timeout (timeout : Z) (sid : string) (last : Z) (events : list Event)
  : Prop :=
  match events with
  | [] => True
  | EvGet sid' t :: rest =>
      if decide (sid' = sid) then within_timeout timeout sid t rest
      else within_timeout timeout sid last rest
  | EvSweep t :: rest => t - last <= timeout /\ within_timeout timeout sid last rest
  | EvCreate newId _ _ :: rest => newId <> sid /\ within_timeout timeout sid last rest
  | EvShutdownsSettled _ :: rest => within_timeout timeout sid last rest
  end.

Lemma accessed_session_stays (events : list Event) (st : Store) (sid : string) (s : Session) :
  sessions st !! sid = Some s -> sid ∉ deleting st ->
  within_timeout (sessionTimeout st) sid (lastAccessedAt s) events ->
  exists s', sessions (run events st) !! sid = Some s' /\ sid ∉ deleting (run events st).
Proof.
  revert st s. induction events as [| e events IH]; intros st s Hs Hnd Hw; simpl; [eauto |].
  rewrite <- (timeout_step st e) in Hw.
  destruct e as [newId t r | sid' t | t | sid']; simpl in Hw.
  - destruct Hw as [Hne Hw]. apply (IH _ s); simpl; [by rewrite lookup_insert_ne | done |].
    exact Hw.
  - destruct (decide (sid' = sid)) as [-> | Hne].
    + apply (IH _ (touch t s)); simpl.
      * unfold get. rewrite Hs. simpl. by rewrite lookup_insert_eq.
      * unfold get. by rewrite Hs.
      * exact Hw.
    + apply (IH _ s); simpl.
      * unfold get. destruct (sessions st !! sid'); simpl; [| done].
        by rewrite lookup_insert_ne.
      * unfold get. by destruct (sessions st !! sid').
      * exact Hw.
  - destruct Hw as [Hidle Hw]. rewrite cleanup_timeout in Hidle.
    apply (IH _ s); simpl.
    + rewrite cleanup_lookup, Hs. rewrite decide_False; [done |]. lia.
    + rewrite cleanup_deleting. intros [H | (s' & Hs' & Hexp & _)]; [done |].
      assert (s' = s) by congruence. subst. lia.
    + exact Hw.
  - apply (IH _ s); simpl; [| | exact Hw].
    + unfold delete_finish. case_decide as Hin; [| done]. simpl.
      rewrite lookup_delete_ne; [done |]. congruence.
    + unfold delete_finish. case_decide as Hin; [| done]. simpl.
      intros H'. by apply elem_of_remove_first in H'.
Qed.

(** ** Idle eviction *)

(** C6, as amended. For a session held by the store and a sweep at time
    [now]:
    - idle for longer than the timeout and owning no client: the sweep
      removes it, and every later [get] with its id fails with
      SessionNotFound;
    - idle for longer than the timeout and owning a client: the sweep
      starts its deletion, the session stays in the store while the
      shutdown of its clients is awaited (a [get] in between succeeds),
      and it is removed when the shutdowns have settled, after which
      [get] fails with SessionNotFound;
    - idle for no longer than the timeout: the sweep leaves it alone;
    - [get] sets [lastAccessedAt] to the time of the access, so that a
      session whose deletion is not already under way, and that every
      sweep finds accessed within the timeout, is never evicted. *)
Theorem idle_session_eviction (st : Store) (sid : string) (s : Session) (now : Z) :
  sessions st !! sid = Some s ->
  (now - lastAccessedAt s > sessionTimeout st -> owns_clients s = false ->
     forall later t, Forall (fun e => ~ creates sid e) later ->
       get_fails sid t (run later (cleanup now st))) /\
  (now - lastAccessedAt s > sessionTimeout st -> owns_clients s = true ->
     sessions (cleanup now st) !! sid = Some s /\
     sid ∈ deleting (cleanup now st) /\
     (forall t, fst (get sid t (cleanup now st)) = inr (touch t s)) /\
     forall later t, Forall (fun e => ~ creates sid e) later ->
       get_fails sid t (run later (delete_finish sid (cleanup now st)))) /\
  (now - lastAccessedAt s <= sessionTimeout st ->
     sessions (cleanup now st) !! sid = Some s /\
     (sid ∈ deleting (cleanup now st) -> sid ∈ deleting st)) /\
  (forall t,
     fst (get sid t st) = inr (touch t s) /\
     sessions (snd (get sid t st)) !! sid = Some (touch t s) /\
     lastAccessedAt (touch t s) = t) /\
  (forall events,
     sid ∉ deleting st ->
     within_timeout (sessionTimeout st) sid (lastAccessedAt s) events ->
     is_Some (sessions (run events st) !! sid)).
Proof.
  intros Hs. split; [| split; [| split; [| split]]].
  - intros Hidle Hown later t Hnc. apply get_absent, absent_run; [| done].
    rewrite cleanup_lookup, Hs. by rewrite decide_True.
  - intros Hidle Hown.
    assert (Hkeep : sessions (cleanup now st) !! sid = Some s).
    { rewrite cleanup_lookup, Hs. rewrite decide_False; [done |].
      intros [_ H]. congruence. }
    assert (Hdel : sid ∈ deleting (cleanup now st)).
    { apply cleanup_deleting. right. eauto. }
    split; [done |]. split; [done |]. split.
    + intros t. unfold get. by rewrite Hkeep.
    + intros later t Hnc. apply get_absent, absent_run; [| done].
      unfold delete_finish. rewrite decide_True by done. simpl.
      by rewrite lookup_delete_eq.
  - intros Hidle. split.
    + rewrite cleanup_lookup, Hs. rewrite decide_False; [done |]. lia.
    + rewrite cleanup_deleting. intros [H | (s' & Hs' & Hexp & _)]; [done |].
      assert (s' = s) by congruence. subst. lia.
  - intros t. unfold get. rewrite Hs. simpl. by rewrite lookup_insert_eq.
  - intros events Hnd Hw.
    destruct (accessed_session_stays events st sid s Hs Hnd Hw) as (s' & Hs' & _). eauto.
Qed.

Lemma idle_session_eviction_witness :
  get_fails "s-1" 1900000
    (run [EvGet "s-1" 1850000] (cleanup 1800001 one_idle_session)).
Proof.
  refine (proj1 (idle_session_eviction one_idle_session "s-1"
            (mkSession "s-1" 0 0 "/w" None [] None) 1800001 _) _ _
            [EvGet "s-1" 1850000] 1900000 _).
  - vm_compute. reflexivity.
  - vm_compute. reflexivity.
  - reflexivity.
  - repeat constructor; simpl; tauto.
Defined.

(** C6 as stated fails for a session that owns a client: after the
    sweep found it idle for longer than the timeout, a [get] with its id
    still succeeds, as long as the shutdown of its debug client has not
    settled. *)
Lemma expired_session_with_client_still_found :
  let st := cleanup 1800001 one_debug_session in
  1800001 - 0 > sessionTimeout one_debug_session /\
  fst (get "s-1" 1800002 st) =
    inr (mkSession "s-1" 0 1800002 "/w" None [] (Some (mkClientRef 0))) /\
  ~ get_fails "s-1" 1800002 st.
Proof.
  vm_compute. split; [reflexivity |]. split; [reflexivity |]. discriminate.
Qed.

(** ** Creating and finding sessions *)

(** [getAllIds()]: the keys of [sessions]. JavaScript lists them in
    insertion order, which the map here does not record. *)
Definition getAllIds (st : Store) : list string := fst <$> map_to_list (sessions st).

Lemma elem_of_getAllIds (sid : string) (st : Store) :
  sid ∈ getAllIds st <-> is_Some (sessions st !! sid).
Proof.
  unfold getAllIds. rewrite list_elem_of_fmap. split.
  - intros ([k s] & -> & H). apply elem_of_map_to_list in H. eauto.
  - intros [s H]. exists (sid, s). split; [done |]. by apply elem_of_map_to_list.
Qed.

(** X21. A session made by [create] has no client, is listed by [has]
    and [getAllIds] and is given back by [get] with only its access time
    changed; the other sessions are not touched. [get] and [has] on an
    id that is not in the store fail and leave the store as it is. *)
Theorem create_then_get (newId root : string) (now t : Z) (st : Store) :
  let s := fst (create newId now root st) in
  let st1 := snd (create newId now root st) in
  s = mkSession newId now now root None [] None /\
  has newId st1 = true /\ newId ∈ getAllIds st1 /\
  fst (get newId t st1) = inr (mkSession newId now t root None [] None) /\
  (forall sid, sid <> newId ->
     sessions st1 !! sid = sessions st !! sid /\
     has sid st1 = has sid st /\
     sessions (snd (get newId t st1)) !! sid = sessions st !! sid) /\
  (forall sid, sessions st !! sid = None ->
     has sid st = false /\ (sid ∉ getAllIds st) /\
     get sid t st =
       (inl (ThrownLCP SESSION_NOT_FOUND ("Session not found: " ++ sid) JsUndefined), st)).
Proof.
  intros s st1. unfold s, st1, create. cbn [fst snd].
  split; [done |]. split; [| split; [| split; [| split]]].
  - unfold has. cbn [sessions]. apply bool_decide_eq_true_2.
    rewrite lookup_insert_eq. eauto.
  - apply elem_of_getAllIds. cbn [sessions]. rewrite lookup_insert_eq. eauto.
  - unfold get. cbn [sessions]. by rewrite lookup_insert_eq.
  - intros sid Hne. unfold has, get. cbn [sessions]. rewrite lookup_insert_eq.
    cbn [snd sessions]. by rewrite !lookup_insert_ne by done.
  - intros sid Hnone. split; [| split].
    + unfold has. apply bool_decide_eq_false_2. rewrite Hnone. by intros [? ?].
    + rewrite elem_of_getAllIds, Hnone. by intros [? ?].
    + unfold get. by rewrite Hnone.
Qed.

(** ** shutdown *)

(** [shutdown()] up to its [await]: [delete] is called for every id of
    the store. *)
Definition shutdown (st : Store) : Store :=
  foldl (fun acc sid => delete_begin sid acc) st (getAllIds st).

(** The suspended deletions [ids] run to their end, in this order. *)
Definition settle_all (ids : list string) (st : Store) : Store :=
  foldl (fun acc sid => delete_finish sid acc) st ids.

Lemma settle_all_deleting (l : list string) (st : Store) :
  deleting st = l ->
  deleting (settle_all l st) = [] /\
  forall sid, sessions (settle_all l st) !! sid =
              if decide (sid ∈ l) then None else sessions st !! sid.
Proof.
  revert st. induction l as [| x l IH]; intros st Hl; cbn [settle_all foldl].
  - split; [done |]. intros sid. by rewrite decide_False by apply not_elem_of_nil.
  - assert (Hstep : delete_finish x st =
              mkStore (delete x (sessions st)) (sessionTimeout st) l).
    { unfold delete_finish. rewrite Hl. rewrite decide_True by left.
      simpl. by rewrite decide_True. }
    destruct (IH (delete_finish x st)) as [Hd Hs]; [by rewrite Hstep |].
    unfold settle_all in *. split; [done |]. intros sid. rewrite Hs, Hstep.
    cbn [sessions]. destruct (decide (sid ∈ l)) as [Hin | Hnin].
    + by rewrite decide_True by (by right).
    + destruct (decide (x = sid)) as [-> | Hne].
      * rewrite lookup_delete_eq. by rewrite decide_True by left.
      * rewrite lookup_delete_ne by done. rewrite decide_False; [done |].
        rewrite not_elem_of_cons. split; [congruence | done].
Qed.

(** X22. [shutdown()] removes at once every session that owns no
    client and starts the deletion of every other one, which stays in
    the store, and can be found by [get], while its clients shut down.
    When the deletions under way have run to their end, the store is
    empty. *)
Theorem shutdown_empties_the_store (st : Store) :
  let st' := shutdown st in
  (forall sid s, sessions st !! sid = Some s ->
     if owns_clients s
     then sessions st' !! sid = Some s /\ sid ∈ deleting st'
     else sessions st' !! sid = None) /\
  (forall sid, sessions st !! sid = None -> sessions st' !! sid = None) /\
  sessions (settle_all (deleting st') st') = ∅ /\
  deleting (settle_all (deleting st') st') = [].
Proof.
  intros st'. destruct (delete_begin_loop (getAllIds st) st) as (_ & Hs & Hd).
  fold (shutdown st) in Hs, Hd. fold st' in Hs, Hd.
  destruct (settle_all_deleting (deleting st') st' eq_refl) as [Hd' Hs'].
  split; [| split; [| split; [| done]]].
  - intros sid s Hsid. rewrite Hs, Hsid.
    assert (Hin : sid ∈ getAllIds st) by (apply elem_of_getAllIds; eauto).
    destruct (owns_clients s) eqn:Ho.
    + split.
      * rewrite decide_False; [done |]. intros [_ H]. discriminate.
      * apply Hd. right. eauto.
    + by rewrite decide_True.
  - intros sid Hsid. by rewrite Hs, Hsid.
  - apply map_eq. intros sid. rewrite Hs', lookup_empty.
    destruct (decide (sid ∈ deleting st')) as [Hin | Hnin]; [done |].
    rewrite Hs. destruct (sessions st !! sid) as [s |] eqn:Hsid; [| done].
    assert (Hin : sid ∈ getAllIds st) by (apply elem_of_getAllIds; eauto).
    destruct (owns_clients s) eqn:Ho.
    + exfalso. apply Hnin, Hd. right. eauto.
    + by rewrite decide_True.
Qed.

End SessionStore.

(* ===================================================================== *)
(** * src/tools/lcp_debug_step.ts: the debug step orchestrator *)
(* ===================================================================== *)

Module DebugStep.
Import Js ErrorHandler.

(** The body of a ['stopped'] event, as the tool reads it. *)
Record StoppedEvent : Type := mkStopped { reason : string; threadId : Z }.

(** An element of [stackFrames] in a stackTrace response. *)
Record DapFrame : Type := mkDapFrame {
  frame_id : Z;
  frame_name : string;
  frame_source : option string;
  frame_line : Z;
  frame_column : Z
}.

(** An element of [scopes] in a scopes response. *)
Record Scope : Type := mkScope { scope_name : string; variablesReference : Z }.

(** An element of [variables] in a variables response, which is also
    [interface Variable] of core/types.ts ([Variable] is a keyword here). *)
Record VariableInfo : Type := mkVariable {
  var_name : string;
  var_value : string;
  var_type : option string;
  var_reference : option Z
}.

(** [interface StackFrame] of core/types.ts. *)
Record StackFrame : Type := mkStackFrame {
  sf_id : Z;
  sf_name : string;
  sf_file : option string;
  sf_line : Z;
  sf_column : Z
}.

Inductive Status : Type := running | stopped | paused | terminated.

(** [interface DebugState] *)
Record DebugState : Type := mkDebugState {
  status : Status;
  state_reason : option string;
  currentLine : option Z;
  currentFile : option string;
  callStack : list StackFrame;
  localVariables : list VariableInfo
}.

Inductive Action : Type := next | stepIn | stepOut | continue.

Definition command_of (a : Action) : string :=
  match a with
  | next => "next"
  | stepIn => "stepIn"
  | stepOut => "stepOut"
  | continue => "continue"
  end.

(** [interface DebugStepParams] *)
Record DebugStepParams : Type := mkParams {
  sessionId : string;
  action : Action;
  param_threadId : option Z
}.

(** What the tool asks of the debug client, in the order it asks. *)
Inductive Issued : Type :=
| IssuedRequest (command : string) (arguments : list (string * Z))
| IssuedWait (eventType : string) (timeout : Z).

(** The debug client as the tool meets it: how each promise it awaits
    settles. The two waits are the primary and the secondary
    [eventBus.waitFor('stopped', ...)]. *)
Record Adapter : Type := mkAdapter {
  action_reply : Action -> Z -> Promise unit;
  primary_wait : Promise StoppedEvent;
  pause_reply : Z -> Promise unit;
  secondary_wait : Promise StoppedEvent;
  stackTrace_reply : Z -> Promise (list DapFrame);
  scopes_reply : Z -> Promise (list Scope);
  variables_reply : Z -> Promise (list VariableInfo)
}.

(** An [async] body in progress: what was issued so far, and how the
    body stands. *)
Definition Run (A : Type) : Type := list Issued -> Promise A * list Issued.

Definition ret {A : Type} (a : A) : Run A := fun log => (Resolved a, log).

Definition throw {A : Type} (e : Thrown) : Run A := fun log => (Rejected e, log).

Definition bind {A B : Type} (m : Run A) (k : A -> Run B) : Run B :=
  fun log =>
    match m log with
    | (Resolved a, log') => k a log'
    | (Rejected e, log') => (Rejected e, log')
    | (Pending, log') => (Pending, log')
    end.

(** [try { m } catch (err) { handler }] *)
Definition try_catch {A : Type} (m : Run A) (handler : Thrown -> Run A) : Run A :=
  fun log =>
    match m log with
    | (Rejected e, log') => handler e log'
    | other => other
    end.

(** [await] on the promise of something asked of the client. *)
Definition await {A : Type} (what : Issued) (p : Promise A) : Run A :=
  fun log => (p, log ++ [what]).

Notation "'let*' x := m 'in' k" := (bind m (fun x => k))
  (at level 10, x name, m at level 100, k at level 200).

(** The methods of DebugpyClient that the tool calls. *)
Definition do_action (d : Adapter) (a : Action) (tid : Z) : Run unit :=
  await (IssuedRequest (command_of a) [("threadId"%string, tid)]) (action_reply d a tid).

Definition pause (d : Adapter) (tid : Z) : Run unit :=
  await (IssuedRequest "pause" [("threadId"%string, tid)]) (pause_reply d tid).

Definition stackTrace (d : Adapter) (tid : Z) : Run (list DapFrame) :=
  await (IssuedRequest "stackTrace"
           [("threadId"%string, tid); ("startFrame"%string, 0); ("levels"%string, 20)])
    (stackTrace_reply d tid).

Definition scopes (d : Adapter) (frameId : Z) : Run (list Scope) :=
  await (IssuedRequest "scopes" [("frameId"%string, frameId)]) (scopes_reply d frameId).

Definition variables (d : Adapter) (ref : Z) : Run (list VariableInfo) :=
  await (IssuedRequest "variables"
           [("variablesReference"%string, ref); ("start"%string, 0); ("count"%string, 100)])
    (variables_reply d ref).

Definition to_frame (f : DapFrame) : StackFrame :=
  mkStackFrame (frame_id f) (frame_name f) (frame_source f) (frame_line f) (frame_column f).

(** [getCurrentState(dapClient, threadId, reason)] *)
Definition getCurrentState (d : Adapter) (tid : Z) (why : string) : Run DebugState :=
  let* frames0 := stackTrace d tid in
  let frames := to_frame <$> frames0 in
  let* vars :=
    match frames with
    | f :: _ =>
        let* scs := scopes d (sf_id f) in
        match scs with
        | sc :: _ => variables d (variablesReference sc)
        | [] => ret []
        end
    | [] => ret []
    end in
  ret (mkDebugState stopped (Some why) (sf_line <$> head frames)
         (head frames ≫= sf_file) frames vars).

(** [params.threadId || 1] *)
Definition thread_of (params : DebugStepParams) : Z :=
  match param_threadId params with
  | Some t => if decide (t = 0) then 1 else t
  | None => 1
  end.

(** The session, as [sessionStore.get] gives it to the tool: the error
    it throws, or the session's debug client if it has one. *)
Definition SessionLookup : Type := Thrown + option Adapter.

(** The body of the [async] function passed to [withErrorHandling]. *)
Definition step_body (session : SessionLookup) (params : DebugStepParams) : Run DebugState :=
  match session with
  | inl err => throw err
  | inr None => throw (DAPError "No active debug session" JsUndefined)
  | inr (Some d) =>
      let tid := thread_of params in
      let* _ := do_action d (action params) tid in
      let* stoppedEvent :=
        try_catch (await (IssuedWait "stopped" 5000) (primary_wait d))
          (fun _ =>
             let* _ := pause d tid in
             await (IssuedWait "stopped" 2000) (secondary_wait d)) in
      getCurrentState d (threadId stoppedEvent) (reason stoppedEvent)
  end.

Definition as_body {A : Type} (p : Promise A) : Body A :=
  match p with
  | Resolved a => BodyReturn a
  | Rejected e => BodyThrow e
  | Pending => BodyHang
  end.

(** [lcpDebugStep(params)]: what was asked of the client, and the
    result handed to the caller. *)
Definition lcpDebugStep (session : SessionLookup) (params : DebugStepParams)
  : list Issued * Call (ToolResult DebugState) :=
  let r := step_body session params [] in
  (snd r, withErrorHandling (async (fun _ => as_body (fst r)))).

(** The rejection of [waitFor] when its timer runs. *)
Definition wait_timeout (ms : Z) : Thrown :=
  TimeoutError "Timeout waiting for event: stopped"
    (JsObj [("eventType"%string, JsStr "stopped"); ("timeoutMs"%string, JsNum ms)]).

Definition thread_argument (tid : Z) : list (string * Z) := [("threadId"%string, tid)].

Definition stackTrace_request (tid : Z) : Issued :=
  IssuedRequest "stackTrace"
    [("threadId"%string, tid); ("startFrame"%string, 0); ("levels"%string, 20)].

Definition scopes_request (frameId : Z) : Issued :=
  IssuedRequest "scopes" [("frameId"%string, frameId)].

Definition variables_request (ref : Z) : Issued :=
  IssuedRequest "variables"
    [("variablesReference"%string, ref); ("start"%string, 0); ("count"%string, 100)].

(** What is asked before the state is gathered when the stop event
    comes in the primary wait, and when it comes after the pause. *)
Definition direct_path (params : DebugStepParams) : list Issued :=
  [IssuedRequest (command_of (action params)) (thread_argument (thread_of params));
   IssuedWait "stopped" 5000].

Definition pause_path (params : DebugStepParams) : list Issued :=
  direct_path params ++
  [IssuedRequest "pause" (thread_argument (thread_of params));
   IssuedWait "stopped" 2000].

(** The state assembled from a stop event, the frames and the
    variables of the top scope. *)
Definition stopped_state (ev : StoppedEvent) (frames : list DapFrame)
    (vars : list VariableInfo) : DebugState :=
  mkDebugState stopped (Some (reason ev))
    (frame_line <$> head frames) (head frames ≫= frame_source)
    (to_frame <$> frames) vars.

(** The stop event [ev] reached the tool, after [before] was asked. *)
Definition stop_arrives (d : Adapter) (params : DebugStepParams) (ev : StoppedEvent)
    (before : list Issued) : Prop :=
  (primary_wait d = Resolved ev /\ before = direct_path params) \/
  (exists e, primary_wait d = Rejected e /\
     pause_reply d (thread_of params) = Resolved tt /\
     secondary_wait d = Resolved ev /\ before = pause_path params).

Lemma step_body_stop (d : Adapter) (params : DebugStepParams) (ev : StoppedEvent)
    (before : list Issued) :
  action_reply d (action params) (thread_of params) = Resolved tt ->
  stop_arrives d params ev before ->
  step_body (inr (Some d)) params [] = getCurrentState d (threadId ev) (reason ev) before.
Proof.
  intros Hact Hstop. unfold step_body, bind, try_catch, do_action, pause, await.
  simpl. rewrite Hact.
  destruct Hstop as [[Hp ->] | (e & Hp & Hpause & Hs & ->)]; rewrite Hp.
  - reflexivity.
  - simpl. rewrite Hpause, Hs. reflexivity.
Qed.

Lemma getCurrentState_full (d : Adapter) (ev : StoppedEvent) (log : list Issued)
    (f : DapFrame) (frames : list DapFrame) (sc : Scope) (scs : list Scope)
    (vs : list VariableInfo) :
  stackTrace_reply d (threadId ev) = Resolved (f :: frames) ->
  scopes_reply d (frame_id f) = Resolved (sc :: scs) ->
  variables_reply d (variablesReference sc) = Resolved vs ->
  getCurrentState d (threadId ev) (reason ev) log =
  (Resolved (stopped_state ev (f :: frames) vs),
   log ++ [stackTrace_request (threadId ev); scopes_request (frame_id f);
           variables_request (variablesReference sc)]).
Proof.
  intros Hst Hsc Hv.
  unfold getCurrentState, bind, stackTrace, scopes, variables, await, ret.
  rewrite Hst. simpl. rewrite Hsc. rewrite Hv.
  rewrite <- !app_assoc. reflexivity.
Qed.

Lemma getCurrentState_no_frame (d : Adapter) (ev : StoppedEvent) (log : list Issued) :
  stackTrace_reply d (threadId ev) = Resolved [] ->
  getCurrentState d (threadId ev) (reason ev) log =
  (Resolved (stopped_state ev [] []), log ++ [stackTrace_request (threadId ev)]).
Proof.
  intros Hst. unfold getCurrentState, bind, stackTrace, await, ret.
  rewrite Hst. reflexivity.
Qed.

Lemma getCurrentState_no_scope (d : Adapter) (ev : StoppedEvent) (log : list Issued)
    (f : DapFrame) (frames : list DapFrame) :
  stackTrace_reply d (threadId ev) = Resolved (f :: frames) ->
  scopes_reply d (frame_id f) = Resolved [] ->
  getCurrentState d (threadId ev) (reason ev) log =
  (Resolved (stopped_state ev (f :: frames) []),
   log ++ [stackTrace_request (threadId ev); scopes_request (frame_id f)]).
Proof.
  intros Hst Hsc. unfold getCurrentState, bind, stackTrace, scopes, await, ret.
  rewrite Hst. simpl. rewrite Hsc. rewrite <- !app_assoc. reflexivity.
Qed.

(** ** The step orchestration *)

(** A run only adds to what was asked before. *)
Definition appends {A : Type} (m : Run A) : Prop :=
  forall log, exists more, snd (m log) = log ++ more.

Lemma appends_ret {A : Type} (a : A) : appends (ret a).
Proof. intros log. exists []. simpl. by rewrite app_nil_r. Qed.

Lemma appends_await {A : Type} (what : Issued) (p : Promise A) : appends (await what p).
Proof. intros log. by exists [what]. Qed.

Lemma appends_bind {A B : Type} (m : Run A) (k : A -> Run B) :
  appends m -> (forall a, appends (k a)) -> appends (bind m k).
Proof.
  intros Hm Hk log. unfold bind. destruct (Hm log) as [more Hmore].
  destruct (m log) as [[a | e | ] log']; simpl in *; subst log'; [| eauto | eauto].
  destruct (Hk a (log ++ more)) as [more' Hmore'].
  exists (more ++ more'). by rewrite Hmore', app_assoc.
Qed.

Lemma appends_getCurrentState (d : Adapter) (tid : Z) (why : string) :
  appends (getCurrentState d tid why).
Proof.
  unfold getCurrentState. apply appends_bind; [apply appends_await |].
  intros frames0. apply appends_bind; [| intros; apply appends_ret].
  destruct (to_frame <$> frames0) as [| f fs]; [apply appends_ret |].
  apply appends_bind; [apply appends_await |].
  intros [| sc scs]; [apply appends_ret | apply appends_await].
Qed.

(** After an awaited request or wait, the log holds it, whatever
    follows. *)
Lemma bind_await_log {A B : Type} (what : Issued) (p : Promise A) (k : A -> Run B)
    (log : list Issued) :
  (forall a, appends (k a)) ->
  exists rest, snd (bind (await what p) k log) = log ++ what :: rest.
Proof.
  intros Hk. unfold bind, await. destruct p as [a | e | ]; simpl.
  - destruct (Hk a (log ++ [what])) as [more ->]. exists more.
    by rewrite <- app_assoc.
  - by exists [].
  - by exists [].
Qed.

(** C5, as amended. For a session with a debug client whose answer to
    the requested action arrives:
    - if the primary 5000 ms wait fails, a pause request for the same
      thread is sent; if the pause is answered, a second wait of
      2000 ms is made; if that wait fails too, nothing more is asked and
      the result is the failure of that wait, a TIMEOUT error when the
      wait timed out;
    - if a stop event arrives by either path and the three requests are
      answered, with at least one frame and one scope, then a stackTrace
      request for the event's thread, a scopes request for the top frame
      and a variables request for the top scope are sent in this order,
      and the result is a DebugState with status stopped, the reason of
      the stop event and the line and file of the top frame;
    - with no frame only the stackTrace request is sent, and with no
      scope only the stackTrace and scopes requests; the result is again
      a stopped DebugState, with no variables. *)
Theorem step_waits_pauses_and_gathers (d : Adapter) (params : DebugStepParams) :
  action_reply d (action params) (thread_of params) = Resolved tt ->
  (forall e1, primary_wait d = Rejected e1 ->
     (exists rest,
        fst (lcpDebugStep (inr (Some d)) params) =
        direct_path params ++
        IssuedRequest "pause" (thread_argument (thread_of params)) :: rest) /\
     (pause_reply d (thread_of params) = Resolved tt ->
        (exists rest, fst (lcpDebugStep (inr (Some d)) params) = pause_path params ++ rest) /\
        (forall e2, secondary_wait d = Rejected e2 ->
           lcpDebugStep (inr (Some d)) params =
           (pause_path params, Returned (Resolved (toToolResult e2)))) /\
        (secondary_wait d = Rejected (wait_timeout 2000) ->
           exists res,
             snd (lcpDebugStep (inr (Some d)) params) = Returned (Resolved res) /\
             success res = false /\ code <$> error res = Some TIMEOUT))) /\
  (forall ev before, stop_arrives d params ev before ->
     (forall f frames sc scs vs,
        stackTrace_reply d (threadId ev) = Resolved (f :: frames) ->
        scopes_reply d (frame_id f) = Resolved (sc :: scs) ->
        variables_reply d (variablesReference sc) = Resolved vs ->
        lcpDebugStep (inr (Some d)) params =
        (before ++ [stackTrace_request (threadId ev); scopes_request (frame_id f);
                    variables_request (variablesReference sc)],
         Returned (Resolved (mkToolResult true
           (Some (mkDebugState stopped (Some (reason ev)) (Some (frame_line f))
                    (frame_source f) (to_frame <$> f :: frames) vs)) None)))) /\
     (stackTrace_reply d (threadId ev) = Resolved [] ->
        lcpDebugStep (inr (Some d)) params =
        (before ++ [stackTrace_request (threadId ev)],
         Returned (Resolved (mkToolResult true (Some (stopped_state ev [] [])) None)))) /\
     (forall f frames,
        stackTrace_reply d (threadId ev) = Resolved (f :: frames) ->
        scopes_reply d (frame_id f) = Resolved [] ->
        lcpDebugStep (inr (Some d)) params =
        (before ++ [stackTrace_request (threadId ev); scopes_request (frame_id f)],
         Returned (Resolved (mkToolResult true
           (Some (stopped_state ev (f :: frames) [])) None))))).
Proof.
  intros Hact. split.
  - intros e1 Hp.
    assert (Hbody : step_body (inr (Some d)) params [] =
              bind (await (IssuedRequest "pause" (thread_argument (thread_of params)))
                      (pause_reply d (thread_of params)))
                (fun _ => bind (await (IssuedWait "stopped" 2000) (secondary_wait d))
                   (fun stoppedEvent =>
                      getCurrentState d (threadId stoppedEvent) (reason stoppedEvent)))
                (direct_path params)).
    { unfold step_body, bind, try_catch, do_action, pause, await. simpl.
      rewrite Hact, Hp. simpl.
      destruct (pause_reply d (thread_of params)); [| reflexivity | reflexivity].
      simpl. destruct (secondary_wait d); reflexivity. }
    assert (Hk : forall a : StoppedEvent,
              appends (getCurrentState d (threadId a) (reason a)))
      by (intros; apply appends_getCurrentState).
    split.
    + change (fst (lcpDebugStep (inr (Some d)) params))
        with (snd (step_body (inr (Some d)) params [])).
      rewrite Hbody. apply bind_await_log.
      intros _. apply appends_bind; [apply appends_await | exact Hk].
    + intros Hpause.
      assert (Hbody' : step_body (inr (Some d)) params [] =
                bind (await (IssuedWait "stopped" 2000) (secondary_wait d))
                  (fun stoppedEvent =>
                     getCurrentState d (threadId stoppedEvent) (reason stoppedEvent))
                  (direct_path params ++
                     [IssuedRequest "pause" (thread_argument (thread_of params))])).
      { rewrite Hbody. unfold bind at 1. unfold await at 1. by rewrite Hpause. }
      split; [| split].
      * change (fst (lcpDebugStep (inr (Some d)) params))
          with (snd (step_body (inr (Some d)) params [])).
        rewrite Hbody'.
        destruct (bind_await_log (IssuedWait "stopped" 2000) (secondary_wait d) _
                    (direct_path params ++
                       [IssuedRequest "pause" (thread_argument (thread_of params))]) Hk)
          as [rest ->].
        exists rest. reflexivity.
      * intros e2 Hs. unfold lcpDebugStep. rewrite Hbody'.
        unfold bind, await. rewrite Hs. reflexivity.
      * intros Hs. unfold lcpDebugStep. rewrite Hbody'.
        unfold bind, await. rewrite Hs. simpl. eexists. split; [reflexivity |]. done.
  - intros ev before Hstop.
    pose proof (step_body_stop d params ev before Hact Hstop) as Hbody.
    split; [| split].
    + intros f frames sc scs vs Hst Hsc Hv. unfold lcpDebugStep.
      rewrite Hbody, (getCurrentState_full d ev before f frames sc scs vs) by done.
      reflexivity.
    + intros Hst. unfold lcpDebugStep.
      rewrite Hbody, getCurrentState_no_frame by done. reflexivity.
    + intros f frames Hst Hsc. unfold lcpDebugStep.
      rewrite Hbody, (getCurrentState_no_scope d ev before f frames) by done.
      reflexivity.
Qed.

(** ** Scenarios *)

Definition frame_main : DapFrame := mkDapFrame 7 "main" (Some "/w/app.py"%string) 53 1.

Definition loop_variable : VariableInfo := mkVariable "i" "3" (Some "int"%string) (Some 0).

(** The program runs on after [continue]; the pause stops it. *)
Definition adapter_paused : Adapter :=
  mkAdapter (fun _ _ => Resolved tt)
    (Rejected (wait_timeout 5000))
    (fun _ => Resolved tt)
    (Resolved (mkStopped "pause" 1))
    (fun _ => Resolved [frame_main])
    (fun _ => Resolved [mkScope "Locals" 11])
    (fun _ => Resolved [loop_variable]).

(** The stop event arrives at once, for a thread that has no frame. *)
Definition adapter_no_frame : Adapter :=
  mkAdapter (fun _ _ => Resolved tt)
    (Resolved (mkStopped "step" 1))
    (fun _ => Resolved tt)
    Pending
    (fun _ => Resolved [])
    (fun _ => Resolved [mkScope "Locals" 11])
    (fun _ => Resolved [loop_variable]).

(** The program runs on, and the adapter refuses the pause request. *)
Definition adapter_pause_refused : Adapter :=
  mkAdapter (fun _ _ => Resolved tt)
    (Rejected (wait_timeout 5000))
    (fun _ => Rejected (DAPError "pause not supported" JsUndefined))
    (Resolved (mkStopped "pause" 1))
    (fun _ => Resolved [frame_main])
    (fun _ => Resolved [mkScope "Locals" 11])
    (fun _ => Resolved [loop_variable]).

Definition continue_params : DebugStepParams := mkParams "s-1" continue None.

Lemma step_waits_pauses_and_gathers_witness :
  lcpDebugStep (inr (Some adapter_paused)) continue_params =
  ([IssuedRequest "continue" [("threadId"%string, 1)];
    IssuedWait "stopped" 5000;
    IssuedRequest "pause" [("threadId"%string, 1)];
    IssuedWait "stopped" 2000;
    stackTrace_request 1; scopes_request 7; variables_request 11],
   Returned (Resolved (mkToolResult true
     (Some (mkDebugState stopped (Some "pause"%string) (Some 53) (Some "/w/app.py"%string)
              [mkStackFrame 7 "main" (Some "/w/app.py"%string) 53 1] [loop_variable]))
     None))).
Proof.
  refine (proj1 (proj2 (step_waits_pauses_and_gathers adapter_paused continue_params _)
                   (mkStopped "pause" 1) (pause_path continue_params) _)
            frame_main [] (mkScope "Locals" 11) [] [loop_variable] _ _ _);
    try reflexivity.
  right. exists (wait_timeout 5000). repeat split; reflexivity.
Defined.

Example no_debug_session :
  lcpDebugStep (inr None) continue_params =
  ([], Returned (Resolved (mkToolResult false None
         (Some (mkErrorInfo DAP_ERROR "No active debug session" JsUndefined))))).
Proof. reflexivity. Qed.

(** C5 as stated fails in two places. A stop event arrives in the
    primary wait but the thread has no frame: only the stackTrace
    request is sent, no scopes and no variables request, and a stopped
    DebugState is returned all the same. The primary wait times out but
    the pause request is refused: no second wait is made, and the
    failure is the DAP error of the pause, not a timeout. *)
Lemma step_skips_requests_and_second_wait :
  (let r := lcpDebugStep (inr (Some adapter_no_frame)) continue_params in
   fst r = [IssuedRequest "continue" [("threadId"%string, 1)];
            IssuedWait "stopped" 5000; stackTrace_request 1] /\
   (forall frameId, scopes_request frameId ∉ fst r) /\
   (forall ref, variables_request ref ∉ fst r) /\
   snd r = Returned (Resolved (mkToolResult true
             (Some (mkDebugState stopped (Some "step"%string) None None [] [])) None))) /\
  (let r := lcpDebugStep (inr (Some adapter_pause_refused)) continue_params in
   fst r = [IssuedRequest "continue" [("threadId"%string, 1)];
            IssuedWait "stopped" 5000;
            IssuedRequest "pause" [("threadId"%string, 1)]] /\
   (IssuedWait "stopped" 2000 ∉ fst r) /\
   snd r = Returned (Resolved (mkToolResult false None
             (Some (mkErrorInfo DAP_ERROR "pause not supported" JsUndefined))))).
Proof.
  split.
  - cbv zeta. split; [reflexivity |]. split; [| split; [| reflexivity]].
    + intros frameId Hin. vm_compute in Hin.
      repeat (apply elem_of_cons in Hin as [Hin | Hin]; [discriminate |]).
      by apply not_elem_of_nil in Hin.
    + intros ref Hin. vm_compute in Hin.
      repeat (apply elem_of_cons in Hin as [Hin | Hin]; [discriminate |]).
      by apply not_elem_of_nil in Hin.
  - cbv zeta. split; [reflexivity |]. split; [| reflexivity].
    intros Hin. vm_compute in Hin.
    repeat (apply elem_of_cons in Hin as [Hin | Hin]; [discriminate |]).
    by apply not_elem_of_nil in Hin.
Qed.

(** ** What the step tool never does *)

Definition action_request (params : DebugStepParams) : Issued :=
  IssuedRequest (command_of (action params)) (thread_argument (thread_of params)).

Definition pause_request (params : DebugStepParams) : Issued :=
  IssuedRequest "pause" (thread_argument (thread_of params)).

Lemma action_is_not_pause (params : DebugStepParams) :
  action_request params <> pause_request params.
Proof. unfold action_request, pause_request. by destruct (action params). Qed.

(** Takes the body apart along the promises it awaits. *)
Ltac step_cases d params :=
  unfold lcpDebugStep, step_body, getCurrentState, bind, try_catch, do_action, pause,
    stackTrace, scopes, variables, await, ret, throw;
  cbn [fst snd app];
  destruct (action_reply d (action params) (thread_of params)) as [[] | ? |];
  cbn [fst snd app];
  [destruct (primary_wait d) as [ev | ? |]; cbn [fst snd app];
   [| destruct (pause_reply d (thread_of params)) as [[] | ? |]; cbn [fst snd app];
      [destruct (secondary_wait d) as [ev | ? |]; cbn [fst snd app] | |] |];
   try (destruct (stackTrace_reply d (threadId ev)) as [[| f fs] | ? |];
        cbn [fst snd app fmap list_fmap head sf_id to_frame];
        try (destruct (scopes_reply d (frame_id f)) as [[| sc scs] | ? |];
             cbn [fst snd app];
             try (destruct (variables_reply d (variablesReference sc)) as [vs | ? |];
                  cbn [fst snd app]))) | |].

(** X28. Whatever the debug client answers, [lcpDebugStep] hands back a
    result or waits, and never rejects; it asks at most seven things. On
    a session that is missing or has no debug client it asks nothing.
    When the request for the action is refused it asks nothing more and
    the refusal is the result. It sends [pause], and waits a second
    time, only after the first wait failed; when [pause] is refused the
    refusal is the result and no second wait is made. *)
Theorem step_stops_at_the_first_failure (session : SessionLookup) (params : DebugStepParams) :
  let r := lcpDebugStep session params in
  (length (fst r) <= 7)%nat /\
  (exists p, snd r = Returned p /\ forall e, p <> Rejected e) /\
  ((forall d, session <> inr (Some d)) ->
     fst r = [] /\ exists res, snd r = Returned (Resolved res) /\ success res = false) /\
  (forall d, session = inr (Some d) ->
     (forall e, action_reply d (action params) (thread_of params) = Rejected e ->
        r = ([action_request params], Returned (Resolved (toToolResult e)))) /\
     ((forall e, primary_wait d <> Rejected e) ->
        (pause_request params ∉ fst r) /\ (IssuedWait "stopped" 2000 ∉ fst r)) /\
     (forall e1 e2, action_reply d (action params) (thread_of params) = Resolved tt ->
        primary_wait d = Rejected e1 -> pause_reply d (thread_of params) = Rejected e2 ->
        r = (direct_path params ++ [pause_request params],
             Returned (Resolved (toToolResult e2))))).
Proof.
  intros r. unfold r. clear r.
  destruct session as [err | [d |]].
  - split; [simpl; lia |]. split; [eexists; split; [reflexivity | done] |].
    split; [| intros d Hd; discriminate]. intros _. split; [done |].
    eexists. split; [reflexivity |]. by destruct err.
  - split.
    { step_cases d params; simpl; lia. }
    split.
    { step_cases d params; (eexists; split; [reflexivity | done]). }
    split; [intros H; by destruct (H d) |].
    intros d' [= <-]. split; [| split].
    + intros e He. unfold lcpDebugStep, step_body, bind, do_action, await.
      cbn [fst snd app]. by rewrite He.
    + intros Hprim. pose proof (action_is_not_pause params) as Hne.
      unfold action_request, pause_request, thread_argument in *.
      step_cases d params;
        try (by destruct (Hprim _ eq_refl));
        rewrite ?elem_of_cons, ?elem_of_nil; split; intros H;
        repeat (destruct H as [H | H]); try done; try discriminate H; congruence.
    + intros e1 e2 Ha Hp Hpa.
      unfold lcpDebugStep, step_body, bind, try_catch, do_action, pause, await.
      cbn [fst snd app]. rewrite Ha. cbn [fst snd app]. rewrite Hp. cbn [fst snd app].
      rewrite Hpa. reflexivity.
  - split; [simpl; lia |]. split; [eexists; split; [reflexivity | done] |].
    split; [| intros d Hd; discriminate]. intros _. split; [done |].
    eexists. split; [reflexivity |]. done.
Qed.

End DebugStep.

(* ===================================================================== *)
(** * src/dap/client.ts and src/lsp/client.ts: the frame codec *)
(* ===================================================================== *)

Module FrameCodec.

(** A JavaScript string is the list of its UTF-16 code units; a [Buffer]
    is the list of its bytes. Lengths and indices are [nat]. A message
    is taken as its JSON text, the string that [JSON.stringify] gives
    and that [JSON.parse] receives. *)
Definition JsString : Type := list Z.
Definition Bytes : Type := list Z.

(** ** UTF-8, as [stdin.write(string)], [Buffer.byteLength(string)] and
    [buffer.toString()] use it *)

Definition is_high_surrogate (c : Z) : bool := (55296 <=? c) && (c <? 56320).
Definition is_low_surrogate (c : Z) : bool := (56320 <=? c) && (c <? 57344).

(** U+FFFD, in UTF-8. *)
Definition replacement_bytes : Bytes := [239; 191; 189].

(** The bytes of one code unit that is not the first half of a pair. *)
Definition unit_bytes (c : Z) : Bytes :=
  if c <? 128 then [c]
  else if c <? 2048 then [192 + c / 64; 128 + c mod 64]
  else if is_low_surrogate c then replacement_bytes
  else [224 + c / 4096; 128 + (c / 64) mod 64; 128 + c mod 64].

(** The bytes of a surrogate pair. *)
Definition pair_bytes (h l : Z) : Bytes :=
  let cp := 65536 + (h - 55296) * 1024 + (l - 56320) in
  [240 + cp / 262144; 128 + (cp / 4096) mod 64; 128 + (cp / 64) mod 64; 128 + cp mod 64].

(** [pending] is a first half of a surrogate pair whose second half is
    awaited. *)
Fixpoint utf8_encode_from (pending : option Z) (s : JsString) : Bytes :=
  match s with
  | [] => match pending with Some _ => replacement_bytes | None => [] end
  | c :: rest =>
      match pending with
      | Some h =>
          if is_low_surrogate c then pair_bytes h c ++ utf8_encode_from None rest
          else replacement_bytes ++
               (if is_high_surrogate c then utf8_encode_from (Some c) rest
                else unit_bytes c ++ utf8_encode_from None rest)
      | None =>
          if is_high_surrogate c then utf8_encode_from (Some c) rest
          else unit_bytes c ++ utf8_encode_from None rest
      end
  end.

Definition utf8_encode (s : JsString) : Bytes := utf8_encode_from None s.

(** [Buffer.byteLength(s)] *)
Definition byteLength (s : JsString) : nat := length (utf8_encode s).

Definition is_continuation (b : Z) : bool := (128 <=? b) && (b <? 192).

(** [buffer.toString()]: exact on well-formed UTF-8; a byte that starts
    no complete sequence gives U+FFFD. (Node also rejects overlong
    forms and encoded surrogates; no statement below feeds any.) *)
Fixpoint utf8_decode (bs : Bytes) : JsString :=
  match bs with
  | [] => []
  | b0 :: t =>
      if b0 <? 128 then b0 :: utf8_decode t
      else if (194 <=? b0) && (b0 <? 224) then
        match t with
        | b1 :: r1 =>
            if is_continuation b1
            then ((b0 - 192) * 64 + (b1 - 128)) :: utf8_decode r1
            else 65533 :: utf8_decode t
        | [] => [65533]
        end
      else if (224 <=? b0) && (b0 <? 240) then
        match t with
        | b1 :: r1 =>
            if is_continuation b1 then
              match r1 with
              | b2 :: r2 =>
                  if is_continuation b2
                  then ((b0 - 224) * 4096 + (b1 - 128) * 64 + (b2 - 128)) :: utf8_decode r2
                  else 65533 :: utf8_decode r1
              | [] => [65533]
              end
            else 65533 :: utf8_decode t
        | [] => [65533]
        end
      else if (240 <=? b0) && (b0 <? 245) then
        match t with
        | b1 :: r1 =>
            if is_continuation b1 then
              match r1 with
              | b2 :: r2 =>
                  if is_continuation b2 then
                    match r2 with
                    | b3 :: r3 =>
                        if is_continuation b3 then
                          let cp := (b0 - 240) * 262144 + (b1 - 128) * 4096
                                    + (b2 - 128) * 64 + (b3 - 128) in
                          (55296 + (cp - 65536) / 1024)
                            :: (56320 + (cp - 65536) mod 1024) :: utf8_decode r3
                        else 65533 :: utf8_decode r2
                    | [] => [65533]
                    end
                  else 65533 :: utf8_decode r1
              | [] => [65533]
              end
            else 65533 :: utf8_decode t
        | [] => [65533]
        end
      else 65533 :: utf8_decode t
  end.

(** ** Numbers in decimal *)

Fixpoint units_of_uint (u : Decimal.uint) : JsString :=
  match u with
  | Decimal.Nil => []
  | Decimal.D0 u => 48 :: units_of_uint u
  | Decimal.D1 u => 49 :: units_of_uint u
  | Decimal.D2 u => 50 :: units_of_uint u
  | Decimal.D3 u => 51 :: units_of_uint u
  | Decimal.D4 u => 52 :: units_of_uint u
  | Decimal.D5 u => 53 :: units_of_uint u
  | Decimal.D6 u => 54 :: units_of_uint u
  | Decimal.D7 u => 55 :: units_of_uint u
  | Decimal.D8 u => 56 :: units_of_uint u
  | Decimal.D9 u => 57 :: units_of_uint u
  end.

(** [`${n}`] for a length [n]. *)
Definition number_to_string (n : nat) : JsString := units_of_uint (Nat.to_uint n).

Fixpoint uint_of_units (s : JsString) : Decimal.uint :=
  match s with
  | [] => Decimal.Nil
  | c :: rest =>
      let u := uint_of_units rest in
      if decide (c = 49) then Decimal.D1 u
      else if decide (c = 50) then Decimal.D2 u
      else if decide (c = 51) then Decimal.D3 u
      else if decide (c = 52) then Decimal.D4 u
      else if decide (c = 53) then Decimal.D5 u
      else if decide (c = 54) then Decimal.D6 u
      else if decide (c = 55) then Decimal.D7 u
      else if decide (c = 56) then Decimal.D8 u
      else if decide (c = 57) then Decimal.D9 u
      else Decimal.D0 u
  end.

(** [parseInt(digits, 10)] on the digits that the header pattern
    captured. *)
Definition parseInt (digits : JsString) : nat := Nat.of_uint (uint_of_units digits).

(** ** Writing a frame *)

(** ["Content-Length: "] *)
Definition header_name : JsString :=
  [67; 111; 110; 116; 101; 110; 116; 45; 76; 101; 110; 103; 116; 104; 58; 32].

(** ["\r\n"] and ["\r\n\r\n"] *)
Definition crlf : JsString := [13; 10].
Definition crlfcrlf : JsString := [13; 10; 13; 10].

(** [`Content-Length: ${Buffer.byteLength(content)}\r\n\r\n${content}`] *)
Definition frame (content : JsString) : JsString :=
  header_name ++ number_to_string (byteLength content) ++ crlfcrlf ++ content.

(** What [stdin.write(message)] puts on the pipe. *)
Definition encode (content : JsString) : Bytes := utf8_encode (frame content).

(** ** Reading frames *)

Definition is_digit (c : Z) : bool := (48 <=? c) && (c <=? 57).

Fixpoint strip_prefix (p s : JsString) : option JsString :=
  match p with
  | [] => Some s
  | a :: p' =>
      match s with
      | b :: s' => if decide (a = b) then strip_prefix p' s' else None
      | [] => None
      end
  end.

Fixpoint take_digits (s : JsString) : JsString * JsString :=
  match s with
  | c :: rest =>
      if is_digit c then let (ds, r) := take_digits rest in (c :: ds, r)
      else ([], s)
  | [] => ([], [])
  end.

(** The pattern [/Content-Length: (\d+)\r\n/] matched at the start of
    [s]: the captured digits. The digits must run up to the ["\r"]. *)
Definition match_here (s : JsString) : option JsString :=
  match strip_prefix header_name s with
  | Some rest =>
      match take_digits rest with
      | (d :: ds, 13 :: 10 :: _) => Some (d :: ds)
      | _ => None
      end
  | None => None
  end.

(** [buffer.match(/Content-Length: (\d+)\r\n/)]: the leftmost match;
    gives [headerMatch[1]]. *)
Fixpoint regex_match (s : JsString) : option JsString :=
  match s with
  | [] => None
  | _ :: rest =>
      match match_here s with
      | Some ds => Some ds
      | None => regex_match rest
      end
  end.

(** [buffer.indexOf(needle)]; [None] is [-1]. *)
Fixpoint indexOf (needle s : JsString) : option nat :=
  match strip_prefix needle s with
  | Some _ => Some 0%nat
  | None =>
      match s with
      | [] => None
      | _ :: rest => S <$> indexOf needle rest
      end
  end.

(** [s.substring(from, to)] for [from <= to]. *)
Definition substring (from to : nat) (s : JsString) : JsString :=
  take (to - from) (drop from s).

(** The [while (true)] loop of [handleData]: the message contents handed
    to [JSON.parse], in order, and the buffer that is left. Every round
    that does not [break] shortens the buffer, so [fuel] rounds are
    enough when [fuel] exceeds its length. *)
Fixpoint parse_loop (fuel : nat) (buffer : JsString) : list JsString * JsString :=
  match fuel with
  | O => ([], buffer)
  | S fuel' =>
      match regex_match buffer with
      | None => ([], buffer)
      | Some digits =>
          let contentLength := parseInt digits in
          match indexOf crlfcrlf buffer with
          | None => ([], buffer)
          | Some headerEnd =>
              let messageStart := (headerEnd + 4)%nat in
              let messageEnd := (messageStart + contentLength)%nat in
              if (length buffer <? messageEnd)%nat then ([], buffer)
              else
                let messageContent := substring messageStart messageEnd buffer in
                let (more, rest) := parse_loop fuel' (drop messageEnd buffer) in
                (messageContent :: more, rest)
          end
      end
  end.

(** [handleData(data)] on the buffer: [this.buffer += data.toString()],
    then the loop. *)
Definition handleData (data : Bytes) (buffer : JsString) : list JsString * JsString :=
  let buffer' := buffer ++ utf8_decode data in
  parse_loop (S (length buffer')) buffer'.

(** Two chunks, one after the other. *)
Definition handle_two_chunks (chunk1 chunk2 : Bytes) : list JsString * JsString :=
  let (out1, buffer1) := handleData chunk1 [] in
  let (out2, buffer2) := handleData chunk2 buffer1 in
  (out1 ++ out2, buffer2).

(** [{"v":"ok"}] *)
Definition ascii_message : JsString := [123; 34; 118; 34; 58; 34; 111; 107; 34; 125].

(** [{"v":"é"}], as [JSON.stringify] writes it: the letter is the one
    code unit 233, and two bytes in UTF-8. *)
Definition accented_message : JsString := [123; 34; 118; 34; 58; 34; 233; 34; 125].

Example ascii_round_trip :
  handleData (encode ascii_message) [] = ([ascii_message], []).
Proof. vm_compute. reflexivity. Qed.

Example ascii_pair_split_in_header :
  let wire := encode ascii_message ++ encode [123; 125] in
  handle_two_chunks (take 7 wire) (drop 7 wire) = ([ascii_message; [123; 125]], []).
Proof. vm_compute. reflexivity. Qed.

Example accented_message_lengths :
  length accented_message = 9%nat /\ byteLength accented_message = 10%nat /\
  utf8_decode (utf8_encode accented_message) = accented_message.
Proof. vm_compute. done. Qed.

(** ** ASCII text *)

Definition is_ascii (s : list Z) : Prop := Forall (fun c => 0 <= c < 128) s.

Lemma utf8_encode_ascii (s : JsString) : is_ascii s -> utf8_encode s = s.
Proof.
  unfold utf8_encode. induction 1 as [| c s Hc Hs IH]; simpl; [reflexivity |].
  unfold is_high_surrogate, unit_bytes.
  replace (55296 <=? c) with false by (symmetry; apply Z.leb_gt; lia).
  replace (c <? 128) with true by (symmetry; apply Z.ltb_lt; lia).
  simpl. by rewrite IH.
Qed.

Lemma utf8_decode_ascii (bs : Bytes) : is_ascii bs -> utf8_decode bs = bs.
Proof.
  induction 1 as [| b bs Hb Hbs IH]; simpl; [reflexivity |].
  replace (b <? 128) with true by (symmetry; apply Z.ltb_lt; lia).
  by rewrite IH.
Qed.

Lemma byteLength_ascii (s : JsString) : is_ascii s -> byteLength s = length s.
Proof. intros H. unfold byteLength. by rewrite utf8_encode_ascii. Qed.

(** ** Decimal numbers *)

Lemma uint_of_units_of_uint (u : Decimal.uint) : uint_of_units (units_of_uint u) = u.
Proof. induction u; simpl; by rewrite ?IHu. Qed.

Lemma parseInt_number_to_string (n : nat) : parseInt (number_to_string n) = n.
Proof.
  unfold parseInt, number_to_string. rewrite uint_of_units_of_uint.
  apply DecimalNat.Unsigned.of_to.
Qed.

Lemma units_of_uint_digits (u : Decimal.uint) :
  Forall (fun c => 48 <= c <= 57) (units_of_uint u).
Proof. induction u; simpl; constructor; (lia || done). Qed.

Lemma number_to_string_digits (n : nat) :
  Forall (fun c => 48 <= c <= 57) (number_to_string n).
Proof. apply units_of_uint_digits. Qed.

Lemma number_to_string_nonempty (n : nat) : number_to_string n <> [].
Proof.
  unfold number_to_string. intros H.
  assert (Hu : Nat.to_uint n = Decimal.Nil) by (destruct (Nat.to_uint n); done).
  pose proof (DecimalNat.Unsigned.of_to n) as Hn. rewrite Hu in Hn. simpl in Hn.
  subst n. discriminate.
Qed.

(** ** Finding the header *)

Lemma strip_prefix_app (p s : JsString) : strip_prefix p (p ++ s) = Some s.
Proof. induction p as [| a p IH]; simpl; [done |]. by rewrite decide_True. Qed.

Lemma take_digits_stop (ds t : JsString) :
  Forall (fun c => 48 <= c <= 57) ds ->
  take_digits (ds ++ 13 :: t) = (ds, 13 :: t).
Proof.
  induction 1 as [| c ds Hc Hds IH]; simpl; [reflexivity |].
  unfold is_digit.
  replace (48 <=? c) with true by (symmetry; apply Z.leb_le; lia).
  replace (c <=? 57) with true by (symmetry; apply Z.leb_le; lia).
  simpl. by rewrite IH.
Qed.

(** The text before the blank line of a frame: the header name and the
    digits of a length. *)
Definition header_line (n : nat) : JsString := header_name ++ number_to_string n.

Lemma header_line_no_cr (n : nat) : Forall (fun c => c <> 13) (header_line n).
Proof.
  unfold header_line. apply Forall_app. split.
  - unfold header_name. repeat constructor; discriminate.
  - eapply Forall_impl; [apply number_to_string_digits |]. simpl. intros c Hc. lia.
Qed.

Lemma header_line_ascii (n : nat) : is_ascii (header_line n).
Proof.
  unfold header_line. apply Forall_app. split.
  - unfold header_name. repeat constructor; lia.
  - eapply Forall_impl; [apply number_to_string_digits |]. simpl. intros c Hc. lia.
Qed.

Lemma frame_header (content : JsString) :
  frame content = header_line (byteLength content) ++ crlfcrlf ++ content.
Proof. unfold frame, header_line. by rewrite <- app_assoc. Qed.

Lemma frame_ascii (content : JsString) : is_ascii content -> is_ascii (frame content).
Proof.
  intros H. rewrite frame_header. apply Forall_app. split; [apply header_line_ascii |].
  apply Forall_app. split; [| done]. unfold crlfcrlf. repeat constructor; lia.
Qed.

Lemma match_here_header (n : nat) (t : JsString) :
  match_here (header_line n ++ 13 :: 10 :: t) = Some (number_to_string n).
Proof.
  unfold match_here, header_line. rewrite <- app_assoc, strip_prefix_app.
  rewrite take_digits_stop by apply number_to_string_digits.
  pose proof (number_to_string_nonempty n).
  by destruct (number_to_string n).
Qed.

(** The pattern matches at the very start of a buffer that begins with
    a header line, whatever follows it. *)
Lemma regex_match_header (n : nat) (t : JsString) :
  regex_match (header_line n ++ 13 :: 10 :: t) = Some (number_to_string n).
Proof.
  pose proof (match_here_header n t) as H.
  destruct (header_line n ++ 13 :: 10 :: t) as [| c rest] eqn:Heq.
  - unfold header_line, header_name in Heq. discriminate.
  - simpl regex_match. by rewrite H.
Qed.

Lemma indexOf_no_cr (h t : JsString) :
  Forall (fun c => c <> 13) h ->
  indexOf crlfcrlf (h ++ t) = (fun i => (length h + i)%nat) <$> indexOf crlfcrlf t.
Proof.
  induction 1 as [| c h Hc Hh IH]; simpl app.
  - destruct (indexOf crlfcrlf t); reflexivity.
  - cbn [indexOf]. unfold crlfcrlf at 1. cbn [strip_prefix].
    rewrite decide_False by congruence.
    fold crlfcrlf. rewrite IH. destruct (indexOf crlfcrlf t); reflexivity.
Qed.

Lemma indexOf_short (q : JsString) :
  (length q < 4)%nat -> indexOf crlfcrlf q = None.
Proof.
  intros Hq.
  destruct q as [| a [| b [| c [| d q]]]]; simpl in Hq; try lia;
    unfold crlfcrlf; simpl; repeat case_decide; reflexivity.
Qed.

(** The blank line that ends the header is found right after the header
    line. *)
Lemma indexOf_header (n : nat) (t : JsString) :
  indexOf crlfcrlf (header_line n ++ crlfcrlf ++ t) = Some (length (header_line n)).
Proof.
  rewrite indexOf_no_cr by apply header_line_no_cr.
  unfold crlfcrlf. simpl. f_equal. lia.
Qed.

(** It is not found before all of it has arrived. *)
Lemma indexOf_header_partial (n : nat) (q : JsString) (j : nat) :
  (length q < 4)%nat ->
  indexOf crlfcrlf (take j (header_line n) ++ q) = None.
Proof.
  intros Hq. rewrite indexOf_no_cr.
  - by rewrite indexOf_short.
  - apply Forall_take, header_line_no_cr.
Qed.

(** ** The loop on ASCII frames *)

Lemma frame_length (content : JsString) :
  length (frame content) = (length (header_line (byteLength content)) + 4 + length content)%nat.
Proof. rewrite frame_header, !length_app. simpl. lia. Qed.

Lemma parse_loop_nil (fuel : nat) : parse_loop fuel [] = ([], []).
Proof. destruct fuel; reflexivity. Qed.

(** A complete frame at the head of the buffer is taken off, and the
    loop goes on with what follows it. *)
Lemma parse_loop_frame (fuel : nat) (content rest : JsString) :
  is_ascii content ->
  parse_loop (S fuel) (frame content ++ rest) =
  (content :: fst (parse_loop fuel rest), snd (parse_loop fuel rest)).
Proof.
  intros Hascii. cbn [parse_loop].
  rewrite frame_header, byteLength_ascii by done.
  set (h := header_line (length content)).
  assert (Hbuf : (h ++ crlfcrlf ++ content) ++ rest = h ++ 13 :: 10 :: 13 :: 10 :: content ++ rest).
  { rewrite <- app_assoc. reflexivity. }
  rewrite Hbuf.
  pose proof (regex_match_header (length content) (13 :: 10 :: content ++ rest)) as Hre.
  fold h in Hre. rewrite Hre.
  rewrite parseInt_number_to_string.
  change (h ++ 13 :: 10 :: 13 :: 10 :: content ++ rest)
    with (h ++ crlfcrlf ++ (content ++ rest)).
  pose proof (indexOf_header (length content) (content ++ rest)) as Hix.
  fold h in Hix. rewrite Hix.
  assert (Hlen : length (h ++ crlfcrlf ++ content ++ rest)
                 = (length h + 4 + length content + length rest)%nat).
  { rewrite !length_app. simpl. lia. }
  rewrite Hlen.
  replace (length h + 4 + length content + length rest <? length h + 4 + length content)%nat
    with false by (symmetry; apply Nat.ltb_ge; lia).
  assert (Hdrop : drop (length h + 4 + length content) (h ++ crlfcrlf ++ content ++ rest) = rest).
  { rewrite !app_assoc. rewrite drop_app_length'; [done |].
    rewrite !length_app. simpl. lia. }
  assert (Hsub : substring (length h + 4) (length h + 4 + length content)
                   (h ++ crlfcrlf ++ content ++ rest) = content).
  { unfold substring.
    replace (length h + 4 + length content - (length h + 4))%nat with (length content) by lia.
    rewrite (app_assoc h crlfcrlf). rewrite drop_app_length'.
    - by rewrite take_app_length.
    - rewrite length_app. simpl. lia. }
  rewrite Hdrop, Hsub. by destruct (parse_loop fuel rest).
Qed.

(** A frame of which a part is still missing is left in the buffer. *)
Lemma parse_loop_partial (fuel j : nat) (content : JsString) :
  is_ascii content -> (j < length (frame content))%nat ->
  parse_loop fuel (take j (frame content)) = ([], take j (frame content)).
Proof.
  intros Hascii Hj. destruct fuel as [| fuel]; [reflexivity |]. cbn [parse_loop].
  rewrite frame_length, byteLength_ascii in Hj by done.
  rewrite frame_header, byteLength_ascii by done.
  set (h := header_line (length content)) in *.
  rewrite take_app.
  destruct (decide (j < length h + 4)%nat) as [Hshort | Hlong].
  - assert (Hnone : indexOf crlfcrlf
                      (take j h ++ take (j - length h) (crlfcrlf ++ content)) = None).
    { apply indexOf_header_partial. rewrite length_take. lia. }
    rewrite Hnone. by destruct (regex_match _).
  - rewrite take_ge by lia. rewrite take_app.
    change (length crlfcrlf) with 4%nat.
    rewrite (take_ge crlfcrlf) by (change (length crlfcrlf) with 4%nat; lia).
    set (part := take (j - length h - 4) content).
    change (h ++ crlfcrlf ++ part) with (h ++ 13 :: 10 :: 13 :: 10 :: part).
    pose proof (regex_match_header (length content) (13 :: 10 :: part)) as Hre.
    fold h in Hre. rewrite Hre.
    rewrite parseInt_number_to_string.
    change (h ++ 13 :: 10 :: 13 :: 10 :: part) with (h ++ crlfcrlf ++ part).
    pose proof (indexOf_header (length content) part) as Hix.
    fold h in Hix. rewrite Hix.
    replace (length (h ++ crlfcrlf ++ part) <? length h + 4 + length content)%nat
      with true; [reflexivity |].
    symmetry. apply Nat.ltb_lt. rewrite !length_app. unfold part.
    rewrite length_take. change (length crlfcrlf) with 4%nat. lia.
Qed.

Lemma encode_ascii (content : JsString) : is_ascii content -> encode content = frame content.
Proof. intros H. unfold encode. by apply utf8_encode_ascii, frame_ascii. Qed.

Lemma frame_nonempty (content : JsString) : (0 < length (frame content))%nat.
Proof. rewrite frame_header, length_app. unfold header_line, header_name. simpl. lia. Qed.

Lemma parse_loop_one (fuel : nat) (m : JsString) :
  is_ascii m -> parse_loop (S fuel) (frame m) = ([m], []).
Proof.
  intros H. rewrite <- (app_nil_r (frame m)), parse_loop_frame by done.
  by rewrite parse_loop_nil.
Qed.

Lemma parse_loop_two (fuel : nat) (m1 m2 : JsString) :
  is_ascii m1 -> is_ascii m2 ->
  parse_loop (S (S fuel)) (frame m1 ++ frame m2) = ([m1; m2], []).
Proof.
  intros H1 H2. rewrite parse_loop_frame by done. by rewrite parse_loop_one.
Qed.

Lemma parse_loop_one_and_part (fuel j : nat) (m1 m2 : JsString) :
  is_ascii m1 -> is_ascii m2 -> (j < length (frame m2))%nat ->
  parse_loop (S fuel) (frame m1 ++ take j (frame m2)) = ([m1], take j (frame m2)).
Proof.
  intros H1 H2 Hj. rewrite parse_loop_frame by done. by rewrite parse_loop_partial.
Qed.

Lemma handleData_ascii (data : Bytes) (buffer : JsString) :
  is_ascii data ->
  handleData data buffer = parse_loop (S (length (buffer ++ data))) (buffer ++ data).
Proof. intros H. unfold handleData. by rewrite utf8_decode_ascii. Qed.

(** Round trip on ASCII text. For messages whose text is ASCII (one
    byte per code unit): a frame is read back as the message, and two
    frames split into two chunks at any byte offset are read back as the
    two messages, in order, with nothing left in the buffer. *)
Theorem ascii_frames_survive_any_split (m1 m2 : JsString) (k : nat) :
  is_ascii m1 -> is_ascii m2 ->
  handleData (encode m1) [] = ([m1], []) /\
  handle_two_chunks (take k (encode m1 ++ encode m2)) (drop k (encode m1 ++ encode m2))
  = ([m1; m2], []).
Proof.
  intros H1 H2. rewrite !encode_ascii by done.
  pose proof (frame_ascii m1 H1) as Ha1. pose proof (frame_ascii m2 H2) as Ha2.
  pose proof (frame_nonempty m1) as Hn1. pose proof (frame_nonempty m2) as Hn2.
  split.
  - rewrite handleData_ascii by done. rewrite app_nil_l. by apply parse_loop_one.
  - assert (Haw : is_ascii (frame m1 ++ frame m2)) by (by apply Forall_app).
    unfold handle_two_chunks.
    rewrite (handleData_ascii (take k _)) by (by apply Forall_take).
    rewrite app_nil_l.
    destruct (decide (k < length (frame m1))%nat) as [Hk1 | Hk1].
    + rewrite take_app_le by lia. rewrite parse_loop_partial by done.
      rewrite handleData_ascii by (by apply Forall_drop).
      rewrite drop_app_le by lia. rewrite app_assoc, take_drop.
      destruct (length (frame m1 ++ frame m2)) as [| f] eqn:Hlen.
      { rewrite length_app in Hlen. lia. }
      by rewrite parse_loop_two.
    + destruct (decide (k < length (frame m1 ++ frame m2))%nat) as [Hk2 | Hk2].
      * rewrite length_app in Hk2.
        rewrite take_app_ge by lia.
        rewrite parse_loop_one_and_part by (done || lia).
        rewrite handleData_ascii by (by apply Forall_drop).
        rewrite drop_app_ge by lia. rewrite take_drop.
        by rewrite parse_loop_one.
      * rewrite take_ge by lia. rewrite drop_ge by lia.
        destruct (length (frame m1 ++ frame m2)) as [| f] eqn:Hlen.
        { rewrite length_app in Hlen. lia. }
        rewrite parse_loop_two by done. reflexivity.
Qed.

Lemma ascii_frames_survive_any_split_witness :
  handle_two_chunks (take 30 (encode ascii_message ++ encode [123; 125]))
    (drop 30 (encode ascii_message ++ encode [123; 125]))
  = ([ascii_message; [123; 125]], []).
Proof.
  apply (proj2 (ascii_frames_survive_any_split ascii_message [123; 125] 30
                  ltac:(unfold ascii_message; repeat constructor; lia)
                  ltac:(repeat constructor; lia))).
Defined.

(** ** Text that is not ASCII *)

(** C3. The length in the header counts bytes, and [handleData]
    compares it with a count of UTF-16 code units. For the message
    [{"v":"é"}], 9 code units and 10 bytes:
    - the frame alone is not read back: no message comes out and the
      frame stays in the buffer;
    - followed by a second frame in the same chunk, the content handed
      to [JSON.parse] is the message with the first letter of the next
      header glued to it, and the second message never comes out;
    - split between the two bytes of the letter, each chunk is decoded
      on its own and the letter comes out as two U+FFFD. *)
Theorem non_ascii_frame_is_not_read_back :
  handleData (encode accented_message) [] = ([], frame accented_message) /\
  handle_two_chunks (encode accented_message ++ encode ascii_message) []
    = ([accented_message ++ [67]], drop 1 (frame ascii_message)) /\
  handle_two_chunks (take 29 (encode accented_message ++ encode ascii_message))
                    (drop 29 (encode accented_message ++ encode ascii_message))
    = ([[123; 34; 118; 34; 58; 34; 65533; 65533; 34; 125]; ascii_message], []).
Proof. vm_compute. done. Qed.

(** ** A stream of ASCII frames in any chunks *)

(** The frames of the messages, one after the other. *)
Definition wire (ms : list JsString) : JsString := concat (frame <$> ms).

(** What the first [j] code units of the frames hold: the messages
    that are complete, and the part of the next frame. *)
Fixpoint split_at (j : nat) (ms : list JsString) : list JsString * JsString :=
  match ms with
  | [] => ([], [])
  | m :: rest =>
      if (j <? length (frame m))%nat then ([], take j (frame m))
      else let (out, b) := split_at (j - length (frame m)) rest in (m :: out, b)
  end.

(** [handleData] on the chunks of a stream, one after the other: the
    message contents it cut out, and the buffer. *)
Definition feed_chunk (st : list JsString * JsString) (chunk : Bytes)
  : list JsString * JsString :=
  let (o, b) := handleData chunk (snd st) in (fst st ++ o, b).

Definition feed (chunks : list Bytes) : list JsString * JsString :=
  foldl feed_chunk ([], []) chunks.

Lemma wire_ascii (ms : list JsString) : Forall is_ascii ms -> is_ascii (wire ms).
Proof.
  induction 1 as [| m ms Hm _ IH]; [constructor |].
  change (wire (m :: ms)) with (frame m ++ wire ms).
  apply Forall_app. split; [by apply frame_ascii | exact IH].
Qed.

Lemma parse_loop_take (ms : list JsString) (j fuel : nat) :
  Forall is_ascii ms -> (length (take j (wire ms)) < fuel)%nat ->
  parse_loop fuel (take j (wire ms)) = split_at j ms.
Proof.
  intros Hms. revert j fuel. induction Hms as [| m ms Hm _ IH]; intros j fuel Hfuel.
  - unfold wire. simpl. rewrite take_nil. apply parse_loop_nil.
  - change (wire (m :: ms)) with (frame m ++ wire ms) in *. cbn [split_at].
    pose proof (frame_nonempty m) as Hne.
    destruct (j <? length (frame m))%nat eqn:Hj.
    + apply Nat.ltb_lt in Hj. rewrite take_app_le by lia.
      by apply parse_loop_partial.
    + apply Nat.ltb_ge in Hj. rewrite take_app_ge in * by lia.
      rewrite length_app in Hfuel.
      destruct fuel as [| fuel]; [lia |].
      rewrite parse_loop_frame by done. rewrite IH by lia.
      by destruct (split_at (j - length (frame m)) ms).
Qed.

Lemma split_at_all (ms : list JsString) (j : nat) :
  (length (wire ms) <= j)%nat -> split_at j ms = (ms, []).
Proof.
  revert j. induction ms as [| m ms IH]; intros j Hj; [done |].
  change (wire (m :: ms)) with (frame m ++ wire ms) in Hj. rewrite length_app in Hj.
  cbn [split_at]. destruct (j <? length (frame m))%nat eqn:Hlt.
  - apply Nat.ltb_lt in Hlt. lia.
  - by rewrite IH by lia.
Qed.

(** One more chunk of the stream. *)
Lemma feed_chunk_split_at (ms : list JsString) (k c : nat) :
  Forall is_ascii ms ->
  feed_chunk (split_at k ms) (take c (drop k (wire ms))) = split_at (k + c) ms.
Proof.
  intros Hms. revert k. induction Hms as [| m ms Hm Hms IH]; intros k.
  - unfold wire. simpl. rewrite drop_nil, take_nil. reflexivity.
  - change (wire (m :: ms)) with (frame m ++ wire ms). cbn [split_at].
    pose proof (frame_nonempty m) as Hne.
    assert (Hw : is_ascii (frame m ++ wire ms)).
    { apply Forall_app. split; [by apply frame_ascii | by apply wire_ascii]. }
    destruct (k <? length (frame m))%nat eqn:Hk.
    + apply Nat.ltb_lt in Hk. unfold feed_chunk. cbn [fst snd].
      rewrite handleData_ascii by (by apply Forall_take, Forall_drop).
      assert (Heq : take k (frame m) ++ take c (drop k (frame m ++ wire ms))
                    = take (k + c) (frame m ++ wire ms)).
      { rewrite <- (take_app_le (frame m) (wire ms) k) by lia.
        apply take_take_drop. }
      rewrite Heq.
      pose proof (parse_loop_take (m :: ms) (k + c)
                    (S (length (take (k + c) (frame m ++ wire ms))))
                    (proj2 (Forall_cons _ _ _) (conj Hm Hms))) as Hp.
      change (wire (m :: ms)) with (frame m ++ wire ms) in Hp.
      rewrite Hp by lia. cbn [split_at].
      by destruct (if (k + c <? length (frame m))%nat then _ else _).
    + apply Nat.ltb_ge in Hk. rewrite drop_app_ge by lia.
      specialize (IH (k - length (frame m))%nat).
      assert (Hkc : (k + c <? length (frame m))%nat = false) by (apply Nat.ltb_ge; lia).
      rewrite Hkc.
      replace (k + c - length (frame m))%nat with (k - length (frame m) + c)%nat by lia.
      rewrite <- IH. unfold feed_chunk.
      destruct (split_at (k - length (frame m)) ms) as [out b]. cbn [fst snd].
      by destruct (handleData _ b).
Qed.

Lemma feed_from (ms : list JsString) (chunks : list Bytes) (k : nat) :
  Forall is_ascii ms -> concat chunks = drop k (wire ms) ->
  foldl feed_chunk (split_at k ms) chunks = (ms, []).
Proof.
  intros Hms. revert k. induction chunks as [| chunk chunks IH]; intros k Hc.
  - simpl in *. apply split_at_all.
    assert (Hlen : length (drop k (wire ms)) = 0%nat) by by rewrite <- Hc.
    rewrite length_drop in Hlen. lia.
  - cbn [foldl]. simpl in Hc.
    assert (Hchunk : chunk = take (length chunk) (drop k (wire ms))).
    { rewrite <- Hc. by rewrite take_app_length. }
    rewrite Hchunk at 1. rewrite feed_chunk_split_at by done.
    apply IH. rewrite <- drop_drop, <- Hc. by rewrite drop_app_length.
Qed.

Lemma encode_wire (ms : list JsString) :
  Forall is_ascii ms -> concat (encode <$> ms) = wire ms.
Proof.
  intros Hms. unfold wire. f_equal. apply Forall_fmap_ext_1.
  eapply Forall_impl; [exact Hms |]. intros m Hm. by apply encode_ascii.
Qed.

Lemma feed_wire (ms : list JsString) (chunks : list Bytes) :
  Forall is_ascii ms -> concat chunks = wire ms ->
  foldl feed_chunk ([], []) chunks = (ms, []).
Proof.
  intros Hms Hc.
  assert (H0 : split_at 0 ms = ([], [])).
  { destruct ms as [| m ms]; [done |]. cbn [split_at].
    pose proof (frame_nonempty m) as Hne.
    assert (Hlt : (0 <? length (frame m))%nat = true) by by apply Nat.ltb_lt.
    by rewrite Hlt, take_0. }
  rewrite <- H0. by apply feed_from.
Qed.

(** What was cut out before stays in front of what comes later. *)
Lemma feed_prefix (chunks : list Bytes) (out : list JsString) (buffer : JsString) :
  foldl feed_chunk (out, buffer) chunks =
  (out ++ fst (foldl feed_chunk ([], buffer) chunks),
   snd (foldl feed_chunk ([], buffer) chunks)).
Proof.
  revert out buffer. induction chunks as [| chunk chunks IH]; intros out buffer.
  - simpl. by rewrite app_nil_r.
  - cbn [foldl]. unfold feed_chunk at 2 4 6. cbn [fst snd].
    destruct (handleData chunk buffer) as [o b]. cbn [app].
    rewrite (IH (out ++ o)), (IH o). cbn [fst snd]. by rewrite app_assoc.
Qed.

(** X26. A stream of messages whose text is ASCII is read back whole,
    however the pipe cuts it into chunks: fed chunk by chunk,
    [handleData] cuts out exactly the messages that were written, in
    order, and leaves the buffer empty. *)
Theorem ascii_stream_survives_any_chunking (ms : list JsString) (chunks : list Bytes) :
  Forall is_ascii ms -> concat chunks = concat (encode <$> ms) ->
  feed chunks = (ms, []).
Proof.
  intros Hms Hc. unfold feed. rewrite encode_wire in Hc by done.
  by apply feed_wire.
Qed.

Lemma ascii_stream_survives_any_chunking_witness :
  feed [take 5 (encode ascii_message);
        drop 5 (encode ascii_message) ++ take 20 (encode [123; 125]);
        []; drop 20 (encode [123; 125]) ++ encode ascii_message]
  = ([ascii_message; [123; 125]; ascii_message], []).
Proof.
  apply (ascii_stream_survives_any_chunking [ascii_message; [123; 125]; ascii_message]).
  - unfold ascii_message. repeat constructor; lia.
  - vm_compute. reflexivity.
Defined.

End FrameCodec.

(* ===================================================================== *)
(** * src/dap/client.ts: from the pipe to the multiplexer *)
(* ===================================================================== *)

Module DAPStream.
Import DAPClient.

Section WithJSON.

(** [JSON.parse] on a message content: [None] when it throws, which
    [handleData] catches and logs. *)
Variable JSON_parse : FrameCodec.JsString -> option DAPMessage.

(** The [try] block of the loop for one message content. *)
Definition deliver (c : Client) (messageContent : FrameCodec.JsString) : Client :=
  match JSON_parse messageContent with
  | Some message => handleMessage message c
  | None => c
  end.

(** [handleData(data)] on the client and its [buffer] field.
    [handleMessage] does not touch the buffer, so the messages of one
    chunk are delivered after the loop has cut them out. *)
Definition handleData (data : FrameCodec.Bytes) (st : FrameCodec.JsString * Client)
  : FrameCodec.JsString * Client :=
  let (contents, buffer') := FrameCodec.handleData data (fst st) in
  (buffer', foldl deliver (snd st) contents).

(** Two ASCII frames that arrive in two chunks, split anywhere, reach
    [handleMessage] as the first message and then the second. *)
Lemma ascii_frames_reach_handleMessage (m1 m2 : FrameCodec.JsString) (k : nat) (c : Client) :
  FrameCodec.is_ascii m1 -> FrameCodec.is_ascii m2 ->
  let wire := FrameCodec.encode m1 ++ FrameCodec.encode m2 in
  handleData (drop k wire) (handleData (take k wire) ([], c)) =
  ([], deliver (deliver c m1) m2).
Proof.
  intros H1 H2 wire.
  pose proof (proj2 (FrameCodec.ascii_frames_survive_any_split m1 m2 k H1 H2)) as Hsplit.
  fold wire in Hsplit. unfold FrameCodec.handle_two_chunks in Hsplit.
  unfold handleData at 2. simpl fst. simpl snd.
  destruct (FrameCodec.handleData (take k wire) []) as [out1 buffer1].
  unfold handleData. simpl fst. simpl snd.
  destruct (FrameCodec.handleData (drop k wire) buffer1) as [out2 buffer2].
  injection Hsplit as Hout ->. f_equal.
  rewrite <- foldl_app, Hout. reflexivity.
Qed.

(** [handleData] on the chunks of a stream, one after the other. *)
Definition feed (chunks : list FrameCodec.Bytes) (st : FrameCodec.JsString * Client)
  : FrameCodec.JsString * Client :=
  foldl (fun acc chunk => handleData chunk acc) st chunks.

Lemma feed_delivers (chunks : list FrameCodec.Bytes) (buffer : FrameCodec.JsString)
    (c : Client) :
  feed chunks (buffer, c) =
  (snd (foldl FrameCodec.feed_chunk ([], buffer) chunks),
   foldl deliver c (fst (foldl FrameCodec.feed_chunk ([], buffer) chunks))).
Proof.
  revert buffer c. induction chunks as [| chunk chunks IH]; intros buffer c; [done |].
  unfold feed in *. cbn [foldl].
  destruct (FrameCodec.handleData chunk buffer) as [o b] eqn:Hh.
  assert (H1 : handleData chunk (buffer, c) = (b, foldl deliver c o))
    by (unfold handleData; cbn [fst snd]; rewrite Hh; reflexivity).
  assert (H2 : FrameCodec.feed_chunk ([], buffer) chunk = (o, b))
    by (unfold FrameCodec.feed_chunk; cbn [fst snd]; rewrite Hh; reflexivity).
  rewrite H1, H2, IH, (FrameCodec.feed_prefix chunks o b). cbn [fst snd].
  by rewrite foldl_app.
Qed.

(** X27. From the pipe to the multiplexer: when the adapter writes
    messages whose text is ASCII, then however the pipe cuts the stream
    into chunks, the client ends as if [handleMessage] had been called
    once for each message that parses, in the order written, with an
    empty buffer; a message that does not parse is skipped and the ones
    after it are still handled. *)
Theorem chunked_stream_reaches_handleMessage (ms : list FrameCodec.JsString)
    (chunks : list FrameCodec.Bytes) (c : Client) :
  Forall FrameCodec.is_ascii ms ->
  concat chunks = concat (FrameCodec.encode <$> ms) ->
  feed chunks ([], c) = ([], foldl deliver c ms) /\
  (forall m rest, ms = m :: rest -> JSON_parse m = None ->
     feed chunks ([], c) = ([], foldl deliver c rest)) /\
  (forall message, JSON_parse <$> ms = [Some message] ->
     snd (feed chunks ([], c)) = handleMessage message c).
Proof.
  intros Hms Hc. rewrite FrameCodec.encode_wire in Hc by done.
  assert (Hfeed : feed chunks ([], c) = ([], foldl deliver c ms)).
  { pose proof (FrameCodec.feed_wire ms chunks Hms Hc) as Hf.
    rewrite feed_delivers. unfold FrameCodec.JsString, FrameCodec.Bytes in *.
    by rewrite Hf. }
  split; [exact Hfeed |]. split.
  - intros m rest -> Hm. rewrite Hfeed. cbn [foldl]. unfold deliver at 2. by rewrite Hm.
  - intros message Hp. rewrite Hfeed. destruct ms as [| m [| m' rest]]; try done.
    injection Hp as Hp. cbn [foldl snd]. unfold deliver. by rewrite Hp.
Qed.

End WithJSON.

(** A parser that knows one message text, for which it gives a
    ['stopped'] event. *)
Definition parse_one_event (content : FrameCodec.JsString) : option DAPMessage :=
  if decide (content = FrameCodec.ascii_message)
  then Some (Event 1 "stopped" Js.JsNull) else None.

Lemma chunked_stream_reaches_handleMessage_witness :
  feed parse_one_event
    [take 5 (FrameCodec.encode [123; 125]);
     drop 5 (FrameCodec.encode [123; 125]) ++ take 9 (FrameCodec.encode FrameCodec.ascii_message);
     drop 9 (FrameCodec.encode FrameCodec.ascii_message)]
    ([], started)
  = ([], foldl (deliver parse_one_event) started [[123; 125]; FrameCodec.ascii_message]).
Proof.
  apply (proj1 (chunked_stream_reaches_handleMessage parse_one_event
                  [[123; 125]; FrameCodec.ascii_message]
                  [take 5 (FrameCodec.encode [123; 125]);
                   drop 5 (FrameCodec.encode [123; 125]) ++
                     take 9 (FrameCodec.encode FrameCodec.ascii_message);
                   drop 9 (FrameCodec.encode FrameCodec.ascii_message)]
                  started
                  ltac:(unfold FrameCodec.ascii_message; repeat constructor; lia)
                  ltac:(vm_compute; reflexivity))).
Defined.

End DAPStream.

(* ===================================================================== *)
(** * src/lsp/client.ts *)
(* ===================================================================== *)

Module LSPClient.
Import Js ErrorHandler.

(** What [sendRequest] and [sendNotification] write to the server. *)
Inductive Outgoing : Type :=
| OutRequest (id : Z) (method : string) (params : JsValue)
| OutNotification (method : string) (params : JsValue).

(** The [error] object of [interface LSPResponse]. *)
Record ResponseError : Type := mkResponseError {
  err_code : Z;
  err_message : string;
  err_data : JsValue
}.

(** A parsed message. [type LSPMessage = LSPResponse | LSPNotification];
    [ServerRequest] is the third kind of JSON-RPC object a server sends:
    a request of its own, which has an [id] and a [method] and neither
    [result] nor [error]. *)
Inductive LSPMessage : Type :=
| Response (id : Z) (result : JsValue) (error : option ResponseError)
| Notification (method : string) (params : JsValue)
| ServerRequest (id : Z) (method : string) (params : JsValue).

Record Proc : Type := mkProc {
  has_stdin : bool;
  killed : bool;
  written : list Outgoing
}.

Record PendingCall : Type := mkPending { promise : Z }.

Inductive Settlement : Type :=
| Resolve (result : JsValue)
| Reject (err : Thrown).

(** A handler given to [onNotification] is named by a number; calling it
    is an entry of [delivered]. *)
Record Client : Type := mkClient {
  process : option Proc;
  nextId : Z;
  pendingRequests : gmap Z PendingCall;
  notificationHandlers : gmap string nat;
  initialized : bool;
  (** calls to a [resolve] or [reject] of a request promise, most recent
      first *)
  settled : list (Z * Settlement);
  (** calls to a notification handler, most recent first *)
  delivered : list (nat * JsValue)
}.

(** A client after [start()]. *)
Definition started : Client :=
  mkClient (Some (mkProc true false [])) 1 ∅ ∅ false [] [].

Definition not_started : Thrown := LSPError "LSP server not started" JsUndefined.

Definition write (o : Outgoing) (p : Proc) : Proc :=
  mkProc (has_stdin p) (killed p) (written p ++ [o]).

(** [sendRequest(method, params)] *)
Definition sendRequest (method : string) (params : JsValue) (c : Client)
  : (Thrown + Z) * Client :=
  match process c with
  | Some p =>
      if has_stdin p then
        let id := nextId c in
        (inr id,
         mkClient (Some (write (OutRequest id method params) p)) (id + 1)
           (<[id := mkPending id]> (pendingRequests c)) (notificationHandlers c)
           (initialized c) (settled c) (delivered c))
      else (inl not_started, c)
  | None => (inl not_started, c)
  end.

(** [sendNotification(method, params)]: [Some] error when it throws. *)
Definition sendNotification (method : string) (params : JsValue) (c : Client)
  : option Thrown * Client :=
  match process c with
  | Some p =>
      if has_stdin p then
        (None,
         mkClient (Some (write (OutNotification method params) p)) (nextId c)
           (pendingRequests c) (notificationHandlers c)
           (initialized c) (settled c) (delivered c))
      else (Some not_started, c)
  | None => (Some not_started, c)
  end.

(** [onNotification(method, handler)] *)
Definition onNotification (method : string) (handler : nat) (c : Client) : Client :=
  mkClient (process c) (nextId c) (pendingRequests c)
    (<[method := handler]> (notificationHandlers c))
    (initialized c) (settled c) (delivered c).

(** The branch of [handleMessage] for a message that has an [id]. *)
Definition handle_with_id (id : Z) (result : JsValue) (error : option ResponseError)
    (c : Client) : Client :=
  match pendingRequests c !! id with
  | Some pending =>
      let s := match error with
               | Some e => Reject (LSPError (err_message e) (err_data e))
               | None => Resolve result
               end in
      mkClient (process c) (nextId c) (delete id (pendingRequests c))
        (notificationHandlers c) (initialized c)
        ((promise pending, s) :: settled c) (delivered c)
  | None => c
  end.

(** [handleMessage(message)]: ['id' in message] holds for a response and
    for a request of the server, whose [error] and [result] are
    [undefined]. *)
Definition handleMessage (message : LSPMessage) (c : Client) : Client :=
  match message with
  | Response id result error => handle_with_id id result error c
  | ServerRequest id _ _ => handle_with_id id JsUndefined None c
  | Notification method params =>
      match notificationHandlers c !! method with
      | Some handler =>
          mkClient (process c) (nextId c) (pendingRequests c) (notificationHandlers c)
            (initialized c) (settled c) ((handler, params) :: delivered c)
      | None => c
      end
  end.

(** [`LSP server exited with code ${code}`] *)
Definition exit_error (code : option Z) : Thrown :=
  LSPError
    ("LSP server exited with code " ++
       match code with
       | Some n => DecimalString.NilZero.string_of_int (Z.to_int n)
       | None => "null"
       end)%string
    JsUndefined.

(** [handleExit(code)] *)
Definition handleExit (code : option Z) (c : Client) : Client :=
  let rejected :=
    (fun kv : Z * PendingCall => (promise (snd kv), Reject (exit_error code)))
      <$> map_to_list (pendingRequests c) in
  mkClient (process c) (nextId c) ∅ (notificationHandlers c) false
    (reverse rejected ++ settled c) (delivered c).

(** What reaches the client. *)
Inductive Input : Type :=
| Send (method : string) (params : JsValue)
| Notify (method : string) (params : JsValue)
| Register (method : string) (handler : nat)
| Receive (message : LSPMessage)
| Exit (code : option Z).

Definition step (c : Client) (i : Input) : Client :=
  match i with
  | Send method params => snd (sendRequest method params c)
  | Notify method params => snd (sendNotification method params c)
  | Register method handler => onNotification method handler c
  | Receive message => handleMessage message c
  | Exit code => handleExit code c
  end.

Definition run (inputs : list Input) (c : Client) : Client := foldl step c inputs.

Definition settlements_of (id : Z) (c : Client) : list Settlement :=
  snd <$> filter (fun p => fst p = id) (settled c).

Definition outcome (id : Z) (c : Client) : option Settlement :=
  head (settlements_of id c).

Definition is_settled (id : Z) (c : Client) : bool :=
  bool_decide (id ∈ fst <$> settled c).

(** [await] on the promise of request [id]: the inputs that arrive are
    handled one by one until the promise is settled; [None] when they
    run out first, and the caller waits for ever. *)
Fixpoint await_request (id : Z) (inputs : list Input) (c : Client)
  : option (Client * list Input) :=
  match inputs with
  | [] => if is_settled id c then Some (c, []) else None
  | i :: rest =>
      if is_settled id c then Some (c, inputs)
      else await_request id rest (step c i)
  end.

Definition set_initialized (v : bool) (c : Client) : Client :=
  mkClient (process c) (nextId c) (pendingRequests c) (notificationHandlers c)
    v (settled c) (delivered c).

(** [process.pid], [rootUri] and [capabilities || {}] of the
    [initialize] request. *)
Definition initialize_params (pid : Z) (rootUri : string) (capabilities : JsValue)
  : JsValue :=
  JsObj [("processId"%string, JsNum pid); ("rootUri"%string, JsStr rootUri);
         ("capabilities"%string, capabilities)].

(** [initialize(capabilities)], with the inputs that arrive while it
    waits for the answer to its request. *)
Definition initialize (params : JsValue) (inputs : list Input) (c : Client)
  : Promise JsValue * Client :=
  match sendRequest "initialize" params c with
  | (inl e, c1) => (Rejected e, c1)
  | (inr id, c1) =>
      match await_request id inputs c1 with
      | Some (c2, _) =>
          match outcome id c2 with
          | Some (Resolve result) =>
              match sendNotification "initialized" (JsObj []) (set_initialized true c2) with
              | (Some e, c3) => (Rejected e, c3)
              | (None, c3) => (Resolved result, c3)
              end
          | Some (Reject e) => (Rejected e, c2)
          | None => (Pending, c2)
          end
      | None => (Pending, run inputs c1)
      end
  end.

(** [process.kill()] *)
Definition kill (p : Proc) : Proc := mkProc (has_stdin p) true (written p).

(** The part of [shutdown] after the [try]. *)
Definition release (c : Client) : Client :=
  mkClient (kill <$> process c) (nextId c) (pendingRequests c) (notificationHandlers c)
    false (settled c) (delivered c).

(** [shutdown()], with the inputs that arrive while it waits for the
    answer to its request. The [exit] notification is inside the [try],
    after the [await]. *)
Definition shutdown (inputs : list Input) (c : Client) : Promise unit * Client :=
  if negb (initialized c) then (Resolved tt, c)
  else
    match sendRequest "shutdown" JsUndefined c with
    | (inl _, c1) => (Resolved tt, release c1)
    | (inr id, c1) =>
        match await_request id inputs c1 with
        | Some (c2, _) =>
            match outcome id c2 with
            | Some (Resolve _) =>
                (Resolved tt, release (snd (sendNotification "exit" JsUndefined c2)))
            | _ => (Resolved tt, release c2)
            end
        | None => (Pending, run inputs c1)
        end
    end.

(** The ids handed out are below [nextId], and an id that is pending
    has not been settled. *)
Record inv (c : Client) : Prop := mkInv {
  inv_pending : forall id p, pendingRequests c !! id = Some p ->
      promise p = id /\ id < nextId c /\ id ∉ fst <$> settled c;
  inv_settled : forall id, id ∈ fst <$> settled c -> id < nextId c;
  inv_once : NoDup (fst <$> settled c)
}.

Lemma lsp_inv_started : inv started.
Proof.
  constructor; simpl.
  - intros id p H. by rewrite lookup_empty in H.
  - intros id H. by apply not_elem_of_nil in H.
  - constructor.
Qed.

Lemma lsp_inv_sendRequest (method : string) (params : JsValue) (c : Client) :
  inv c -> inv (snd (sendRequest method params c)).
Proof.
  intros [Hp Hs Ho]. unfold sendRequest.
  destruct (process c) as [p |]; [| by constructor].
  destruct (has_stdin p); [| by constructor].
  constructor; simpl.
  - intros id q Hq. destruct (decide (nextId c = id)) as [<- | Hne].
    + rewrite lookup_insert_eq in Hq. injection Hq as <-. simpl.
      split; [done |]. split; [lia |]. intros Hin. apply Hs in Hin. lia.
    + rewrite lookup_insert_ne in Hq by done.
      destruct (Hp id q Hq) as (? & ? & ?). split; [done |]. split; [lia | done].
  - intros id Hin. apply Hs in Hin. lia.
  - done.
Qed.

Lemma lsp_inv_handle_with_id (id : Z) (result : JsValue) (error : option ResponseError)
    (c : Client) :
  inv c -> inv (handle_with_id id result error c).
Proof.
  intros [Hp Hs Ho]. unfold handle_with_id.
  destruct (pendingRequests c !! id) as [p |] eqn:Hid; [| by constructor].
  destruct (Hp id p Hid) as (Hpr & Hlt & Hnot).
  constructor; simpl.
  - intros j q Hq. destruct (decide (id = j)) as [<- | Hne];
      [by rewrite lookup_delete_eq in Hq |].
    rewrite lookup_delete_ne in Hq by done.
    destruct (Hp j q Hq) as (? & ? & ?). split; [done |]. split; [done |].
    rewrite not_elem_of_cons. split; [congruence | done].
  - intros j Hj. apply elem_of_cons in Hj as [-> | Hj]; [lia | by apply Hs].
  - apply NoDup_cons. split; [by rewrite Hpr | done].
Qed.

Lemma lsp_exit_keys (code : option Z) (c : Client) :
  inv c ->
  fst <$> ((fun kv : Z * PendingCall => (promise (snd kv), Reject (exit_error code)))
             <$> map_to_list (pendingRequests c))
  = fst <$> map_to_list (pendingRequests c).
Proof.
  intros Hinv. rewrite <- list_fmap_compose. apply list_fmap_ext.
  intros k [id p] Hk. simpl.
  apply list_elem_of_lookup_2, elem_of_map_to_list in Hk.
  by destruct (inv_pending c Hinv id p Hk).
Qed.

Lemma lsp_inv_handleExit (code : option Z) (c : Client) : inv c -> inv (handleExit code c).
Proof.
  intros Hinv. unfold handleExit. constructor; simpl.
  - intros id p H. by rewrite lookup_empty in H.
  - intros id Hin. rewrite fmap_app, fmap_reverse, lsp_exit_keys in Hin by done.
    apply elem_of_app in Hin as [Hin | Hin]; [| by apply (inv_settled c Hinv)].
    apply elem_of_reverse, list_elem_of_fmap in Hin as ([k p] & -> & Hk).
    apply elem_of_map_to_list in Hk. simpl.
    by destruct (inv_pending c Hinv _ _ Hk) as (_ & ? & _).
  - rewrite fmap_app, fmap_reverse, lsp_exit_keys by done.
    apply NoDup_app. split; [| split; [| apply Hinv]].
    + rewrite reverse_Permutation. apply NoDup_fst_map_to_list.
    + intros id Hin. apply elem_of_reverse, list_elem_of_fmap in Hin as ([k p] & -> & Hk).
      apply elem_of_map_to_list in Hk. simpl.
      by destruct (inv_pending c Hinv _ _ Hk) as (_ & _ & ?).
Qed.

Lemma lsp_inv_step (c : Client) (i : Input) : inv c -> inv (step c i).
Proof.
  intros Hinv. destruct i as [m a | m a | m h | msg | code]; simpl.
  - by apply lsp_inv_sendRequest.
  - unfold sendNotification. destruct (process c) as [p |]; [| done].
    destruct (has_stdin p); [| done]. destruct Hinv. by constructor.
  - destruct Hinv. by constructor.
  - destruct msg as [id r e | m a | id m a]; simpl.
    + by apply lsp_inv_handle_with_id.
    + destruct (notificationHandlers c !! m); [| done]. destruct Hinv. by constructor.
    + by apply lsp_inv_handle_with_id.
  - by apply lsp_inv_handleExit.
Qed.

Lemma lsp_inv_run (inputs : list Input) (c : Client) : inv c -> inv (run inputs c).
Proof.
  revert c. induction inputs as [| i inputs IH]; intros c Hinv; simpl; [done |].
  apply IH, lsp_inv_step, Hinv.
Qed.

(** There is no process, or no pipe, to write to. *)
Definition cannot_write (c : Client) : Prop :=
  match process c with
  | Some p => has_stdin p = false
  | None => True
  end.

Lemma lsp_sendRequest_spec (method : string) (params : JsValue) (c : Client) :
  ~ cannot_write c ->
  exists p, process c = Some p /\
    sendRequest method params c =
    (inr (nextId c),
     mkClient (Some (write (OutRequest (nextId c) method params) p)) (nextId c + 1)
       (<[nextId c := mkPending (nextId c)]> (pendingRequests c)) (notificationHandlers c)
       (initialized c) (settled c) (delivered c)).
Proof.
  unfold cannot_write, sendRequest. intros Hc.
  destruct (process c) as [p |]; [| done]. exists p. split; [done |].
  destruct (has_stdin p); [done | by exfalso].
Qed.

Lemma lsp_await_settled (id : Z) (inputs : list Input) (c : Client) :
  id ∈ fst <$> settled c -> await_request id inputs c = Some (c, inputs).
Proof.
  intros Hin. destruct inputs; simpl; unfold is_settled;
    by rewrite bool_decide_eq_true_2.
Qed.

(** An input that settles the request [id] if it is pending. *)
Definition answers (id : Z) (i : Input) : Prop :=
  match i with
  | Exit _ => True
  | Receive (Response i' _ _) => i' = id
  | Receive (ServerRequest i' _ _) => i' = id
  | _ => False
  end.

Lemma lsp_answer_settles (id : Z) (i : Input) (c : Client) :
  inv c -> is_Some (pendingRequests c !! id) -> answers id i ->
  id ∈ fst <$> settled (step c i).
Proof.
  intros Hinv [p Hp] Hans. destruct (inv_pending c Hinv id p Hp) as (Hpr & _ & _).
  destruct i as [m a | m a | m h | msg | code]; simpl in *; try done.
  - destruct msg as [i' r e | m a | i' m a]; simpl in *; try done; subst i';
      unfold handle_with_id; rewrite Hp; simpl; rewrite Hpr; left.
  - rewrite fmap_app, fmap_reverse, lsp_exit_keys by done.
    apply elem_of_app. left. apply elem_of_reverse, list_elem_of_fmap.
    exists (id, p). split; [done |]. by apply elem_of_map_to_list.
Qed.

Lemma lsp_await_first (id : Z) (i : Input) (rest : list Input) (c : Client) :
  inv c -> is_Some (pendingRequests c !! id) -> answers id i ->
  await_request id (i :: rest) c = Some (step c i, rest).
Proof.
  intros Hinv [p Hp] Hans. simpl.
  destruct (inv_pending c Hinv id p Hp) as (_ & _ & Hnot).
  unfold is_settled at 1. rewrite bool_decide_eq_false_2 by done.
  apply lsp_await_settled. apply lsp_answer_settles; eauto.
Qed.

Lemma lsp_step_can_write (c : Client) (i : Input) :
  ~ cannot_write c -> ~ cannot_write (step c i).
Proof.
  destruct c as [pr n pend hs ini st dl]. unfold cannot_write.
  destruct i as [m a | m a | m h | msg | code]; simpl; try done.
  - unfold sendRequest. simpl. destruct pr as [p |]; [| done].
    destruct (has_stdin p) eqn:Hs; simpl; by rewrite ?Hs.
  - unfold sendNotification. simpl. destruct pr as [p |]; [| done].
    destruct (has_stdin p) eqn:Hs; simpl; by rewrite ?Hs.
  - destruct msg as [id r e | m a | id m a]; simpl; unfold handle_with_id; simpl.
    + by destruct (pend !! id).
    + by destruct (hs !! m).
    + by destruct (pend !! id).
Qed.

Lemma lsp_run_can_write (inputs : list Input) (c : Client) :
  ~ cannot_write c -> ~ cannot_write (run inputs c).
Proof.
  revert c. induction inputs as [| i inputs IH]; intros c Hc; [done |].
  apply IH. by apply lsp_step_can_write.
Qed.

(** ** Properties of the client *)

(** X18. A request of the server is taken for a response. When its id
    is that of a pending call of the client, that call is resolved with
    [undefined] and the server's real response, when it comes, is
    dropped; in no case is the request handed to a notification handler
    or answered. *)
Theorem server_request_is_taken_for_a_response
    (inputs : list Input) (method : string) (params : JsValue)
    (method' : string) (params' : JsValue) :
  let c := run inputs started in
  let c1 := snd (sendRequest method params c) in
  let c2 := handleMessage (ServerRequest (nextId c) method' params') c1 in
  fst (sendRequest method params c) = inr (nextId c) /\
  settlements_of (nextId c) c1 = [] /\
  settlements_of (nextId c) c2 = [Resolve JsUndefined] /\
  (forall result err, handleMessage (Response (nextId c) result err) c2 = c2) /\
  (forall id h, let c' := handleMessage (ServerRequest id method' params')
                            (onNotification method' h c) in
     delivered c' = delivered c /\ process c' = process c).
Proof.
  intros c c1 c2.
  assert (Hinv : inv c) by apply lsp_inv_run, lsp_inv_started.
  assert (Hw : ~ cannot_write c) by (apply lsp_run_can_write; simpl; discriminate).
  destruct (lsp_sendRequest_spec method params c Hw) as (p & Hp & Hsend).
  assert (Hfresh : nextId c ∉ fst <$> settled c).
  { intros Hin. apply (inv_settled c Hinv) in Hin. lia. }
  unfold c2, c1. rewrite Hsend. cbn [fst snd].
  split; [done |]. split; [| split; [| split]].
  - unfold settlements_of. cbn [settled]. by rewrite (ListAux.filter_fst_fresh _ _ Hfresh).
  - unfold handleMessage, handle_with_id. cbn [pendingRequests].
    rewrite lookup_insert_eq. unfold settlements_of. cbn [settled promise].
    rewrite filter_cons_True by done.
    by rewrite (ListAux.filter_fst_fresh _ _ Hfresh).
  - intros result err. unfold handleMessage, handle_with_id. cbn [pendingRequests].
    rewrite lookup_insert_eq. cbn [pendingRequests]. by rewrite lookup_delete_eq.
  - intros id h. unfold handleMessage, handle_with_id, onNotification.
    cbn [pendingRequests]. by destruct (pendingRequests c !! id).
Qed.

(** X19. On an initialized client, [shutdown()] writes the [shutdown]
    request and resolves once that request is settled, by an answer or
    by the exit of the server. The [exit] notification follows only
    when the promise of the request resolved, and is not written when
    the server answers with an error or exits; in each case the process
    is killed and the client is no longer initialized. *)
Theorem shutdown_sends_exit_after_success_only (c : Client) (p : Proc)
    (first : Input) (rest : list Input) :
  inv c -> process c = Some p -> has_stdin p = true -> initialized c = true ->
  answers (nextId c) first ->
  let r := shutdown (first :: rest) c in
  fst r = Resolved tt /\ initialized (snd r) = false /\
  exists p', process (snd r) = Some p' /\ killed p' = true /\
    written p' =
      written p ++ OutRequest (nextId c) "shutdown" JsUndefined ::
        match first with
        | Receive (Response _ _ None) | Receive (ServerRequest _ _ _) =>
            [OutNotification "exit" JsUndefined]
        | _ => []
        end.
Proof.
  intros Hinv Hp Hin Hini Hans r. unfold r, shutdown. rewrite Hini. cbn [negb].
  pose proof (lsp_inv_sendRequest "shutdown" JsUndefined c Hinv) as Hinv1.
  assert (Hfresh : nextId c ∉ fst <$> settled c).
  { intros H. apply (inv_settled c Hinv) in H. lia. }
  unfold sendRequest in *. rewrite Hp, Hin in *. cbn [snd] in Hinv1.
  rewrite lsp_await_first; [| done | | done];
    [| cbn [pendingRequests]; rewrite lookup_insert_eq; eauto].
  unfold outcome, settlements_of.
  destruct first as [m a | m a | m h | msg | code]; try done.
  - destruct msg as [id res e | m a | id m a]; simpl in Hans; try done; subst id.
    + simpl. unfold handle_with_id. cbn [pendingRequests]. rewrite lookup_insert_eq.
      cbn [settled promise]. rewrite filter_cons_True by done.
      destruct e as [e |]; simpl.
      * split; [done |]. split; [done |]. eexists. split; [reflexivity |].
        split; [reflexivity |]. simpl. done.
      * split; [done |]. split; [done |]. unfold sendNotification. simpl. rewrite Hin.
        simpl. eexists. split; [reflexivity |]. split; [reflexivity |]. simpl.
        by rewrite <- app_assoc.
    + simpl. unfold handle_with_id. cbn [pendingRequests]. rewrite lookup_insert_eq.
      cbn [settled promise]. rewrite filter_cons_True by done. simpl.
      split; [done |]. split; [done |]. unfold sendNotification. simpl. rewrite Hin.
      simpl. eexists. split; [reflexivity |]. split; [reflexivity |]. simpl.
      by rewrite <- app_assoc.
  - simpl step. unfold handleExit. cbn [settled pendingRequests].
    assert (Hhead : exists l,
              filter (fun q : Z * Settlement => fst q = nextId c)
                (reverse ((fun kv : Z * PendingCall =>
                             (promise (snd kv), Reject (exit_error code)))
                            <$> map_to_list (<[nextId c := mkPending (nextId c)]>
                                               (pendingRequests c))) ++ settled c)
              = (nextId c, Reject (exit_error code)) :: l).
    { rewrite filter_app, (ListAux.filter_fst_fresh _ (settled c) Hfresh), app_nil_r.
      assert (Hmem : (nextId c, Reject (exit_error code)) ∈
                filter (fun q : Z * Settlement => fst q = nextId c)
                  (reverse ((fun kv : Z * PendingCall =>
                               (promise (snd kv), Reject (exit_error code)))
                              <$> map_to_list (<[nextId c := mkPending (nextId c)]>
                                                 (pendingRequests c))))).
      { apply list_elem_of_filter. split; [done |].
        apply elem_of_reverse, list_elem_of_fmap. exists (nextId c, mkPending (nextId c)).
        split; [done |]. apply elem_of_map_to_list, lookup_insert_eq. }
      destruct (filter _ _) as [| [k s] l] eqn:Hf; [by apply not_elem_of_nil in Hmem |].
      assert (Hk : (k, s) ∈ filter (fun q : Z * Settlement => fst q = nextId c)
                (reverse ((fun kv : Z * PendingCall =>
                             (promise (snd kv), Reject (exit_error code)))
                            <$> map_to_list (<[nextId c := mkPending (nextId c)]>
                                               (pendingRequests c)))))
        by (rewrite Hf; left).
      apply list_elem_of_filter in Hk as [Hk1 Hk2].
      apply elem_of_reverse, list_elem_of_fmap in Hk2 as (kv & Hkv & _).
      injection Hkv as _ ->. simpl in Hk1. subst k. by exists l. }
    destruct Hhead as (l & ->). simpl.
    split; [done |]. split; [done |]. eexists. split; [reflexivity |].
    split; [reflexivity |]. done.
Qed.

Lemma shutdown_sends_exit_after_success_only_witness :
  exists p', process (snd (shutdown [Receive (Response 1 JsNull None)]
                             (set_initialized true started))) = Some p' /\
    killed p' = true /\
    written p' = [OutRequest 1 "shutdown" JsUndefined; OutNotification "exit" JsUndefined].
Proof.
  apply (proj2 (proj2 (shutdown_sends_exit_after_success_only
                         (set_initialized true started) (mkProc true false [])
                         (Receive (Response 1 JsNull None)) []
                         ltac:(destruct lsp_inv_started; by constructor)
                         eq_refl eq_refl eq_refl eq_refl))).
Defined.

(** X20. [initialize()] writes the [initialize] request and, only when
    the server answers it with a result, sets the [initialized] flag and
    writes the [initialized] notification, and resolves with the result.
    When the server answers with an error, the promise rejects with the
    server's message, nothing more is written and the flag is left as
    it was, so that on a client not yet initialized [shutdown] does
    nothing. *)
Theorem initialize_notifies_after_success_only (params : JsValue) (c : Client) (p : Proc)
    (result : JsValue) (err : option ResponseError) (rest : list Input) :
  inv c -> process c = Some p -> has_stdin p = true ->
  let r := initialize params (Receive (Response (nextId c) result err) :: rest) c in
  match err with
  | None =>
      fst r = Resolved result /\ initialized (snd r) = true /\
      process (snd r) =
        Some (mkProc true (killed p)
                (written p ++ [OutRequest (nextId c) "initialize" params;
                               OutNotification "initialized" (JsObj [])]))
  | Some e =>
      fst r = Rejected (LSPError (err_message e) (err_data e)) /\
      initialized (snd r) = initialized c /\
      process (snd r) =
        Some (mkProc true (killed p)
                (written p ++ [OutRequest (nextId c) "initialize" params])) /\
      (initialized c = false ->
       forall later, shutdown later (snd r) = (Resolved tt, snd r))
  end.
Proof.
  intros Hinv Hp Hin r. unfold r, initialize.
  destruct p as [hs k w]. simpl in Hin. subst hs.
  pose proof (eq_refl : has_stdin (mkProc true k w) = true) as Hin.
  pose proof (lsp_inv_sendRequest "initialize" params c Hinv) as Hinv1.
  assert (Hfresh : nextId c ∉ fst <$> settled c).
  { intros H. apply (inv_settled c Hinv) in H. lia. }
  unfold sendRequest in *. rewrite Hp, Hin in *. cbn [snd] in Hinv1.
  rewrite lsp_await_first; [| done | | done];
    [| cbn [pendingRequests]; rewrite lookup_insert_eq; eauto].
  unfold outcome, settlements_of. simpl step. unfold handle_with_id.
  cbn [pendingRequests]. rewrite lookup_insert_eq.
  cbn [settled promise]. rewrite filter_cons_True by done.
  destruct err as [e |]; simpl.
  - split; [done |]. split; [done |]. split; [done |].
    intros Hoff later. unfold shutdown. simpl. by rewrite Hoff.
  - unfold sendNotification. simpl.
    split; [done |]. split; [done |]. unfold write. simpl.
    by rewrite <- app_assoc.
Qed.

Lemma initialize_notifies_after_success_only_witness :
  fst (initialize (initialize_params 4242 "file:////w" (JsObj []))
         [Receive (Response 1 (JsStr "capabilities") None)] started)
  = Resolved (JsStr "capabilities").
Proof.
  apply (proj1 (initialize_notifies_after_success_only
                  (initialize_params 4242 "file:////w" (JsObj [])) started
                  (mkProc true false []) (JsStr "capabilities") None []
                  lsp_inv_started eq_refl eq_refl)).
Defined.

End LSPClient.

(* ===================================================================== *)
(** * src/tools/lcp_add_breakpoint.ts *)
(* ===================================================================== *)

Module LcpAddBreakpoint.
Import Js ErrorHandler BreakpointManager.

(** [interface AddBreakpointParams] *)
Record AddBreakpointParams : Type := mkParams {
  p_sessionId : string;
  p_file : string;
  p_line : Z;
  p_condition : option string;
  p_hitCondition : option string;
  p_logMessage : option string
}.

(** An element of [response.breakpoints]. *)
Record Verified : Type := mkVerified { v_verified : bool; v_line : Z }.

(** The body of a setBreakpoints response, by its [breakpoints] field;
    [None] when the field is absent. *)
Definition SetBreakpointsResponse : Type := option (list Verified).

(** The object literal built for each breakpoint of the file. *)
Definition to_wire (bp : BreakpointInfo) : DapBreakpoint :=
  mkDapBreakpoint (Coord.toZeroBased (line bp)) (condition bp) (hitCondition bp)
    (logMessage bp).

(** What a call leaves behind: the promise of the [async] body, the
    breakpoint manager of the session's debug client if the call got to
    it, and the [setBreakpoints] requests made, each with its file and
    its array of breakpoints. *)
Record Outcome : Type := mkOutcome {
  body : Promise BreakpointInfo;
  manager : option Manager;
  requests : list (string * list DapBreakpoint)
}.

(** The [async] function passed to [withErrorHandling]. [session] is
    what [sessionStore.get] gives: the error it throws, or the manager
    of the session's debug client if it has one; [filePath] is what
    [resolvePath] gives or throws; [newId] is the id that [add] draws;
    [reply] is how the promise of [setBreakpoints] settles. *)
Definition add_body (session : Thrown + option Manager) (filePath : Thrown + string)
    (newId : string) (reply : Promise SetBreakpointsResponse)
    (params : AddBreakpointParams) : Outcome :=
  match session with
  | inl err => mkOutcome (Rejected err) None []
  | inr None => mkOutcome (Rejected (DAPError "No active debug session" JsUndefined)) None []
  | inr (Some m) =>
      match filePath with
      | inl err => mkOutcome (Rejected err) (Some m) []
      | inr path =>
          let added :=
            add newId path (p_line params)
              (mkAddOptions (p_condition params) (p_hitCondition params)
                 (p_logMessage params) None) m in
          let breakpoint := fst added in
          let m1 := snd added in
          let dapBreakpoints := to_wire <$> getByFile path m1 in
          match reply with
          | Resolved response =>
              match response ≫= last with
              | Some lastBreakpoint =>
                  mkOutcome
                    (Resolved (set_verified (v_verified lastBreakpoint) breakpoint))
                    (Some (updateVerification (id breakpoint) (v_verified lastBreakpoint) m1))
                    [(path, dapBreakpoints)]
              | None => mkOutcome (Resolved breakpoint) (Some m1) [(path, dapBreakpoints)]
              end
          | Rejected err => mkOutcome (Rejected err) (Some m1) [(path, dapBreakpoints)]
          | Pending => mkOutcome Pending (Some m1) [(path, dapBreakpoints)]
          end
      end
  end.

Definition as_body {A : Type} (p : Promise A) : Body A :=
  match p with
  | Resolved a => BodyReturn a
  | Rejected e => BodyThrow e
  | Pending => BodyHang
  end.

(** [lcpAddBreakpoint(params)]: the result handed to the caller. *)
Definition lcpAddBreakpoint (session : Thrown + option Manager) (filePath : Thrown + string)
    (newId : string) (reply : Promise SetBreakpointsResponse)
    (params : AddBreakpointParams) : Call (ToolResult BreakpointInfo) :=
  withErrorHandling
    (async (fun _ => as_body (body (add_body session filePath newId reply params)))).

(** X23. [lcpAddBreakpoint] stores the new breakpoint and sends one
    [setBreakpoints] request for its file that lists every breakpoint of
    the file, the disabled ones too, the new one last, each with its
    line turned to 0-based by [toZeroBased]. When the request is
    refused, the caller gets the error as a result and the breakpoint
    stays in the manager; when it succeeds, the breakpoint takes the
    [verified] flag of the last entry of the response. *)
Theorem add_breakpoint_syncs_whole_file (m : Manager) (path newId : string)
    (reply : Promise SetBreakpointsResponse) (params : AddBreakpointParams) :
  consistent m -> breakpoints m !! newId = None ->
  let bp := mkBreakpointInfo newId path (p_line params) false true
              (p_condition params) (p_hitCondition params) (p_logMessage params) in
  let out := add_body (inr (Some m)) (inr path) newId reply params in
  let result := lcpAddBreakpoint (inr (Some m)) (inr path) newId reply params in
  requests out = [(path, to_wire <$> (getByFile path m ++ [bp]))] /\
  (forall payload, requests out = [(path, payload)] ->
     dap_line <$> payload =
       (fun b => Z.max 0 (line b - 1)) <$> (getByFile path m ++ [bp])) /\
  (forall err, reply = Rejected err ->
     result = Returned (Resolved (toToolResult err)) /\
     exists m', manager out = Some m' /\ get newId m' = Some bp /\
       getByFile path m' = getByFile path m ++ [bp]) /\
  (forall entries v, reply = Resolved (Some (entries ++ [v])) ->
     result = Returned (Resolved
                (mkToolResult true (Some (set_verified (v_verified v) bp)) None)) /\
     exists m', manager out = Some m' /\
       get newId m' = Some (set_verified (v_verified v) bp)) /\
  (reply = Resolved None \/ reply = Resolved (Some []) ->
     result = Returned (Resolved (mkToolResult true (Some bp) None)) /\
     exists m', manager out = Some m' /\ get newId m' = Some bp).
Proof.
  intros Hc Hfresh bp out result.
  assert (Hget : getByFile path (restore_one m bp) = getByFile path m ++ [bp]).
  { rewrite getByFile_restore_one by done. by rewrite decide_True. }
  assert (Hreq : requests out = [(path, to_wire <$> (getByFile path m ++ [bp]))]).
  { unfold out, add_body. cbn zeta.
    change (snd (add newId path (p_line params) _ m)) with (restore_one m bp).
    rewrite Hget. destruct reply as [[l |] | e |]; simpl; try done.
    by destruct (last l). }
  split; [exact Hreq |]. split; [| split; [| split]].
  - intros payload Hp. rewrite Hreq in Hp. injection Hp as <-.
    rewrite <- list_fmap_compose. apply list_fmap_ext. intros k b _. simpl.
    unfold Coord.toZeroBased. reflexivity.
  - intros err ->. split; [reflexivity |]. eexists. split; [reflexivity |].
    split; [apply lookup_insert_eq | exact Hget].
  - intros entries v ->. unfold result, out, lcpAddBreakpoint, add_body. cbn zeta.
    unfold mbind, option_bind. rewrite last_snoc. split; [reflexivity |].
    eexists. split; [reflexivity |]. unfold updateVerification, get. simpl.
    rewrite lookup_insert_eq. simpl. by rewrite lookup_insert_eq.
  - intros [-> | ->]; (split; [reflexivity |]); eexists;
      (split; [reflexivity |]); apply lookup_insert_eq.
Qed.

Lemma add_breakpoint_syncs_whole_file_witness :
  requests (add_body (inr (Some three_on_one_file)) (inr "/w/app.py"%string) "id-4"
              (Rejected (DAPError "DAP request failed" JsUndefined))
              (mkParams "s-1" "app.py" 12 None None None))
  = [("/w/app.py"%string,
      [mkDapBreakpoint 4 None None None; mkDapBreakpoint 8 None None None;
       mkDapBreakpoint 4 None None None; mkDapBreakpoint 11 None None None])].
Proof.
  apply (proj1 (add_breakpoint_syncs_whole_file three_on_one_file "/w/app.py" "id-4"
                  (Rejected (DAPError "DAP request failed" JsUndefined))
                  (mkParams "s-1" "app.py" 12 None None None)
                  three_on_one_file_consistent ltac:(vm_compute; reflexivity))).
Defined.

End LcpAddBreakpoint.

(* ===================================================================== *)
(** * src/tools/lcp_debug_stop.ts *)
(* ===================================================================== *)

Module LcpDebugStop.
Import Js ErrorHandler DAPClient.

(** [interface DebugStopResult] *)
Record DebugStopResult : Type := mkResult { r_success : bool; r_message : string }.

(** What a call leaves behind: the promise of the [async] body, the
    [dapClient] field of the session, and the client object the call
    worked on. *)
Record Outcome : Type := mkOutcome {
  body : Promise DebugStopResult;
  session_dapClient : option Client;
  client : option Client
}.

(** The [async] function passed to [withErrorHandling]. [session] is
    what [sessionStore.get] gives: the error it throws, or the session's
    debug client if it has one; [inputs] is what reaches the client
    while [disconnect] waits. *)
Definition stop_body (session : Thrown + option Client) (inputs : list Input) : Outcome :=
  match session with
  | inl err => mkOutcome (Rejected err) None None
  | inr None => mkOutcome (Rejected (DAPError "No active debug session" JsUndefined)) None None
  | inr (Some c) =>
      match disconnect inputs c with
      | (Resolved _, c') =>
          mkOutcome (Resolved (mkResult true "Debug session stopped")) None (Some c')
      | (Rejected err, c') => mkOutcome (Rejected err) (Some c') (Some c')
      | (Pending, c') => mkOutcome Pending (Some c') (Some c')
      end
  end.

Definition as_body {A : Type} (p : Promise A) : Body A :=
  match p with
  | Resolved a => BodyReturn a
  | Rejected e => BodyThrow e
  | Pending => BodyHang
  end.

(** [lcpDebugStop(params)]: the result handed to the caller. *)
Definition lcpDebugStop (session : Thrown + option Client) (inputs : list Input)
  : Call (ToolResult DebugStopResult) :=
  withErrorHandling (async (fun _ => as_body (body (stop_body session inputs)))).

(** How [disconnect] can end. *)
Lemma disconnect_outcome (inputs : list Input) (c : Client) :
  (initialized c = false /\ disconnect inputs c = (Resolved tt, c)) \/
  (initialized c = true /\
     ((exists c2, disconnect inputs c = (Resolved tt, release c2) /\
                  (is_Some (process c) -> is_Some (process c2))) \/
      (exists c1, disconnect inputs c = (Pending, c1)))).
Proof.
  unfold disconnect. destruct (initialized c); [right | by left].
  split; [done |]. simpl. unfold sendRequest.
  destruct (process c) as [p |] eqn:Hp.
  - destruct (has_stdin p) eqn:Hs; simpl.
    + match goal with |- context [await_request ?s ?i ?c1] =>
        destruct (await_request s i c1) as [[c2 rest] |] eqn:Haw end; simpl.
      * left. exists c2. split; [done |]. intros _.
        eapply await_request_process; [exact Haw |]. simpl. eauto.
      * right. eauto.
    + left. exists c. split; [done |]. done.
  - left. exists c. split; [done |]. done.
Qed.

Lemma disconnect_answered (inputs : list Input) (c : Client) :
  inv c -> initialized c = true ->
  cannot_write c \/ Exists (answers (nextSeq c)) inputs ->
  fst (disconnect inputs c) = Resolved tt.
Proof.
  intros Hinv Hi Hcase. unfold disconnect. rewrite Hi. simpl.
  unfold cannot_write in Hcase. unfold sendRequest.
  destruct (process c) as [p |] eqn:Hp; [| done].
  destruct (has_stdin p) eqn:Hstdin; [| done]. simpl.
  destruct Hcase as [Hno | Hex]; [discriminate |].
  match goal with |- context [await_request ?s ?i ?c1] =>
    destruct (await_request_answered s i c1) as (c2 & rest & ->) end; try done.
  - pose proof (inv_sendRequest "disconnect" disconnect_arguments c Hinv) as H.
    unfold sendRequest in H. rewrite Hp, Hstdin in H. exact H.
  - simpl. pose proof (inv_next c Hinv). lia.
Qed.

(** X24. [lcpDebugStop] on a session with a debug client never reports
    an error. On a client that is not initialized it reports that the
    debug session was stopped and takes the client off the session,
    although [disconnect] did nothing: the process is not killed and the
    bus is not cleared. On an initialized client whose [disconnect]
    request is answered (or cannot be written), the process is killed
    and the bus cleared before the client is taken off the session.
    While the adapter gives no answer the call does not return and the
    session keeps its client. *)
Theorem stop_reports_stopped_even_without_release (c : Client) (inputs : list Input) :
  let out := stop_body (inr (Some c)) inputs in
  let stopped := mkResult true "Debug session stopped" in
  (lcpDebugStop (inr (Some c)) inputs =
     Returned (Resolved (mkToolResult true (Some stopped) None)) \/
   lcpDebugStop (inr (Some c)) inputs = Returned Pending) /\
  (initialized c = false ->
     body out = Resolved stopped /\ session_dapClient out = None /\ client out = Some c) /\
  (inv c -> initialized c = true ->
   cannot_write c \/ Exists (answers (nextSeq c)) inputs ->
     body out = Resolved stopped /\ session_dapClient out = None /\
     exists c', client out = Some c' /\
       (is_Some (process c) -> process_killed c') /\
       EventBus.waiters (eventBus c') = [] /\ initialized c' = false) /\
  (body out = Pending -> session_dapClient out = client out /\ is_Some (client out)).
Proof.
  intros out stopped. unfold out, lcpDebugStop, stop_body.
  destruct (disconnect_outcome inputs c)
    as [[Hoff Hd] | [Hon [(c2 & Hd & Hproc) | (c1 & Hd)]]].
  - rewrite Hd. simpl. split; [by left |]. split; [done |]. split; [| done].
    intros _ Hon. congruence.
  - rewrite Hd. simpl. split; [by left |]. split; [congruence |]. split; [| done].
    intros _ _ _. split; [done |]. split; [done |]. exists (release c2).
    split; [done |]. destruct (release_spec c2) as (Hk & Hw & Hf). auto.
  - split; [| split; [congruence | split]].
    + rewrite Hd. simpl. by right.
    + intros Hinv _ Hcase. pose proof (disconnect_answered inputs c Hinv Hon Hcase) as H.
      rewrite Hd in H. discriminate.
    + rewrite Hd. simpl. eauto.
Qed.

Lemma stop_reports_stopped_even_without_release_witness :
  body (stop_body (inr (Some started_with_waiter)) []) =
    Resolved (mkResult true "Debug session stopped") /\
  session_dapClient (stop_body (inr (Some started_with_waiter)) []) = None /\
  client (stop_body (inr (Some started_with_waiter)) []) = Some started_with_waiter.
Proof.
  apply (proj1 (proj2 (stop_reports_stopped_even_without_release started_with_waiter []))).
  reflexivity.
Defined.

End LcpDebugStop.
(* ===================================================================== *)
(** * src/tools/lcp_debug_launch.ts *)
(* ===================================================================== *)

Module LcpDebugLaunch.
Import Js ErrorHandler.

(** [interface DebugLaunchParams] *)
Record DebugLaunchParams : Type := mkParams {
  p_sessionId : option string;
  p_workspaceRoot : option string;
  p_program : string;
  p_args : option (list string);
  p_env : option (list (string * string))
}.

(** [interface DebugLaunchResult] *)
Record DebugLaunchResult : Type := mkResult {
  r_sessionId : string;
  r_status : string;
  r_breakpointCount : nat;
  r_currentLine : option Z;
  r_currentFile : option string
}.

(** An optional string in an [if]: absent and empty are both falsy. *)
Definition given (s : option string) : option string :=
  match s with
  | Some x => if decide (x = ""%string) then None else Some x
  | None => None
  end.

(** What the tool asks of the new debug client, in the order it asks. *)
Inductive Asked : Type :=
| AskStart
| AskInitialize
| AskLaunch (program : string) (args : list string) (env : option (list (string * string)))
| AskWait (eventType : string) (timeout : Z)
| AskStackTrace (threadId : Z).

(** What the call meets: the clock and the id drawn by
    [sessionStore.create], what [resolvePath] gives for a program and a
    workspace root, the client that [new DebugpyClient] makes with its
    breakpoint manager, how each promise the tool awaits settles, and
    the [stack] of an [Error] made by the call. *)
Record World : Type := mkWorld {
  now : Z;
  newId : string;
  resolvePath : string -> string -> Thrown + string;
  new_client : SessionStore.ClientRef;
  new_manager : BreakpointManager.Manager;
  start_reply : Promise unit;
  initialize_reply : Promise unit;
  launch_reply : Promise unit;
  entry_wait : Promise DebugStep.StoppedEvent;
  stackTrace_reply : Z -> Promise (list DebugStep.DapFrame);
  error_stack : JsValue
}.

(** The call in progress: what was asked so far, and the session
    store. *)
Record State : Type := mkState {
  asked : list Asked;
  store : SessionStore.Store
}.

Definition Run (A : Type) : Type := State -> Promise A * State.

Definition ret {A : Type} (a : A) : Run A := fun s => (Resolved a, s).

Definition throw {A : Type} (e : Thrown) : Run A := fun s => (Rejected e, s).

Definition bind {A B : Type} (m : Run A) (k : A -> Run B) : Run B :=
  fun s =>
    match m s with
    | (Resolved a, s') => k a s'
    | (Rejected e, s') => (Rejected e, s')
    | (Pending, s') => (Pending, s')
    end.

(** [await] on the promise of something asked of the client. *)
Definition await {A : Type} (what : Asked) (p : Promise A) : Run A :=
  fun s => (p, mkState (asked s ++ [what]) (store s)).

Notation "'let*' x := m 'in' k" := (bind m (fun x => k))
  (at level 10, x name, m at level 100, k at level 200).

(** [sessionStore.get(id)] and [sessionStore.create(root)] *)
Definition get_session (sid : string) (w : World) : Run SessionStore.Session :=
  fun s =>
    match SessionStore.get sid (now w) (store s) with
    | (inl err, st) => (Rejected err, mkState (asked s) st)
    | (inr session, st) => (Resolved session, mkState (asked s) st)
    end.

Definition create_session (root : string) (w : World) : Run SessionStore.Session :=
  fun s =>
    let r := SessionStore.create (newId w) (now w) root (store s) in
    (Resolved (fst r), mkState (asked s) (snd r)).

Definition set_dapClient (c : SessionStore.ClientRef) (s : SessionStore.Session)
  : SessionStore.Session :=
  SessionStore.mkSession (SessionStore.id s) (SessionStore.createdAt s)
    (SessionStore.lastAccessedAt s) (SessionStore.workspaceRoot s)
    (SessionStore.lspClient s) (SessionStore.lspClients s) (Some c).

(** [session.dapClient = dapClient], on the session object that the
    store holds. *)
Definition attach (sid : string) (c : SessionStore.ClientRef) : Run unit :=
  fun s =>
    (Resolved tt,
     mkState (asked s)
       (SessionStore.mkStore
          match SessionStore.sessions (store s) !! sid with
          | Some session =>
              <[sid := set_dapClient c session]> (SessionStore.sessions (store s))
          | None => SessionStore.sessions (store s)
          end
          (SessionStore.sessionTimeout (store s)) (SessionStore.deleting (store s)))).

Definition missing_arguments (w : World) : Thrown :=
  ThrownError "Error" "Either sessionId or workspaceRoot must be provided" (error_stack w).

(** The [async] function passed to [withErrorHandling]. *)
Definition launch_body (w : World) (params : DebugLaunchParams) : Run DebugLaunchResult :=
  let* session :=
    match given (p_sessionId params) with
    | Some sid => get_session sid w
    | None =>
        match given (p_workspaceRoot params) with
        | Some root => create_session root w
        | None => throw (missing_arguments w)
        end
    end in
  let* programPath :=
    match resolvePath w (p_program params) (SessionStore.workspaceRoot session) with
    | inl err => throw err
    | inr path => ret path
    end in
  let* _ := await AskStart (start_reply w) in
  let* _ := await AskInitialize (initialize_reply w) in
  let* _ := attach (SessionStore.id session) (new_client w) in
  let* _ := await (AskLaunch programPath (default [] (p_args params)) (p_env params))
              (launch_reply w) in
  let* stoppedEvent := await (AskWait "stopped" 10000) (entry_wait w) in
  let* stackFrames := await (AskStackTrace (DebugStep.threadId stoppedEvent))
                        (stackTrace_reply w (DebugStep.threadId stoppedEvent)) in
  ret (mkResult (SessionStore.id session) "started"
         (BreakpointManager.count (new_manager w))
         (DebugStep.frame_line <$> head stackFrames)
         (head stackFrames ≫= DebugStep.frame_source)).

Definition as_body {A : Type} (p : Promise A) : Body A :=
  match p with
  | Resolved a => BodyReturn a
  | Rejected e => BodyThrow e
  | Pending => BodyHang
  end.

(** [lcpDebugLaunch(params)] on a store: the result handed to the
    caller, what was asked of the client, and the store afterwards. *)
Definition lcpDebugLaunch (w : World) (params : DebugLaunchParams)
    (st : SessionStore.Store) : Call (ToolResult DebugLaunchResult) * State :=
  let r := launch_body w params (mkState [] st) in
  (withErrorHandling (async (fun _ => as_body (fst r))), snd r).

(** The session [sid] of the store has a debug client. *)
Definition has_client (sid : string) (st : SessionStore.Store) : Prop :=
  exists s, SessionStore.sessions st !! sid = Some s /\
            is_Some (SessionStore.dapClient s).

(** Runs the body once it is known how each promise settles. *)
Ltac launch_run :=
  repeat (cbn [bind create_session await attach ret throw fst snd asked store
               SessionStore.create SessionStore.workspaceRoot SessionStore.id
               SessionStore.sessions SessionStore.sessionTimeout SessionStore.deleting
               SessionStore.dapClient set_dapClient app];
          rewrite ?lookup_insert_eq).

Ltac launch_leaf :=
  launch_run;
  split; [by eauto |];
  split; [split;
          [intros (s & Hsome & [c Hc]); injection Hsome as <-;
           first [discriminate Hc | by eauto]
          | intros ([path' Hp] & H1 & H2); first [congruence | by eauto]] |];
  split; [| split]; intros; simplify_eq; try done.

(** X25. [lcpDebugLaunch] with neither a session id nor a workspace
    root fails before anything happens. With a workspace root it makes
    a new session first: when the program path is then not resolved,
    the caller gets the error and the new session stays in the store,
    with nothing asked of a debug client. The client is put on the
    session only after [initialize] succeeded. After [launch], the tool
    waits once, 10000 ms, for the stop on entry; when that wait fails
    the error is the result, with no [pause] and no second wait. *)
Theorem launch_creates_session_before_it_can_fail (w : World) (params : DebugLaunchParams)
    (st : SessionStore.Store) :
  let out := lcpDebugLaunch w params st in
  (given (p_sessionId params) = None -> given (p_workspaceRoot params) = None ->
     out = (Returned (Resolved (toToolResult (missing_arguments w))), mkState [] st)) /\
  (forall root, given (p_sessionId params) = None ->
     given (p_workspaceRoot params) = Some root ->
     (exists s, SessionStore.sessions (store (snd out)) !! newId w = Some s /\
                SessionStore.workspaceRoot s = root) /\
     (has_client (newId w) (store (snd out)) <->
        (exists path, resolvePath w (p_program params) root = inr path) /\
        start_reply w = Resolved tt /\ initialize_reply w = Resolved tt) /\
     (forall err, resolvePath w (p_program params) root = inl err ->
        fst out = Returned (Resolved (toToolResult err)) /\ asked (snd out) = []) /\
     (forall path err, resolvePath w (p_program params) root = inr path ->
        start_reply w = Resolved tt -> initialize_reply w = Resolved tt ->
        launch_reply w = Resolved tt -> entry_wait w = Rejected err ->
        fst out = Returned (Resolved (toToolResult err)) /\
        asked (snd out) =
          [AskStart; AskInitialize;
           AskLaunch path (default [] (p_args params)) (p_env params);
           AskWait "stopped" 10000]) /\
     (forall path ev stackFrames, resolvePath w (p_program params) root = inr path ->
        start_reply w = Resolved tt -> initialize_reply w = Resolved tt ->
        launch_reply w = Resolved tt -> entry_wait w = Resolved ev ->
        stackTrace_reply w (DebugStep.threadId ev) = Resolved stackFrames ->
        fst out = Returned (Resolved (mkToolResult true
                    (Some (mkResult (newId w) "started"
                             (BreakpointManager.count (new_manager w))
                             (DebugStep.frame_line <$> head stackFrames)
                             (head stackFrames ≫= DebugStep.frame_source))) None)) /\
        asked (snd out) =
          [AskStart; AskInitialize;
           AskLaunch path (default [] (p_args params)) (p_env params);
           AskWait "stopped" 10000; AskStackTrace (DebugStep.threadId ev)])).
Proof.
  intros out. unfold out, lcpDebugLaunch, launch_body. split.
  - intros Hs Hr. unfold bind. by rewrite Hs, Hr.
  - intros root Hs Hr. rewrite Hs, Hr. unfold has_client. launch_run.
    destruct (resolvePath w (p_program params) root) as [err | path]; [launch_leaf |].
    launch_run.
    destruct (start_reply w) as [[] | e |]; [| launch_leaf | launch_leaf]. launch_run.
    destruct (initialize_reply w) as [[] | e |]; [| launch_leaf | launch_leaf]. launch_run.
    destruct (launch_reply w) as [[] | e |]; [| launch_leaf | launch_leaf]. launch_run.
    destruct (entry_wait w) as [ev | e |]; [| launch_leaf | launch_leaf]. launch_run.
    destruct (stackTrace_reply w (DebugStep.threadId ev)) as [fs | e |] eqn:Hst;
      launch_leaf;
      match goal with H : stackTrace_reply w _ = Resolved _ |- _ =>
        rewrite Hst in H; by simplify_eq end.
Qed.

End LcpDebugLaunch.

(* ===================================================================== *)
(** * src/utils/path-resolver.ts: paths and URIs *)
(* ===================================================================== *)

Module PathResolver.
Import Stdlib.Strings.Ascii.

Local Open Scope string_scope.

(** [s.replace(/a/g, b)] for single characters [a] and [b]. *)
Fixpoint replace_all (a b : ascii) (s : string) : string :=
  match s with
  | EmptyString => EmptyString
  | String c rest => String (if decide (c = a) then b else c) (replace_all a b rest)
  end.

(** [s.substring(n)] *)
Fixpoint substring_from (n : nat) (s : string) : string :=
  match n, s with
  | O, _ => s
  | S n', String _ rest => substring_from n' rest
  | S _, EmptyString => EmptyString
  end.

(** [s.startsWith(p)] *)
Definition startsWith (p s : string) : bool := String.prefix p s.

(** Whether the character occurs in the string. *)
Fixpoint occurs (a : ascii) (s : string) : bool :=
  match s with
  | EmptyString => false
  | String c rest => if decide (c = a) then true else occurs a rest
  end.

Section Platform.

(** What Node's [path] module gives on the platform: the separator
    [path.sep], [path.isAbsolute] and [path.resolve] of one path. *)
Variable sep : ascii.
Variable isAbsolute : string -> bool.
Variable resolve : string -> string.

(** [pathToUri(filePath)] *)
Definition pathToUri (filePath : string) : string :=
  let absolutePath := if isAbsolute filePath then filePath else resolve filePath in
  "file:///" ++ replace_all "\" "/" absolutePath.

(** [uriToPath(uri)] *)
Definition uriToPath (uri : string) : string :=
  if startsWith "file:///" uri then replace_all "/" sep (substring_from 8 uri)
  else if startsWith "file://" uri then replace_all "/" sep (substring_from 7 uri)
  else uri.

Lemma replace_all_same (a : ascii) (s : string) : replace_all a a s = s.
Proof.
  induction s as [| c s IH]; [done |]. simpl. rewrite IH. by case_decide; subst.
Qed.

Lemma replace_all_absent (a b : ascii) (s : string) :
  occurs a s = false -> replace_all a b s = s.
Proof.
  induction s as [| c s IH]; [done |]. simpl. case_decide as Hc; [done |].
  intros Ho. by rewrite IH.
Qed.

Lemma startsWith_shorter (a b s : string) :
  startsWith (a ++ b) s = true -> startsWith a s = true.
Proof.
  unfold startsWith. revert s. induction a as [| c a IH]; intros s; [by destruct s |].
  destruct s as [| c' s]; [done |]. simpl. destruct (ascii_dec c c'); [apply IH | done].
Qed.

Lemma uriToPath_file (rest : string) :
  uriToPath ("file:///" ++ rest) = replace_all "/" sep rest.
Proof. by destruct rest. Qed.

(** X29. [uriToPath(pathToUri(p))] is the absolute form of [p] with
    every backslash and slash turned into the separator of the platform:
    where the separator is the slash, an absolute path without
    backslashes comes back as it was. [pathToUri] puts ["file:///"] in
    front of a path that already starts with a slash, and [uriToPath]
    takes all of ["file:///"] off, so that with the slash as separator a
    URI like [file:///home/u/a.py] gives [home/u/a.py], with no leading
    slash. A string that does not start with ["file://"] is given back
    unchanged. *)
Theorem uri_round_trip_and_leading_slash (p : string) :
  uriToPath (pathToUri p) =
    replace_all "/" sep
      (replace_all "\" "/" (if isAbsolute p then p else resolve p)) /\
  (sep = "/"%char -> isAbsolute p = true -> occurs "\" p = false ->
     uriToPath (pathToUri p) = p /\
     (forall rest, p = String "/" rest -> pathToUri p = "file:////" ++ rest)) /\
  (sep = "/"%char -> uriToPath ("file:///" ++ p) = p) /\
  (startsWith "file://" p = false -> uriToPath p = p).
Proof.
  split; [unfold pathToUri; apply uriToPath_file |]. split; [| split].
  - intros Hsep Habs Hno. split.
    + unfold pathToUri. rewrite Habs, uriToPath_file, Hsep.
      by rewrite replace_all_same, replace_all_absent.
    + intros rest ->. unfold pathToUri. rewrite Habs.
      rewrite replace_all_absent by done. reflexivity.
  - intros Hsep. by rewrite uriToPath_file, Hsep, replace_all_same.
  - intros Hno. unfold uriToPath. rewrite Hno.
    destruct (startsWith "file:///" p) eqn:H3; [| done].
    apply (startsWith_shorter "file://" "/") in H3. congruence.
Qed.

End Platform.

(** On a platform whose separator is the slash: a URI as a language
    server writes it, and what [uriToPath] makes of it. *)
Example posix_uri_loses_leading_slash :
  uriToPath "/" "file:///home/u/a.py" = "home/u/a.py" /\
  pathToUri (String.prefix "/") (fun p => p) "/home/u/a.py" = "file:////home/u/a.py".
Proof. split; reflexivity. Qed.

End PathResolver.

(* ===================================================================== *)
(** * src/core/session-persistence.ts: serialize and restoreSession *)
(* ===================================================================== *)

Module SessionPersistence.
Import Js.

(** [interface DiagnosticInfo] *)
Record DiagnosticInfo : Type := mkDiagnostic {
  d_file : string;
  d_line : Z;
  d_severity : string;
  d_message : string;
  d_source : option string;
  d_code : JsValue
}.

(** The two tables of [interface Session] that the record of the
    session store leaves out: [openFiles], a [Set], and [diagnostics], a
    [Map] from file to diagnostics. *)
Record Tables : Type := mkTables {
  openFiles : list string;
  diagnostics : gmap string (list DiagnosticInfo)
}.

(** [interface SerializedSession]; [s_diagnostics] holds the own
    properties of the plain object. *)
Record SerializedSession : Type := mkSerialized {
  s_id : string;
  s_workspaceRoot : string;
  s_breakpoints : list BreakpointManager.BreakpointInfo;
  s_diagnostics : gmap string (list DiagnosticInfo);
  s_openFiles : list string;
  s_savedAt : string
}.

(** [object[file] = diags] on a plain object, for an array [diags]:
    under the key ["__proto__"] the assignment sets the prototype of the
    object and makes no property. *)
Definition set_property (o : gmap string (list DiagnosticInfo))
    (entry : string * list DiagnosticInfo) : gmap string (list DiagnosticInfo) :=
  if decide (fst entry = "__proto__"%string) then o else <[fst entry := snd entry]> o.

(** [serialize(session, breakpoints)]; [savedAt] is what
    [new Date().toISOString()] gives. *)
Definition serialize (session : SessionStore.Session) (tables : Tables)
    (breakpoints : list BreakpointManager.BreakpointInfo) (savedAt : string)
  : SerializedSession :=
  mkSerialized (SessionStore.id session) (SessionStore.workspaceRoot session) breakpoints
    (foldl set_property ∅ (map_to_list (diagnostics tables)))
    (openFiles tables) savedAt.

(** [restoreSession(data)]: the session it makes, with its tables, and
    the store afterwards. [newId] and [now] are what [sessionStore.create]
    draws and reads. *)
Definition restoreSession (data : SerializedSession) (newId : string) (now : Z)
    (st : SessionStore.Store) : SessionStore.Session * Tables * SessionStore.Store :=
  let created := SessionStore.create newId now (s_workspaceRoot data) st in
  (fst created,
   mkTables []
     (foldl (fun m entry => <[fst entry := snd entry]> m) ∅
        (map_to_list (s_diagnostics data))),
   snd created).

Lemma foldl_set_property (l : list (string * list DiagnosticInfo))
    (acc : gmap string (list DiagnosticInfo)) (k : string) :
  NoDup l.*1 ->
  foldl set_property acc l !! k =
  if decide (k <> "__proto__"%string /\ k ∈ l.*1)
  then (list_to_map l : gmap string (list DiagnosticInfo)) !! k
  else acc !! k.
Proof.
  revert acc. induction l as [| [k' v] l IH]; intros acc Hnd; cbn [foldl].
  - rewrite decide_False; [done |]. intros [_ H]. by apply not_elem_of_nil in H.
  - rewrite fmap_cons in Hnd. apply NoDup_cons in Hnd as [Hk' Hnd].
    rewrite IH by done. rewrite fmap_cons. cbn [fst list_to_map foldr].
    destruct (decide (k = k')) as [-> | Hne].
    + rewrite (decide_False (P := _ /\ k' ∈ l.*1)) by tauto.
      unfold set_property. cbn [fst snd].
      destruct (decide (k' = "__proto__"%string)) as [Hp | Hp].
      * rewrite decide_False; [done |]. intros [H _]. done.
      * rewrite lookup_insert_eq. rewrite decide_True; [by rewrite lookup_insert_eq |].
        split; [done | left].
    + assert (Hacc : set_property acc (k', v) !! k = acc !! k).
      { unfold set_property. cbn [fst snd].
        destruct (decide (k' = "__proto__"%string)); [done |].
        by rewrite lookup_insert_ne. }
      rewrite Hacc, lookup_insert_ne by done.
      apply decide_ext. rewrite elem_of_cons. split; [tauto |].
      intros [H1 [H2 | H2]]; [done | tauto].
Qed.

Lemma serialized_diagnostics (m : gmap string (list DiagnosticInfo)) :
  foldl set_property ∅ (map_to_list m) = delete "__proto__"%string m.
Proof.
  apply map_eq. intros k.
  rewrite foldl_set_property by apply NoDup_fst_map_to_list.
  rewrite list_to_map_to_list, lookup_empty.
  destruct (decide (k = "__proto__"%string)) as [-> | Hne].
  - rewrite lookup_delete_eq. rewrite decide_False; [done |]. tauto.
  - rewrite lookup_delete_ne by done.
    destruct (m !! k) as [v |] eqn:Hk.
    + rewrite decide_True; [done |]. split; [done |].
      apply list_elem_of_fmap. exists (k, v). split; [done |].
      by apply elem_of_map_to_list.
    + by case_decide.
Qed.

Lemma restored_diagnostics (m : gmap string (list DiagnosticInfo)) :
  foldl (fun acc entry => <[fst entry := snd entry]> acc) ∅ (map_to_list m) = m.
Proof.
  assert (H : forall l (acc : gmap string (list DiagnosticInfo)), NoDup l.*1 ->
            foldl (fun acc entry => <[fst entry := snd entry]> acc) acc l
            = list_to_map l ∪ acc).
  { induction l as [| [k v] l IH]; intros acc Hnd; cbn [foldl].
    - simpl. by rewrite (left_id_L ∅ (∪)).
    - rewrite fmap_cons in Hnd. apply NoDup_cons in Hnd as [Hk Hnd].
      rewrite IH by done. cbn [fst snd list_to_map foldr].
      apply map_eq. intros j. rewrite !lookup_union.
      destruct (decide (k = j)) as [<- | Hne].
      + rewrite !lookup_insert_eq.
        rewrite (not_elem_of_list_to_map_1 l k) by done. by destruct (acc !! k).
      + by rewrite !lookup_insert_ne by done. }
  rewrite H by apply NoDup_fst_map_to_list.
  by rewrite list_to_map_to_list, (right_id_L ∅ (∪)).
Qed.

(** X30. [restoreSession(serialize(session, breakpoints))] does not give
    the session back. It makes a new session under a new id, with the
    same workspace root, no client and no open file, and adds it to the
    store; the diagnostics are restored, apart from an entry under the
    key ["__proto__"], which [serialize] loses; the breakpoints and the
    open files that were serialized play no part in the result. *)
Theorem restore_makes_a_new_session (session : SessionStore.Session) (tables : Tables)
    (breakpoints : list BreakpointManager.BreakpointInfo) (savedAt newId : string)
    (now : Z) (st : SessionStore.Store) :
  let data := serialize session tables breakpoints savedAt in
  let r := restoreSession data newId now st in
  fst (fst r) =
    SessionStore.mkSession newId now now (SessionStore.workspaceRoot session) None [] None /\
  openFiles (snd (fst r)) = [] /\
  diagnostics (snd (fst r)) = delete "__proto__"%string (diagnostics tables) /\
  s_breakpoints data = breakpoints /\ s_openFiles data = openFiles tables /\
  s_id data = SessionStore.id session /\
  SessionStore.sessions (snd r) = <[newId := fst (fst r)]> (SessionStore.sessions st) /\
  (forall breakpoints' savedAt',
     restoreSession
       (serialize session (mkTables [] (diagnostics tables)) breakpoints' savedAt')
       newId now st = r).
Proof.
  intros data r. unfold r, data, restoreSession, serialize.
  cbn [fst snd s_workspaceRoot s_diagnostics s_breakpoints s_openFiles s_id
       openFiles diagnostics SessionStore.create SessionStore.sessions].
  rewrite serialized_diagnostics, restored_diagnostics.
  repeat split.
Qed.

End SessionPersistence.
